(** * An intrusive AVL tree (avltree.h / avltree.c): model and properties

    The C code manipulates caller-owned [avl_node_t] records through
    pointers.  The model keeps the memory explicit: a finite map from
    addresses to node records, next to the tree's root field.  Every C
    function becomes a computation in a state-and-error monad; a failed
    [assert], a NULL or dangling dereference and a signed overflow end the
    computation with [Fault]; recursion and loops are bounded by fuel and
    end with [OutOfFuel] when it runs out. *)

From stdpp Require Import base option list gmap.
From Stdlib Require Import ZArith Lia.

Local Open Scope Z_scope.

(** ** Data model *)

(** A pointer to a node: [None] is NULL. *)
Abbreviation ptr := (option nat).

(** [struct _avl_node]. *)
Record avl_node : Type := mk_node {
  parent : ptr;
  left : ptr;
  right : ptr;
  height : Z
}.

(** The memory holding the nodes together with [tree->root]. *)
Record avl_state : Type := mk_state {
  heap : gmap nat avl_node;
  root : ptr
}.

(** The user comparator [avl_tree_cmp_fp]: negative, zero or positive. *)
Abbreviation cmp_fp := (nat → nat → Z).

(** ** The monad of C computations *)

Inductive result (A : Type) : Type :=
  | Done (a : A)
  | Fault
  | OutOfFuel.
Arguments Done {A} a.
Arguments Fault {A}.
Arguments OutOfFuel {A}.

Definition M (A : Type) : Type := avl_state → result (A * avl_state).

Definition ret {A} (a : A) : M A := λ s, Done (a, s).

Definition bind {A B} (m : M A) (k : A → M B) : M B :=
  λ s, match m s with
       | Done (a, s') => k a s'
       | Fault => Fault
       | OutOfFuel => OutOfFuel
       end.

Definition fault {A} : M A := λ _, Fault.
Definition out_of_fuel {A} : M A := λ _, OutOfFuel.

Declare Scope avl_scope.
Delimit Scope avl_scope with avl.
Notation "x <- m ;; k" := (bind m (λ x, k))
  (at level 100, m at next level, right associativity) : avl_scope.
Notation "m ;;; k" := (bind m (λ _, k))
  (at level 100, right associativity) : avl_scope.
Local Open Scope avl_scope.

(** [assert(b)]. *)
Definition assert (b : bool) : M unit := if b then ret tt else fault.

(** Reading a whole node through a valid pointer. *)
Definition load (a : nat) : M avl_node :=
  λ s, match heap s !! a with
       | Some n => Done (n, s)
       | None => Fault
       end.

Definition store (a : nat) (n : avl_node) : M unit :=
  λ s, Done (tt, mk_state (<[a := n]> (heap s)) (root s)).

(** Field assignments [a->parent = v] and the like. *)
Definition set_parent (a : nat) (v : ptr) : M unit :=
  n <- load a ;; store a (mk_node v (left n) (right n) (height n)).
Definition set_left (a : nat) (v : ptr) : M unit :=
  n <- load a ;; store a (mk_node (parent n) v (right n) (height n)).
Definition set_right (a : nat) (v : ptr) : M unit :=
  n <- load a ;; store a (mk_node (parent n) (left n) v (height n)).
Definition set_height (a : nat) (v : Z) : M unit :=
  n <- load a ;; store a (mk_node (parent n) (left n) (right n) v).

Definition get_root : M ptr := λ s, Done (root s, s).
Definition set_root (v : ptr) : M unit := λ s, Done (tt, mk_state (heap s) v).

(** [p->field] where [p] may be NULL. *)
Definition deref (p : ptr) : M avl_node :=
  match p with
  | Some a => load a
  | None => fault
  end.

(** A value that [assert(p)] guarantees to be non-NULL. *)
Definition assert_ptr (p : ptr) : M nat :=
  match p with
  | Some a => ret a
  | None => fault
  end.

(** The range of C's [int]; leaving it is undefined behaviour. *)
Definition INT_MAX : Z := 2147483647.
Definition INT_MIN : Z := -2147483648.
Definition int_val (z : Z) : M Z :=
  if (INT_MIN <=? z) && (z <=? INT_MAX) then ret z else fault.

(** The [avl_node_t **root] argument of the rotations: the tree's root
    field, or the left or right field of a node. *)
Inductive slot : Type :=
  | SlotRoot
  | SlotLeft (p : nat)
  | SlotRight (p : nat).

Definition load_slot (sl : slot) : M ptr :=
  match sl with
  | SlotRoot => get_root
  | SlotLeft p => n <- load p ;; ret (left n)
  | SlotRight p => n <- load p ;; ret (right n)
  end.

Definition store_slot (sl : slot) (v : ptr) : M unit :=
  match sl with
  | SlotRoot => set_root v
  | SlotLeft p => set_left p v
  | SlotRight p => set_right p v
  end.

(** ** Rotations *)

Definition avl_rotate_rr (sl : slot) (node : nat) : M unit :=
  n <- load node ;;
  r <- assert_ptr (right n) ;;
  cur <- load_slot sl ;;
  assert (bool_decide (cur = Some node)) ;;;
  rn <- load r ;;
  set_right node (left rn) ;;;
  rn <- load r ;;
  match left rn with
  | Some rl => set_parent rl (Some node)
  | None => ret tt
  end ;;;
  n <- load node ;;
  set_parent r (parent n) ;;;
  set_left r (Some node) ;;;
  set_parent node (Some r) ;;;
  store_slot sl (Some r).

Definition avl_rotate_ll (sl : slot) (node : nat) : M unit :=
  n <- load node ;;
  l <- assert_ptr (left n) ;;
  cur <- load_slot sl ;;
  assert (bool_decide (cur = Some node)) ;;;
  ln <- load l ;;
  set_left node (right ln) ;;;
  ln <- load l ;;
  match right ln with
  | Some lr => set_parent lr (Some node)
  | None => ret tt
  end ;;;
  n <- load node ;;
  set_parent l (parent n) ;;;
  set_right l (Some node) ;;;
  set_parent node (Some l) ;;;
  store_slot sl (Some l).

Definition avl_rotate_lr (sl : slot) (node : nat) : M unit :=
  n <- load node ;;
  l <- assert_ptr (left n) ;;
  ln <- load l ;;
  _ <- assert_ptr (right ln) ;;
  cur <- load_slot sl ;;
  assert (bool_decide (cur = Some node)) ;;;
  n <- load node ;;
  l <- assert_ptr (left n) ;;
  avl_rotate_rr (SlotLeft node) l ;;;
  avl_rotate_ll sl node.

Definition avl_rotate_rl (sl : slot) (node : nat) : M unit :=
  n <- load node ;;
  r <- assert_ptr (right n) ;;
  rn <- load r ;;
  _ <- assert_ptr (left rn) ;;
  cur <- load_slot sl ;;
  assert (bool_decide (cur = Some node)) ;;;
  n <- load node ;;
  r <- assert_ptr (right n) ;;
  avl_rotate_ll (SlotRight node) r ;;;
  avl_rotate_rr sl node.

(** ** Height and balance *)

Definition avl_get_balance (node : nat) : M Z :=
  n <- load node ;;
  lh <- match left n with
        | Some l => ln <- load l ;; ret (height ln)
        | None => ret 0
        end ;;
  n <- load node ;;
  rh <- match right n with
        | Some r => rn <- load r ;; ret (height rn)
        | None => ret 0
        end ;;
  int_val (lh - rh).

Definition avl_is_balanced (node : nat) : M bool :=
  bfact <- avl_get_balance node ;;
  ret (if (bfact <? -1) || (bfact >? 1) then false else true).

Fixpoint avl_set_height (fuel : nat) (node : nat) : M unit :=
  match fuel with
  | O => out_of_fuel
  | S f =>
      set_height node 1 ;;;
      n <- load node ;;
      match left n with
      | Some l =>
          avl_set_height f l ;;;
          n <- load node ;;
          ln <- deref (left n) ;;
          h <- int_val (height ln + 1) ;;
          set_height node h
      | None => ret tt
      end ;;;
      n <- load node ;;
      match right n with
      | Some r =>
          avl_set_height f r ;;;
          n <- load node ;;
          rn <- deref (right n) ;;
          if height rn >=? height n
          then h <- int_val (height rn + 1) ;;
               set_height node h
          else ret tt
      | None => ret tt
      end
  end.

(** [avl_set_height(tree->root)]. *)
Definition avl_set_height_root (fuel : nat) : M unit :=
  r <- get_root ;;
  match r with
  | Some a => avl_set_height fuel a
  | None => fault
  end.

(** ** The rebalance driver *)

Definition avl_do_balancing (fuel : nat) (node : nat) : M bool :=
  n <- load node ;;
  sl <- match parent n with
        | Some p =>
            pn <- load p ;;
            ret (if bool_decide (right pn = Some node)
                 then SlotRight p else SlotLeft p)
        | None =>
            r <- get_root ;;
            assert (bool_decide (r = Some node)) ;;;
            ret SlotRoot
        end ;;
  b <- avl_get_balance node ;;
  res <- (if b >? 0 then
            n <- load node ;;
            l <- assert_ptr (left n) ;;
            bl <- avl_get_balance l ;;
            if bl >? 0 then
              avl_rotate_ll sl node ;;; ret true
            else
              n <- load node ;;
              l <- assert_ptr (left n) ;;
              bl <- avl_get_balance l ;;
              if bl <? 0 then
                avl_rotate_lr sl node ;;; ret true
              else
                avl_rotate_ll sl node ;;; ret false
          else
            b <- avl_get_balance node ;;
            if b <? 0 then
              n <- load node ;;
              r <- assert_ptr (right n) ;;
              br <- avl_get_balance r ;;
              if br <? 0 then
                avl_rotate_rr sl node ;;; ret true
              else
                n <- load node ;;
                r <- assert_ptr (right n) ;;
                br <- avl_get_balance r ;;
                if br >? 0 then
                  avl_rotate_rl sl node ;;; ret true
                else
                  avl_rotate_rr sl node ;;; ret false
            else ret true) ;;
  avl_set_height_root fuel ;;;
  ret res.

(** ** Extremal nodes *)

Fixpoint avl_get_max_node (fuel : nat) (node : ptr) : M ptr :=
  match node with
  | None => ret None
  | Some a =>
      n <- load a ;;
      match right n with
      | None => ret (Some a)
      | Some r =>
          match fuel with
          | O => out_of_fuel
          | S f => avl_get_max_node f (Some r)
          end
      end
  end.

Fixpoint avl_get_min_node (fuel : nat) (node : ptr) : M ptr :=
  match node with
  | None => ret None
  | Some a =>
      n <- load a ;;
      match left n with
      | None => ret (Some a)
      | Some l =>
          match fuel with
          | O => out_of_fuel
          | S f => avl_get_min_node f (Some l)
          end
      end
  end.

(** ** Search *)

Fixpoint __avl_find (fuel : nat) (cmp : cmp_fp) (rt : ptr) (node : nat)
  : M ptr :=
  match rt with
  | None => ret None
  | Some a =>
      match fuel with
      | O => out_of_fuel
      | S f =>
          let res := cmp node a in
          if res >? 0 then
            n <- load a ;; __avl_find f cmp (right n) node
          else if res <? 0 then
            n <- load a ;; __avl_find f cmp (left n) node
          else ret (Some a)
      end
  end.

Definition avl_find (fuel : nat) (cmp : cmp_fp) (node : nat) : M ptr :=
  r <- get_root ;;
  __avl_find fuel cmp r node.

(** ** Insertion *)

Fixpoint __avl_add (fuel : nat) (cmp : cmp_fp) (rt root_parent : ptr)
    (node : nat) : M ptr :=
  match rt with
  | None =>
      set_parent node root_parent ;;;
      ret (Some node)
  | Some a =>
      match fuel with
      | O => out_of_fuel
      | S f =>
          let res := cmp node a in
          if res <? 0 then
            n <- load a ;;
            v <- __avl_add f cmp (left n) (Some a) node ;;
            set_left a v ;;;
            ret (Some a)
          else if res >? 0 then
            n <- load a ;;
            v <- __avl_add f cmp (right n) (Some a) node ;;
            set_right a v ;;;
            (* [return root->right = ...]: the assigned value *)
            ret v
          else ret (Some a)
      end
  end.

(** The loop [for (; node != NULL; node = node->parent)] of [avl_add]. *)
Fixpoint avl_add_walk (fuel_h fuel : nat) (node : ptr) : M unit :=
  match node with
  | None => ret tt
  | Some a =>
      match fuel with
      | O => out_of_fuel
      | S f =>
          b <- avl_is_balanced a ;;
          if negb b then
            avl_do_balancing fuel_h a ;;; ret tt
          else
            n <- load a ;; avl_add_walk fuel_h f (parent n)
      end
  end.

Definition avl_add (fuel : nat) (cmp : cmp_fp) (node : nat) : M unit :=
  r <- get_root ;;
  v <- __avl_add fuel cmp r None node ;;
  set_root v ;;;
  avl_set_height_root fuel ;;;
  avl_add_walk fuel fuel (Some node).

(** ** Deletion *)

(** The two blocks "handle node1" and "handle node2" of [avl_swap_nodes]
    are the same code with the two nodes exchanged: [x] is the node being
    handled and [y] the other one. *)
Definition avl_swap_handle (x y : nat) : M unit :=
  xn <- load x ;;
  match parent xn with
  | Some p =>
      if bool_decide (p = x) then set_parent x (Some y)
      else
        pn <- load p ;;
        if bool_decide (left pn = Some y) then set_left p (Some x)
        else if bool_decide (right pn = Some y) then set_right p (Some x)
        else fault
  | None =>
      r <- get_root ;;
      assert (bool_decide (r = Some y)) ;;;
      set_root (Some x)
  end ;;;
  xn <- load x ;;
  match left xn with
  | Some l =>
      (if bool_decide (l = x) then set_left x (Some y) else ret tt) ;;;
      xn <- load x ;;
      l' <- assert_ptr (left xn) ;;
      set_parent l' (Some x)
  | None => ret tt
  end ;;;
  xn <- load x ;;
  match right xn with
  | Some r =>
      (if bool_decide (r = x) then set_right x (Some y) else ret tt) ;;;
      xn <- load x ;;
      r' <- assert_ptr (right xn) ;;
      set_parent r' (Some x)
  | None => ret tt
  end.

Definition avl_swap_nodes (node1 node2 : nat) : M unit :=
  if bool_decide (node1 = node2) then ret tt
  else
    tmp <- load node1 ;;
    n2 <- load node2 ;;
    store node1 n2 ;;;
    store node2 tmp ;;;
    avl_swap_handle node1 node2 ;;;
    avl_swap_handle node2 node1.

(** The rebalancing loop of [avl_del]. *)
Fixpoint avl_del_walk (fuel_h fuel : nat) (node : ptr) : M unit :=
  match node with
  | None => ret tt
  | Some a =>
      match fuel with
      | O => out_of_fuel
      | S f =>
          b <- avl_is_balanced a ;;
          if negb b then
            cont <- avl_do_balancing fuel_h a ;;
            if negb cont then ret tt
            else
              n <- load a ;;
              pn <- deref (parent n) ;;
              avl_del_walk fuel_h f (parent pn)
          else
            n <- load a ;; avl_del_walk fuel_h f (parent n)
      end
  end.

(** The part of [avl_del] under the comment "delete node now": the node,
    which has at most one child, is replaced in its slot by that child. *)
Definition avl_del_splice (node : nat) : M unit :=
  n <- load node ;;
  assert (negb (bool_decide (is_Some (left n))
                && bool_decide (is_Some (right n)))) ;;;
  sl <- match parent n with
        | Some p =>
            pn <- load p ;;
            ret (if bool_decide (left pn = Some node)
                 then SlotLeft p else SlotRight p)
        | None => ret SlotRoot
        end ;;
  n <- load node ;;
  store_slot sl (match left n with Some l => Some l | None => right n end) ;;;
  c <- load_slot sl ;;
  match c with
  | Some ca => n <- load node ;; set_parent ca (parent n)
  | None => ret tt
  end.

(** The last block of [avl_del]: [if (node->parent) { ... }]. *)
Definition avl_del_rebalance (fuel : nat) (node : nat) : M unit :=
  n <- load node ;;
  match parent n with
  | Some p =>
      avl_set_height_root fuel ;;;
      avl_del_walk fuel fuel (Some p)
  | None => ret tt
  end.

Definition avl_del (fuel : nat) (node : nat) : M unit :=
  n <- load node ;;
  match left n, right n with
  | Some l, Some _ =>
      swap <- avl_get_max_node fuel (Some l) ;;
      sw <- assert_ptr swap ;;
      avl_swap_nodes node sw
  | _, _ => ret tt
  end ;;;
  avl_del_splice node ;;;
  avl_del_rebalance fuel node.

(** ** Observing a tree *)

(** The nodes reachable from [p] through child links, in order; [None]
    when a link dangles or the fuel does not cover the depth. *)
Fixpoint inorder (fuel : nat) (h : gmap nat avl_node) (p : ptr)
  : option (list nat) :=
  match p with
  | None => Some []
  | Some a =>
      match fuel with
      | O => None
      | S f =>
          n ← h !! a;
          ls ← inorder f h (left n);
          rs ← inorder f h (right n);
          Some (ls ++ a :: rs)
      end
  end.

Definition reachable (fuel : nat) (s : avl_state) : option (list nat) :=
  inorder fuel (heap s) (root s).

(** A detached node with cleared links. *)
Definition blank : avl_node := mk_node None None None 0.

(** Memory holding the given nodes, all detached and cleared, and an
    empty tree. *)
Definition fresh_state (nodes : list nat) : avl_state :=
  mk_state (list_to_map ((λ a, (a, blank)) <$> nodes)) None.

(** Running a list of operations. *)
Inductive op : Type := Add (node : nat) | Del (node : nat).

Definition run_op (fuel : nat) (cmp : cmp_fp) (o : op) : M unit :=
  match o with
  | Add a => avl_add fuel cmp a
  | Del a => avl_del fuel a
  end.

Fixpoint run_ops (fuel : nat) (cmp : cmp_fp) (os : list op) : M unit :=
  match os with
  | [] => ret tt
  | o :: os' => run_op fuel cmp o ;;; run_ops fuel cmp os'
  end.

(** A comparator from a key function. *)
Definition cmp_key (key : nat → Z) : cmp_fp :=
  λ a b, if key a <? key b then -1 else if key b <? key a then 1 else 0.

(** ** Specification vocabulary *)

(** [wp m s Q]: from state [s] the computation [m] finishes normally, with
    a value and a state that satisfy [Q]. *)
Definition wp {A} (m : M A) (s : avl_state) (Q : A → avl_state → Prop)
  : Prop :=
  match m s with
  | Done (a, s') => Q a s'
  | _ => False
  end.

(** The value and the final state of a finished computation. *)
Definition value {A} (r : result (A * avl_state)) : option A :=
  match r with
  | Done (a, _) => Some a
  | _ => None
  end.

Definition final {A} (r : result (A * avl_state)) : option avl_state :=
  match r with
  | Done (_, s) => Some s
  | _ => None
  end.

(** Building a memory from a list of nodes. *)
Definition mem_of (l : list (nat * avl_node)) : gmap nat avl_node :=
  list_to_map l.

(** ** Trees laid out in memory *)

(** The shape of a tree, by node addresses. *)
Inductive tree : Type :=
  | Leaf
  | Node (l : tree) (a : nat) (r : tree).

(** [shape h p t]: following child links from [p] in memory [h] gives
    exactly the tree [t]. *)
Fixpoint shape (h : gmap nat avl_node) (p : ptr) (t : tree) : Prop :=
  match t with
  | Leaf => p = None
  | Node l a r =>
      p = Some a ∧
      ∃ n, h !! a = Some n ∧ shape h (left n) l ∧ shape h (right n) r
  end.

Fixpoint elements (t : tree) : list nat :=
  match t with
  | Leaf => []
  | Node l a r => elements l ++ a :: elements r
  end.

Fixpoint depth (t : tree) : nat :=
  match t with
  | Leaf => O
  | Node l _ r => S (Nat.max (depth l) (depth r))
  end.

(** The BST ordering invariant for keys given by [key]. *)
Fixpoint bst (key : nat → Z) (t : tree) : Prop :=
  match t with
  | Leaf => True
  | Node l a r =>
      bst key l ∧ bst key r ∧
      (∀ x, x ∈ elements l → key x < key a) ∧
      (∀ x, x ∈ elements r → key a < key x)
  end.

(** ** Vocabulary of the rotations *)

(** Single-field updates of a node record. *)
Definition with_parent (v : ptr) (n : avl_node) : avl_node :=
  mk_node v (left n) (right n) (height n).

Definition with_left (v : ptr) (n : avl_node) : avl_node :=
  mk_node (parent n) v (right n) (height n).

Definition with_right (v : ptr) (n : avl_node) : avl_node :=
  mk_node (parent n) (left n) v (height n).

(** The node owning a slot is none of [xs] (the tree's root field has no
    owner). *)
Definition owner_free (sl : slot) (xs : list nat) : Prop :=
  match sl with
  | SlotRoot => True
  | SlotLeft p | SlotRight p => p ∉ xs
  end.

Definition slot_owner (sl : slot) : list nat :=
  match sl with
  | SlotRoot => []
  | SlotLeft p | SlotRight p => [p]
  end.

(** A displaced subtree root [p], when not NULL, is a node of memory
    different from the nodes [xs] and from the owner of the slot. *)
Definition inner_ok (s : avl_state) (sl : slot) (xs : list nat) (p : ptr)
  : Prop :=
  match p with
  | Some c => (c ∉ xs) ∧ is_Some (heap s !! c) ∧ owner_free sl [c]
  | None => True
  end.

(** Precondition of a single rotation at [node] that promotes [child],
    whose inner subtree [inner] changes sides: the slot holds [node] and
    the nodes involved are pairwise different, as in a tree. *)
Definition rot_pre (s : avl_state) (sl : slot) (node child : nat)
    (inner : ptr) : Prop :=
  load_slot sl s = Done (Some node, s) ∧
  node ≠ child ∧
  owner_free sl [node; child] ∧
  inner_ok s sl [node; child] inner.

(** Precondition of a double rotation at [node] that promotes the
    grandchild [grand], whose subtrees [c] and [d] are handed to [child]
    and [node]. *)
Definition rot2_pre (s : avl_state) (sl : slot) (node child grand : nat)
    (c d : ptr) : Prop :=
  load_slot sl s = Done (Some node, s) ∧
  NoDup [node; child; grand] ∧
  owner_free sl [node; child; grand] ∧
  inner_ok s sl [node; child; grand] c ∧
  inner_ok s sl [node; child; grand] d ∧
  (c = d → c = None).

(** Between [s] and [s'] the node at [p], when [p] is not NULL, had its
    parent field set to [v] and nothing else changed in it. *)
Definition reparented (s s' : avl_state) (p : ptr) (v : ptr) : Prop :=
  match p with
  | Some b => heap s' !! b = with_parent v <$> heap s !! b
  | None => True
  end.

(** Between [s] and [s'] the slot was set to [v] and its owner is
    otherwise unchanged. *)
Definition slot_set (sl : slot) (v : ptr) (s s' : avl_state) : Prop :=
  match sl with
  | SlotRoot => root s' = v
  | SlotLeft p => root s' = root s ∧ heap s' !! p = with_left v <$> heap s !! p
  | SlotRight p =>
      root s' = root s ∧ heap s' !! p = with_right v <$> heap s !! p
  end.

(** Every node outside [xs] is the same in [s] and [s']. *)
Definition frame (xs : list nat) (s s' : avl_state) : Prop :=
  ∀ a, a ∉ xs → heap s' !! a = heap s !! a.

(** A small tree for exercising the rotations: 6(2(1, 4(3, 5)), 7) hanging
    in the left field of node 8, and its mirror image hanging in the right
    field of node 8. *)
Definition lr_state : avl_state :=
  mk_state
    (mem_of [ (8%nat, mk_node None (Some 6%nat) None 5);
              (6%nat, mk_node (Some 8%nat) (Some 2%nat) (Some 7%nat) 4);
              (7%nat, mk_node (Some 6%nat) None None 1);
              (2%nat, mk_node (Some 6%nat) (Some 1%nat) (Some 4%nat) 3);
              (1%nat, mk_node (Some 2%nat) None None 1);
              (4%nat, mk_node (Some 2%nat) (Some 3%nat) (Some 5%nat) 2);
              (3%nat, mk_node (Some 4%nat) None None 1);
              (5%nat, mk_node (Some 4%nat) None None 1) ])
    (Some 8%nat).

Definition rl_state : avl_state :=
  mk_state
    (mem_of [ (8%nat, mk_node None None (Some 6%nat) 5);
              (6%nat, mk_node (Some 8%nat) (Some 7%nat) (Some 2%nat) 4);
              (7%nat, mk_node (Some 6%nat) None None 1);
              (2%nat, mk_node (Some 6%nat) (Some 4%nat) (Some 1%nat) 3);
              (1%nat, mk_node (Some 2%nat) None None 1);
              (4%nat, mk_node (Some 2%nat) (Some 5%nat) (Some 3%nat) 2);
              (3%nat, mk_node (Some 4%nat) None None 1);
              (5%nat, mk_node (Some 4%nat) None None 1) ])
    (Some 8%nat).

(** ** The tied sub-case of the rebalance driver *)

(** The balance factor that [avl_get_balance] computes at [a]. *)
Definition balance_of (a : nat) (s : avl_state) : option Z :=
  match avl_get_balance a s with
  | Done (b, _) => Some b
  | _ => None
  end.

(** The child on the heavy side of [node], if one side is heavy. *)
Definition heavy_child (node : nat) (s : avl_state) : ptr :=
  b ← balance_of node s;
  n ← heap s !! node;
  if 0 <? b then left n else if b <? 0 then right n else None.

(** The tied sub-case of the rebalance driver: [node] is heavy on one
    side and the child on that side has balance factor exactly 0. *)
Definition tied_case (node : nat) (s : avl_state) : bool :=
  match heavy_child node s with
  | Some c => bool_decide (balance_of c s = Some 0)
  | None => false
  end.

(** The reading of the driver's result under which the tied sub-case
    tells the deletion walk to go on: [avl_del] keeps walking exactly
    when the result is [TRUE]. *)
Definition tied_means_continue : Prop :=
  ∀ fuel node s cont s',
    avl_do_balancing fuel node s = Done (cont, s') →
    tied_case node s = true → cont = true.

(** The tree 2(-, 4(3, 5)) as it stands in [avl_del] after node 1 was
    unlinked from under 2 and the heights were recomputed. *)
Definition tied_state : avl_state :=
  mk_state
    (mem_of [ (1%nat, mk_node (Some 2%nat) None None 1);
              (2%nat, mk_node None None (Some 4%nat) 3);
              (3%nat, mk_node (Some 4%nat) None None 1);
              (4%nat, mk_node (Some 2%nat) (Some 3%nat) (Some 5%nat) 2);
              (5%nat, mk_node (Some 4%nat) None None 1) ])
    (Some 2%nat).

(** ** The descent of an insertion *)





(** Keys for the duplicate scenario: node 4 carries the same key as
    node 3; every other node is keyed by its address. *)
Definition dup_key (a : nat) : Z :=
  if (a =? 4)%nat then 3 else Z.of_nat a.

(** ** Vocabulary of deletion *)

(** What [avl_del] writes into the promoted child: only its parent. *)
Definition clear_parent (cn : avl_node) : avl_node :=
  mk_node None (left cn) (right cn) (height cn).

(** A root with a single child: 2(1, -). *)
Definition chain_state : avl_state :=
  mk_state
    (mem_of [ (2%nat, mk_node None (Some 1%nat) None 2);
              (1%nat, mk_node (Some 2%nat) None None 1) ])
    (Some 2%nat).

(** The slot [sl] is the one through which [node], whose parent field is
    [p], is reached. *)
Definition holds_node (s : avl_state) (sl : slot) (p : ptr) (node : nat)
  : Prop :=
  match sl with
  | SlotRoot => p = None ∧ root s = Some node
  | SlotLeft p' =>
      p = Some p' ∧ ∃ pn, heap s !! p' = Some pn ∧ left pn = Some node
  | SlotRight p' =>
      p = Some p' ∧
      ∃ pn, heap s !! p' = Some pn ∧ right pn = Some node ∧
            left pn ≠ Some node
  end.

(** The parent field of the node at [p], when [p] is not NULL, is [v]. *)
Definition parent_is (s : avl_state) (p : ptr) (v : ptr) : Prop :=
  match p with
  | Some b => ∃ bn, heap s !! b = Some bn ∧ parent bn = v
  | None => True
  end.

(** Every node of the list passes the code's own balance test. *)
Definition all_balanced (s : avl_state) (nodes : list nat) : bool :=
  forallb (λ a, bool_decide (value (avl_is_balanced a s) = Some true)) nodes.

(** The balanced tree over the keys 20, 10, 30, 5, 15, 25, 35; every node
    sits at the address equal to its key. *)
Definition balanced7 : avl_state :=
  mk_state
    (mem_of [ (20%nat, mk_node None (Some 10%nat) (Some 30%nat) 3);
              (10%nat, mk_node (Some 20%nat) (Some 5%nat) (Some 15%nat) 2);
              (30%nat, mk_node (Some 20%nat) (Some 25%nat) (Some 35%nat) 2);
              (5%nat, mk_node (Some 10%nat) None None 1);
              (15%nat, mk_node (Some 10%nat) None None 1);
              (25%nat, mk_node (Some 30%nat) None None 1);
              (35%nat, mk_node (Some 30%nat) None None 1);
              (* two detached probes, keyed 15 and 17 by [probe_key] *)
              (1%nat, blank);
              (2%nat, blank) ])
    (Some 20%nat).

Definition balanced7_tree : tree :=
  Node (Node (Node Leaf 5 Leaf) 10 (Node Leaf 15 Leaf)) 20
       (Node (Node Leaf 25 Leaf) 30 (Node Leaf 35 Leaf)).

(** Keys for [balanced7]: a node's key is its address, except for the two
    probes. *)
Definition probe_key (a : nat) : Z :=
  if (a =? 1)%nat then 15 else if (a =? 2)%nat then 17 else Z.of_nat a.

(** ** Vocabulary for whole trees *)

(** The three link fields of a node. *)
Definition links (n : avl_node) : ptr * ptr * ptr :=
  (parent n, left n, right n).

(** No link of any node and not the root field differ between [s] and
    [s']. *)
Definition links_kept (s s' : avl_state) : Prop :=
  root s' = root s ∧ ∀ a, links <$> heap s' !! a = links <$> heap s !! a.

(** Every node of the tree [t] caches the depth of its subtree. *)
Fixpoint heights_ok (h : gmap nat avl_node) (t : tree) : Prop :=
  match t with
  | Leaf => True
  | Node l a r =>
      (∃ n, h !! a = Some n ∧ height n = Z.of_nat (depth t)) ∧
      heights_ok h l ∧ heights_ok h r
  end.

(** At every node of [t], [avl_get_balance] answers with the difference of
    the depths of the two subtrees and changes nothing. *)
Fixpoint balance_reads (s : avl_state) (t : tree) : Prop :=
  match t with
  | Leaf => True
  | Node l a r =>
      avl_get_balance a s
      = Done (Z.of_nat (depth l) - Z.of_nat (depth r), s) ∧
      balance_reads s l ∧ balance_reads s r
  end.

(** The node at [x] has the same two children in [h'] as in [h]. *)
Definition same_children (h h' : gmap nat avl_node) (x : nat) : Prop :=
  ∀ n, h !! x = Some n →
       ∃ n', h' !! x = Some n' ∧ left n' = left n ∧ right n' = right n.

(** The trees below node 8 in [lr_state] and in [rl_state]. *)
Definition lr_tree : tree :=
  Node (Node (Node Leaf 1 Leaf) 2
             (Node (Node Leaf 3 Leaf) 4 (Node Leaf 5 Leaf)))
       6 (Node Leaf 7 Leaf).

Definition rl_tree : tree :=
  Node (Node Leaf 7 Leaf) 6
       (Node (Node (Node Leaf 5 Leaf) 4 (Node Leaf 3 Leaf)) 2
             (Node Leaf 1 Leaf)).

(** ** Whole trees with parent fields *)

(** [wf h p par t]: following child links from [p] in memory [h] gives
    the tree [t], and the parent field of every node of [t] names the
    node above it, [par] for the root of [t]. *)
Fixpoint wf (h : gmap nat avl_node) (p par : ptr) (t : tree) : Prop :=
  match t with
  | Leaf => p = None
  | Node l a r =>
      p = Some a ∧
      ∃ n, h !! a = Some n ∧ parent n = par ∧
           wf h (left n) (Some a) l ∧ wf h (right n) (Some a) r
  end.

(** The AVL condition at every node. *)
Fixpoint avl (t : tree) : Prop :=
  match t with
  | Leaf => True
  | Node l _ r =>
      avl l ∧ avl r ∧ (depth l ≤ depth r + 1)%nat ∧ (depth r ≤ depth l + 1)%nat
  end.

(** The balance factor of the root of a tree. *)
Definition bal (t : tree) : Z :=
  match t with
  | Leaf => 0
  | Node l _ r => Z.of_nat (depth l) - Z.of_nat (depth r)
  end.

(** The test of [avl_is_balanced], on depths. *)
Definition balanced (t : tree) : bool :=
  if (bal t <? -1) || (bal t >? 1) then false else true.

(** The tree that [avl_do_balancing] leaves in place of [t]: the case
    analysis of the C function, on depths instead of height fields. *)
Definition rebalance (t : tree) : tree :=
  match t with
  | Leaf => Leaf
  | Node l n r =>
      if bal t >? 0 then
        match l with
        | Leaf => t
        | Node A x B =>
            if bal l >? 0 then Node A x (Node B n r)
            else if bal l <? 0 then
              match B with
              | Leaf => t
              | Node B1 b B2 => Node (Node A x B1) b (Node B2 n r)
              end
            else Node A x (Node B n r)
        end
      else if bal t <? 0 then
        match r with
        | Leaf => t
        | Node B x C =>
            if bal r <? 0 then Node (Node l n B) x C
            else if bal r >? 0 then
              match B with
              | Leaf => t
              | Node B1 b B2 => Node (Node l n B1) b (Node B2 x C)
              end
            else Node (Node l n B) x C
        end
      else t
  end.

(** The sub-case in which [avl_do_balancing] returns [FALSE]: the root is
    heavy on one side and the child on that side is level. *)
Definition tied (t : tree) : bool :=
  match t with
  | Leaf => false
  | Node l _ r =>
      if bal t >? 0 then bool_decide (bal l = 0)
      else if bal t <? 0 then bool_decide (bal r = 0)
      else false
  end.

(** A tree with a hole: the path from the root down to the hole, innermost
    step first, with the subtrees that hang off the path. *)
Inductive ctx : Type :=
  | Top
  | InL (c : ctx) (a : nat) (r : tree)
  | InR (c : ctx) (l : tree) (a : nat).

Fixpoint plug (c : ctx) (t : tree) : tree :=
  match c with
  | Top => t
  | InL c' a r => plug c' (Node t a r)
  | InR c' l a => plug c' (Node l a t)
  end.

(** The pointer variable that holds the subtree in the hole, and the node
    above the hole. *)
Definition ctx_slot (c : ctx) : slot :=
  match c with
  | Top => SlotRoot
  | InL _ a _ => SlotLeft a
  | InR _ _ a => SlotRight a
  end.

Definition ctx_parent (c : ctx) : ptr :=
  match c with
  | Top => None
  | InL _ a _ | InR _ _ a => Some a
  end.

Fixpoint ctx_elements (c : ctx) : list nat :=
  match c with
  | Top => []
  | InL c' a r => a :: elements r ++ ctx_elements c'
  | InR c' l a => a :: elements l ++ ctx_elements c'
  end.

Fixpoint ctx_depth (c : ctx) : nat :=
  match c with
  | Top => O
  | InL c' _ _ | InR c' _ _ => S (ctx_depth c')
  end.

(** [ctx_wf h rt c q]: the path [c] is laid out in memory [h] below the
    root pointer [rt], and its hole holds the pointer [q]. *)
Fixpoint ctx_wf (h : gmap nat avl_node) (rt : ptr) (c : ctx) (q : ptr)
  : Prop :=
  match c with
  | Top => rt = q
  | InL c' a r =>
      ∃ n, h !! a = Some n ∧ left n = q ∧ parent n = ctx_parent c' ∧
           wf h (right n) (Some a) r ∧ ctx_wf h rt c' (Some a)
  | InR c' l a =>
      ∃ n, h !! a = Some n ∧ right n = q ∧ parent n = ctx_parent c' ∧
           wf h (left n) (Some a) l ∧ ctx_wf h rt c' (Some a)
  end.

(** What the loop of [avl_add] leaves of the tree [plug c t] when it
    starts at the root of [t]: it climbs while the node is balanced and
    rebalances the first node that is not. *)
Fixpoint walk_up (c : ctx) (t : tree) : tree :=
  if balanced t then
    match c with
    | Top => t
    | InL c' a r => walk_up c' (Node t a r)
    | InR c' l a => walk_up c' (Node l a t)
    end
  else plug c (rebalance t).

(** Linking a node in front of every node of a tree. *)
Fixpoint ins_min (x : nat) (t : tree) : tree :=
  match t with
  | Leaf => Node Leaf x Leaf
  | Node l a r => Node (ins_min x l) a r
  end.

(** The path to the leftmost empty position of [t], below the path [c]. *)
Fixpoint lctx (c : ctx) (t : tree) : ctx :=
  match t with
  | Leaf => c
  | Node l a r => lctx (InL c a r) l
  end.

(** The keys of a list of nodes go strictly down. *)
Fixpoint descending (key : nat → Z) (nodes : list nat) : Prop :=
  match nodes with
  | [] => True
  | x :: rest => (∀ y, y ∈ rest → key y < key x) ∧ descending key rest
  end.

(** The root pointer of a tree. *)
Definition root_of (t : tree) : ptr :=
  match t with
  | Leaf => None
  | Node _ a _ => Some a
  end.

(** [fails_or m s Q]: from [s] the computation [m] either stops at a
    failed [assert] or finishes with a value and state in [Q]. *)
Definition fails_or {A} (m : M A) (s : avl_state)
    (Q : A → avl_state → Prop) : Prop :=
  match m s with
  | Done (a, s') => Q a s'
  | Fault => True
  | OutOfFuel => False
  end.


(** What the loop of [avl_del] leaves of the tree [plug c u] when it
    starts at the node above the hole of [c]: it climbs to the root,
    rebalancing every node that is out of balance, and stops early only
    after a rotation in the tied sub-case. *)
Fixpoint del_climb (c : ctx) (u : tree) : tree :=
  match c with
  | Top => u
  | InL c' p r =>
      let t := Node u p r in
      if balanced t then del_climb c' t
      else if tied t then plug c' (rebalance t)
      else del_climb c' (rebalance t)
  | InR c' l p =>
      let t := Node l p u in
      if balanced t then del_climb c' t
      else if tied t then plug c' (rebalance t)
      else del_climb c' (rebalance t)
  end.

(** No height field differs between [s] and [s']. *)
Definition heights_kept (s s' : avl_state) : Prop :=
  ∀ x, height <$> heap s' !! x = height <$> heap s !! x.

(** The subtree that takes the place of a node with at most one child. *)
Definition only_child (l r : tree) : tree :=
  match l with
  | Leaf => r
  | Node _ _ _ => l
  end.

(** The last node of a tree replaced by the node [a]. *)
Fixpoint set_max (a : nat) (t : tree) : tree :=
  match t with
  | Leaf => Leaf
  | Node l x Leaf => Node l a Leaf
  | Node l x r => Node l x (set_max a r)
  end.

(** The left subtree of the last node of a tree. *)
Fixpoint max_left (t : tree) : tree :=
  match t with
  | Leaf => Leaf
  | Node l x Leaf => l
  | Node l x r => max_left r
  end.

(** A tree without its last node, whose left subtree moves up. *)
Fixpoint remove_max (t : tree) : tree :=
  match t with
  | Leaf => Leaf
  | Node l x Leaf => l
  | Node l x r => Node l x (remove_max r)
  end.

(** The path from the root of [t] to its last node, below the path [c]. *)
Fixpoint rpath (c : ctx) (t : tree) : ctx :=
  match t with
  | Leaf => c
  | Node l x Leaf => c
  | Node l x r => rpath (InR c l x) r
  end.

(** The keys of a list of nodes go strictly up. *)
Fixpoint ascending (key : nat → Z) (nodes : list nat) : Prop :=
  match nodes with
  | [] => True
  | x :: rest => (∀ y, y ∈ rest → key x < key y) ∧ ascending key rest
  end.

(** A list without the node [x]. *)
Fixpoint without (x : nat) (l : list nat) : list nat :=
  match l with
  | [] => []
  | y :: l' => if decide (y = x) then without x l' else y :: without x l'
  end.

(** The in-order sequence that a list of operations leaves, when every
    added node goes in front. *)
Fixpoint play (els : list nat) (os : list op) : list nat :=
  match os with
  | [] => els
  | Add x :: rest => play (x :: els) rest
  | Del x :: rest => play (without x els) rest
  end.

(** A list of operations in which every added node is one of the cleared
    nodes [fresh], is added once, and compares below every node then in
    the tree, and every deleted node is in the tree. *)
Fixpoint admissible (key : nat → Z) (fresh els : list nat) (os : list op)
  : Prop :=
  match os with
  | [] => True
  | Add x :: rest =>
      x ∈ fresh ∧ (∀ y, y ∈ els → key x < key y) ∧
      admissible key (without x fresh) (x :: els) rest
  | Del x :: rest =>
      x ∈ els ∧ admissible key fresh (without x els) rest
  end.

(** ** Vocabulary of linking *)



(** ** Reasoning about computations *)

Lemma wp_Done {A} (m : M A) s Q :
  wp m s Q ↔ ∃ a s', m s = Done (a, s') ∧ Q a s'.
Proof.
  unfold wp. split.
  - destruct (m s) as [[a s']| |]; try done. eauto.
  - intros (a & s' & -> & HQ). done.
Qed.

Lemma wp_mono {A} (m : M A) s (Q Q' : A → avl_state → Prop) :
  wp m s Q → (∀ a s', Q a s' → Q' a s') → wp m s Q'.
Proof.
  unfold wp. destruct (m s) as [[a s']| |]; try done. intros HQ HI. by apply HI.
Qed.

Lemma wp_bind {A B} (m : M A) (k : A → M B) s Q :
  wp m s (λ a s1, wp (k a) s1 Q) → wp (bind m k) s Q.
Proof. unfold wp, bind. by destruct (m s) as [[a s1]| |]. Qed.

Lemma wp_ret {A} (a : A) s (Q : A → avl_state → Prop) :
  Q a s → wp (ret a) s Q.
Proof. done. Qed.

Lemma wp_load a s n (Q : avl_node → avl_state → Prop) :
  heap s !! a = Some n → Q n s → wp (load a) s Q.
Proof. unfold wp, load. by intros ->. Qed.

Lemma wp_store a n s (Q : unit → avl_state → Prop) :
  Q tt (mk_state (<[a := n]> (heap s)) (root s)) → wp (store a n) s Q.
Proof. done. Qed.

Lemma wp_get_root s (Q : ptr → avl_state → Prop) :
  Q (root s) s → wp get_root s Q.
Proof. done. Qed.

Lemma wp_set_root v s (Q : unit → avl_state → Prop) :
  Q tt (mk_state (heap s) v) → wp (set_root v) s Q.
Proof. done. Qed.

Lemma wp_assert b s (Q : unit → avl_state → Prop) :
  b = true → Q tt s → wp (assert b) s Q.
Proof. by intros ->. Qed.

Lemma wp_assert_ptr a s (Q : nat → avl_state → Prop) :
  Q a s → wp (assert_ptr (Some a)) s Q.
Proof. done. Qed.

Lemma wp_set_parent a v n s (Q : unit → avl_state → Prop) :
  heap s !! a = Some n →
  Q tt (mk_state (<[a := mk_node v (left n) (right n) (height n)]> (heap s))
                 (root s)) →
  wp (set_parent a v) s Q.
Proof. intros Hn HQ. apply wp_bind. by eapply wp_load. Qed.

Lemma wp_set_left a v n s (Q : unit → avl_state → Prop) :
  heap s !! a = Some n →
  Q tt (mk_state (<[a := mk_node (parent n) v (right n) (height n)]> (heap s))
                 (root s)) →
  wp (set_left a v) s Q.
Proof. intros Hn HQ. apply wp_bind. by eapply wp_load. Qed.

Lemma wp_set_right a v n s (Q : unit → avl_state → Prop) :
  heap s !! a = Some n →
  Q tt (mk_state (<[a := mk_node (parent n) (left n) v (height n)]> (heap s))
                 (root s)) →
  wp (set_right a v) s Q.
Proof. intros Hn HQ. apply wp_bind. by eapply wp_load. Qed.

Lemma wp_int_val z s (Q : Z → avl_state → Prop) :
  INT_MIN <= z <= INT_MAX → Q z s → wp (int_val z) s Q.
Proof.
  intros [H1 H2] HQ. unfold wp, int_val.
  rewrite (proj2 (Z.leb_le _ _) H1), (proj2 (Z.leb_le _ _) H2). done.
Qed.

(** Lookups in a memory built from known stores. *)
Ltac heap_lookup :=
  cbn [heap root];
  repeat first
    [ rewrite lookup_insert_eq
    | rewrite lookup_insert_ne by congruence ];
  first [ reflexivity | eassumption ].

(** One step of forward execution. *)
Ltac wp_step :=
  cbn [heap root parent left right height];
  lazymatch goal with
  | |- wp (bind _ _) _ _ => apply wp_bind
  | |- wp (ret _) _ _ => apply wp_ret
  | |- wp (load _) _ _ => eapply wp_load; [heap_lookup|]
  | |- wp (store _ _) _ _ => apply wp_store
  | |- wp get_root _ _ => apply wp_get_root
  | |- wp (set_root _) _ _ => apply wp_set_root
  | |- wp (set_parent _ _) _ _ => eapply wp_set_parent; [heap_lookup|]
  | |- wp (set_left _ _) _ _ => eapply wp_set_left; [heap_lookup|]
  | |- wp (set_right _ _) _ _ => eapply wp_set_right; [heap_lookup|]
  | |- wp (assert_ptr (Some _)) _ _ => apply wp_assert_ptr
  | |- wp (assert _) _ _ =>
      apply wp_assert;
      [try first [ reflexivity
                 | apply bool_decide_eq_true_2; cbn; congruence ]|]
  | |- wp (deref (Some _)) _ _ => eapply wp_load; [heap_lookup|]
  | |- wp (int_val _) _ _ =>
      apply wp_int_val; [try (unfold INT_MIN, INT_MAX; lia)|]
  | |- wp (load_slot ?sl) _ _ => unfold load_slot
  | |- wp (store_slot ?sl _) _ _ => unfold store_slot
  end.

Ltac wp_run := repeat wp_step.

Ltac wp_decide :=
  first [ rewrite bool_decide_eq_true_2 by congruence
        | rewrite bool_decide_eq_false_2 by congruence ].

Ltac wp_go :=
  repeat first
    [ wp_step
    | progress cbn [heap root parent left right height]
    | wp_decide ].

Ltac heap_simpl :=
  cbn [heap root parent left right height];
  repeat first
    [ rewrite lookup_insert_eq
    | rewrite lookup_insert_ne by congruence ].

Ltac slot_eval :=
  unfold load_slot, get_root, bind, load, ret; heap_simpl;
  cbn [parent left right height]; try reflexivity.

Ltac frame_post :=
  let a := fresh "a" in
  let Ha := fresh "Ha" in
  intros a Ha; rewrite ?not_elem_of_cons, ?not_elem_of_app in Ha;
  simpl in Ha; rewrite ?not_elem_of_cons in Ha;
  destruct_and?; heap_simpl; reflexivity.

Ltac field_post :=
  unfold reparented, slot_set, with_parent, with_left, with_right;
  heap_simpl;
  repeat match goal with
         | H : heap _ !! _ = Some _ |- _ => rewrite H
         end;
  cbn [fmap option_fmap option_map parent left right height];
  first [ exact I | reflexivity | congruence | (split; [reflexivity|]) ];
  try reflexivity.

Ltac parent_post :=
  unfold parent_is;
  first [ exact I
        | eexists; split; [heap_simpl; reflexivity|reflexivity] ].

Ltac rot_post :=
  repeat match goal with |- _ ∧ _ => split end;
  first [ solve [field_post]
        | solve [frame_post] ].

Ltac post_solve :=
  repeat match goal with |- _ ∧ _ => split end;
  first [ solve [field_post]
        | solve [slot_eval]
        | solve [parent_post]
        | solve [frame_post] ].

(** Turn the distinctness hypotheses into plain disequalities. *)
Ltac distinct_hyps :=
  repeat match goal with
  | H : owner_free SlotRoot _ |- _ => clear H
  | H : owner_free (SlotLeft _) _ |- _ => cbn [owner_free] in H
  | H : owner_free (SlotRight _) _ |- _ => cbn [owner_free] in H
  | H : inner_ok _ _ _ (Some _) |- _ => cbn [inner_ok] in H
  | H : inner_ok _ _ _ None |- _ => clear H
  | H : _ ∉ _ :: _ |- _ => rewrite not_elem_of_cons in H; destruct H
  | H : _ ∉ [] |- _ => clear H
  | H : NoDup (_ :: _) |- _ => rewrite NoDup_cons in H; destruct H
  | H : NoDup [] |- _ => clear H
  | H : _ ∧ _ |- _ => destruct H
  | H : is_Some _ |- _ => destruct H
  | H : True |- _ => clear H
  | H : ∃ pn : avl_node, _ |- _ => destruct H
  end.

(** ** Inversion of finished computations *)

Lemma bind_Done {A B} (m : M A) (k : A → M B) s b s' :
  bind m k s = Done (b, s') ↔
  ∃ a s1, m s = Done (a, s1) ∧ k a s1 = Done (b, s').
Proof.
  unfold bind. split.
  - destruct (m s) as [[a s1]| |]; try discriminate. eauto.
  - intros (a & s1 & -> & Hk). done.
Qed.

Lemma bind_step {A B} (m : M A) (k : A → M B) s a s1 :
  m s = Done (a, s1) → bind m k s = k a s1.
Proof. unfold bind. by intros ->. Qed.

Lemma load_Done a s n s' :
  load a s = Done (n, s') ↔ heap s !! a = Some n ∧ s' = s.
Proof.
  unfold load. destruct (heap s !! a); split; intros H; try discriminate.
  - by inversion H.
  - destruct H as [[= ->] ->]. done.
  - by destruct H.
Qed.

Lemma load_step a s n : heap s !! a = Some n → load a s = Done (n, s).
Proof. intros. by apply load_Done. Qed.

Lemma ret_Done {A} (a b : A) s s' : ret a s = Done (b, s') ↔ a = b ∧ s' = s.
Proof. unfold ret. split; [by intros [= -> ->]|by intros [-> ->]]. Qed.

Lemma assert_ptr_Done p a s s' :
  assert_ptr p s = Done (a, s') ↔ p = Some a ∧ s' = s.
Proof.
  destruct p as [x|]; simpl.
  - rewrite ret_Done. split; intros [? ?]; split; congruence.
  - split; [done|by intros [? _]].
Qed.

Lemma assert_Done b u s s' : assert b s = Done (u, s') ↔ b = true ∧ s' = s.
Proof.
  destruct u, b; simpl; unfold ret, fault.
  - split; [by intros [= ->]|by intros [_ ->]].
  - split; [done|by intros [? _]].
Qed.

Lemma int_val_Done z v s s' :
  int_val z s = Done (v, s') ↔
  (INT_MIN <= z <= INT_MAX) ∧ v = z ∧ s' = s.
Proof.
  unfold int_val.
  destruct (INT_MIN <=? z) eqn:E1; destruct (z <=? INT_MAX) eqn:E2; simpl;
    unfold ret, fault; (split; [intros H|intros (H & H1 & H2)]);
    try discriminate; try lia; try (injection H as <- <-; split; [lia|done]).
  all: by subst.
Qed.

Lemma value_Done {A} (r : result (A * avl_state)) a s :
  r = Done (a, s) → value r = Some a.
Proof. by intros ->. Qed.

(** Decompose a hypothesis saying that a straight-line computation
    finished. *)
Ltac minv H :=
  lazymatch type of H with
  | bind _ _ _ = Done _ =>
      let a := fresh "v" in
      let s1 := fresh "s" in
      let H1 := fresh "H" in
      apply bind_Done in H; destruct H as (a & s1 & H1 & H);
      minv H1; minv H
  | load _ _ = Done _ =>
      apply load_Done in H; destruct H as [H ->]
  | ret _ _ = Done _ =>
      apply ret_Done in H; destruct H as [<- ->]
  | assert_ptr _ _ = Done _ =>
      apply assert_ptr_Done in H; destruct H as [H ->]
  | assert _ _ = Done _ =>
      apply assert_Done in H; destruct H as [H ->]
  | int_val _ _ = Done _ =>
      apply int_val_Done in H; destruct H as (H & -> & ->)
  | get_root _ = Done _ =>
      unfold get_root in H; injection H as <- <-
  | set_root _ _ = Done _ =>
      unfold set_root in H; injection H as <- <-
  | store _ _ _ = Done _ =>
      unfold store in H; injection H as <- <-
  | set_parent _ _ _ = Done _ => unfold set_parent in H; minv H
  | set_left _ _ _ = Done _ => unfold set_left in H; minv H
  | set_right _ _ _ = Done _ => unfold set_right in H; minv H
  | set_height _ _ _ = Done _ => unfold set_height in H; minv H
  | _ => idtac
  end.

Lemma load_slot_Done sl s v s' :
  load_slot sl s = Done (v, s') →
  s' = s ∧
  match sl with
  | SlotRoot => root s = v
  | SlotLeft p => ∃ pn, heap s !! p = Some pn ∧ left pn = v
  | SlotRight p => ∃ pn, heap s !! p = Some pn ∧ right pn = v
  end.
Proof.
  destruct sl; simpl; intros H; minv H; eauto.
Qed.

Lemma slot_set_load sl v w s s' :
  load_slot sl s = Done (w, s) → slot_set sl v s s' →
  load_slot sl s' = Done (v, s').
Proof.
  intros Hl%load_slot_Done Hs. destruct Hl as [_ Hl].
  destruct sl as [|p|p]; cbn [slot_set load_slot] in *.
  - unfold get_root. by rewrite Hs.
  - destruct Hl as (pn & Hpn & _), Hs as [_ Hs]. rewrite Hpn in Hs.
    unfold bind, load. by rewrite Hs.
  - destruct Hl as (pn & Hpn & _), Hs as [_ Hs]. rewrite Hpn in Hs.
    unfold bind, load. by rewrite Hs.
Qed.

(** ** Checking concrete memories *)

(** Discharging a rotation precondition on a concrete memory. *)
Ltac concrete_pre :=
  unfold rot_pre, rot2_pre, inner_ok, owner_free;
  cbn [parent left right height];
  repeat match goal with
         | |- _ ∧ _ => split
         | |- NoDup _ => apply NoDup_cons; split
         | |- NoDup [] => apply NoDup_nil_2
         | |- _ ∉ _ => rewrite ?not_elem_of_cons, ?elem_of_nil; intuition lia
         | |- is_Some _ => eexists; vm_compute; reflexivity
         | |- _ ≠ _ => lia
         | |- _ → _ => discriminate
         | |- load_slot _ _ = _ => vm_compute; reflexivity
         | |- _ = _ => reflexivity
         end.

(** Checking that a concrete memory holds a concrete tree. *)
Ltac concrete_shape :=
  repeat match goal with
         | |- shape _ _ _ => progress cbn [shape left right]
         | |- _ ∧ _ => split
         | |- ∃ n : avl_node, _ => eexists
         | |- _ !! _ = Some _ => vm_compute; reflexivity
         | |- _ = _ => reflexivity
         end.

Ltac concrete_bst :=
  cbn [bst elements app];
  repeat match goal with
         | |- _ ∧ _ => split
         | |- True => exact I
         | |- ∀ x, x ∈ _ → _ =>
             let x := fresh "x" in
             let Hx := fresh "Hx" in
             intros x Hx;
             repeat (apply elem_of_cons in Hx as [->|Hx]);
             [vm_compute; reflexivity..|by apply elem_of_nil in Hx]
         end.

(** Discharging the hypotheses of the exchange on a concrete memory. *)
Ltac concrete_side :=
  first
    [ solve [vm_compute; reflexivity]
    | solve [exact I]
    | solve [hnf; exact I]
    | solve [left; reflexivity]
    | solve [right; reflexivity]
    | solve [discriminate]
    | solve [eexists; vm_compute; reflexivity]
    | solve [cbn [holds_node]; split; [reflexivity|];
             first [ reflexivity
                   | eexists; split; [vm_compute; reflexivity|];
                     first [ reflexivity
                           | split; [reflexivity|discriminate] ] ] ]
    | solve [rewrite !not_elem_of_cons, elem_of_nil; intuition lia]
    | solve [concrete_pre] ].

(** ** The four rotations *)

Lemma rotate_ll_spec s sl node n l ln :
  heap s !! node = Some n → left n = Some l → heap s !! l = Some ln →
  rot_pre s sl node l (right ln) →
  wp (avl_rotate_ll sl node) s (λ _ s',
    slot_set sl (Some l) s s' ∧
    heap s' !! node = Some (mk_node (Some l) (right ln) (right n) (height n)) ∧
    heap s' !! l = Some (mk_node (parent n) (left ln) (Some node) (height ln)) ∧
    reparented s s' (right ln) (Some node) ∧
    frame (node :: l :: option_list (right ln) ++ slot_owner sl) s s').
Proof.
  intros Hn Hl Hln (Hsl & Hne & Hown & Hin).
  apply load_slot_Done in Hsl as [_ Hsl].
  unfold avl_rotate_ll. wp_run. rewrite Hl. wp_step.
  destruct (right ln) as [b|] eqn:Hb; destruct sl as [|p|p];
    cbn [owner_free] in *; distinct_hyps;
    wp_run; rewrite ?Hb; wp_run; rot_post.
Qed.

Lemma rotate_rr_spec s sl node n r rn :
  heap s !! node = Some n → right n = Some r → heap s !! r = Some rn →
  rot_pre s sl node r (left rn) →
  wp (avl_rotate_rr sl node) s (λ _ s',
    slot_set sl (Some r) s s' ∧
    heap s' !! node = Some (mk_node (Some r) (left n) (left rn) (height n)) ∧
    heap s' !! r = Some (mk_node (parent n) (Some node) (right rn) (height rn)) ∧
    reparented s s' (left rn) (Some node) ∧
    frame (node :: r :: option_list (left rn) ++ slot_owner sl) s s').
Proof.
  intros Hn Hr Hrn (Hsl & Hne & Hown & Hin).
  apply load_slot_Done in Hsl as [_ Hsl].
  unfold avl_rotate_rr. wp_run. rewrite Hr. wp_step.
  destruct (left rn) as [b|] eqn:Hb; destruct sl as [|p|p];
    cbn [owner_free] in *; distinct_hyps;
    wp_run; rewrite ?Hb; wp_run; rot_post.
Qed.

Lemma rotate_lr_spec s sl node n l ln b bn :
  heap s !! node = Some n → left n = Some l → heap s !! l = Some ln →
  right ln = Some b → heap s !! b = Some bn →
  rot2_pre s sl node l b (left bn) (right bn) →
  wp (avl_rotate_lr sl node) s (λ _ s',
    slot_set sl (Some b) s s' ∧
    heap s' !! b = Some (mk_node (parent n) (Some l) (Some node) (height bn)) ∧
    heap s' !! l = Some (mk_node (Some b) (left ln) (left bn) (height ln)) ∧
    heap s' !! node = Some (mk_node (Some b) (right bn) (right n) (height n)) ∧
    reparented s s' (left bn) (Some l) ∧
    reparented s s' (right bn) (Some node) ∧
    frame (node :: l :: b :: option_list (left bn) ++ option_list (right bn)
             ++ slot_owner sl) s s').
Proof.
  intros Hn Hl Hln Hb Hbn (Hsl & Hnd & Hown & Hc & Hd & Hcd).
  apply load_slot_Done in Hsl as [_ Hsl].
  unfold avl_rotate_lr, avl_rotate_rr, avl_rotate_ll.
  destruct n as [np nl nr nh], ln as [lp ll lr lh], bn as [bp c d bh].
  cbn [parent left right height] in *. subst nl lr.
  destruct c as [c|]; destruct d as [d|];
    destruct sl as [|p|p]; cbn [owner_free] in *; distinct_hyps;
    try assert (c ≠ d) by (intros ->; by specialize (Hcd eq_refl));
    try match goal with
        | H : heap s !! p = Some ?x |- _ =>
            destruct x; cbn [parent left right height] in *; subst
        end;
    wp_run; rot_post.
Qed.

Lemma rotate_rl_spec s sl node n r rn b bn :
  heap s !! node = Some n → right n = Some r → heap s !! r = Some rn →
  left rn = Some b → heap s !! b = Some bn →
  rot2_pre s sl node r b (right bn) (left bn) →
  wp (avl_rotate_rl sl node) s (λ _ s',
    slot_set sl (Some b) s s' ∧
    heap s' !! b = Some (mk_node (parent n) (Some node) (Some r) (height bn)) ∧
    heap s' !! r = Some (mk_node (Some b) (right bn) (right rn) (height rn)) ∧
    heap s' !! node = Some (mk_node (Some b) (left n) (left bn) (height n)) ∧
    reparented s s' (right bn) (Some r) ∧
    reparented s s' (left bn) (Some node) ∧
    frame (node :: r :: b :: option_list (right bn) ++ option_list (left bn)
             ++ slot_owner sl) s s').
Proof.
  intros Hn Hr Hrn Hb Hbn (Hsl & Hnd & Hown & Hc & Hd & Hcd).
  apply load_slot_Done in Hsl as [_ Hsl].
  unfold avl_rotate_rl, avl_rotate_rr, avl_rotate_ll.
  destruct n as [np nl nr nh], rn as [rp rl rr rh], bn as [bp d c bh].
  cbn [parent left right height] in *. subst nr rl.
  destruct c as [c|]; destruct d as [d|];
    destruct sl as [|p|p]; cbn [owner_free] in *; distinct_hyps;
    try assert (c ≠ d) by (intros ->; by specialize (Hcd eq_refl));
    try match goal with
        | H : heap s !! p = Some ?x |- _ =>
            destruct x; cbn [parent left right height] in *; subst
        end;
    wp_run; rot_post.
Qed.

Lemma rotate_lr_unfold s sl node n l ln b :
  heap s !! node = Some n → left n = Some l → heap s !! l = Some ln →
  right ln = Some b → load_slot sl s = Done (Some node, s) →
  avl_rotate_lr sl node s
  = (avl_rotate_rr (SlotLeft node) l ;;; avl_rotate_ll sl node) s.
Proof.
  intros Hn Hl Hln Hb Hsl. unfold avl_rotate_lr.
  rewrite (bind_step _ _ _ _ _ (load_step _ _ _ Hn)), Hl. cbn [assert_ptr].
  rewrite (bind_step (ret l) _ _ _ _ eq_refl).
  rewrite (bind_step _ _ _ _ _ (load_step _ _ _ Hln)), Hb. cbn [assert_ptr].
  rewrite (bind_step (ret b) _ _ _ _ eq_refl).
  rewrite (bind_step _ _ _ _ _ Hsl).
  rewrite bool_decide_eq_true_2 by done. cbn [assert].
  rewrite (bind_step (ret ()) _ _ _ _ eq_refl).
  rewrite (bind_step _ _ _ _ _ (load_step _ _ _ Hn)), Hl. cbn [assert_ptr].
  by rewrite (bind_step (ret l) _ _ _ _ eq_refl).
Qed.

Lemma rotate_rl_unfold s sl node n r rn b :
  heap s !! node = Some n → right n = Some r → heap s !! r = Some rn →
  left rn = Some b → load_slot sl s = Done (Some node, s) →
  avl_rotate_rl sl node s
  = (avl_rotate_ll (SlotRight node) r ;;; avl_rotate_rr sl node) s.
Proof.
  intros Hn Hr Hrn Hb Hsl. unfold avl_rotate_rl.
  rewrite (bind_step _ _ _ _ _ (load_step _ _ _ Hn)), Hr. cbn [assert_ptr].
  rewrite (bind_step (ret r) _ _ _ _ eq_refl).
  rewrite (bind_step _ _ _ _ _ (load_step _ _ _ Hrn)), Hb. cbn [assert_ptr].
  rewrite (bind_step (ret b) _ _ _ _ eq_refl).
  rewrite (bind_step _ _ _ _ _ Hsl).
  rewrite bool_decide_eq_true_2 by done. cbn [assert].
  rewrite (bind_step (ret ()) _ _ _ _ eq_refl).
  rewrite (bind_step _ _ _ _ _ (load_step _ _ _ Hn)), Hr. cbn [assert_ptr].
  by rewrite (bind_step (ret r) _ _ _ _ eq_refl).
Qed.

(** C7.  Under its precondition (the slot holds [node], the child and
    grandchild that the rotation needs exist, and the nodes involved are
    pairwise different, as they are in a tree), LL puts [node->left] into
    the slot, hands the promoted node's former right child to [node] as its
    left child and makes [node] the promoted node's right child; RR is the
    mirror image; LR is RR at [node->left] followed by LL at [node], and RL
    the mirror image; every child that moves has its parent field updated,
    and the slot ends up holding the new local root. *)
Theorem avl_rotations_correct :
  (∀ s sl node n l ln,
     heap s !! node = Some n → left n = Some l → heap s !! l = Some ln →
     rot_pre s sl node l (right ln) →
     ∃ s', avl_rotate_ll sl node s = Done (tt, s') ∧
       load_slot sl s' = Done (Some l, s') ∧
       heap s' !! l
       = Some (mk_node (parent n) (left ln) (Some node) (height ln)) ∧
       heap s' !! node
       = Some (mk_node (Some l) (right ln) (right n) (height n)) ∧
       reparented s s' (right ln) (Some node)) ∧
  (∀ s sl node n r rn,
     heap s !! node = Some n → right n = Some r → heap s !! r = Some rn →
     rot_pre s sl node r (left rn) →
     ∃ s', avl_rotate_rr sl node s = Done (tt, s') ∧
       load_slot sl s' = Done (Some r, s') ∧
       heap s' !! r
       = Some (mk_node (parent n) (Some node) (right rn) (height rn)) ∧
       heap s' !! node
       = Some (mk_node (Some r) (left n) (left rn) (height n)) ∧
       reparented s s' (left rn) (Some node)) ∧
  (∀ s sl node n l ln b bn,
     heap s !! node = Some n → left n = Some l → heap s !! l = Some ln →
     right ln = Some b → heap s !! b = Some bn →
     rot2_pre s sl node l b (left bn) (right bn) →
     ∃ s', avl_rotate_lr sl node s = Done (tt, s') ∧
       (avl_rotate_rr (SlotLeft node) l ;;; avl_rotate_ll sl node) s
       = Done (tt, s') ∧
       load_slot sl s' = Done (Some b, s') ∧
       heap s' !! b
       = Some (mk_node (parent n) (Some l) (Some node) (height bn)) ∧
       heap s' !! l
       = Some (mk_node (Some b) (left ln) (left bn) (height ln)) ∧
       heap s' !! node
       = Some (mk_node (Some b) (right bn) (right n) (height n)) ∧
       reparented s s' (left bn) (Some l) ∧
       reparented s s' (right bn) (Some node)) ∧
  (∀ s sl node n r rn b bn,
     heap s !! node = Some n → right n = Some r → heap s !! r = Some rn →
     left rn = Some b → heap s !! b = Some bn →
     rot2_pre s sl node r b (right bn) (left bn) →
     ∃ s', avl_rotate_rl sl node s = Done (tt, s') ∧
       (avl_rotate_ll (SlotRight node) r ;;; avl_rotate_rr sl node) s
       = Done (tt, s') ∧
       load_slot sl s' = Done (Some b, s') ∧
       heap s' !! b
       = Some (mk_node (parent n) (Some node) (Some r) (height bn)) ∧
       heap s' !! r
       = Some (mk_node (Some b) (right bn) (right rn) (height rn)) ∧
       heap s' !! node
       = Some (mk_node (Some b) (left n) (left bn) (height n)) ∧
       reparented s s' (right bn) (Some r) ∧
       reparented s s' (left bn) (Some node)).
Proof.
  repeat match goal with |- _ ∧ _ => split end.
  - intros s sl node n l ln Hn Hl Hln Hpre.
    pose proof (rotate_ll_spec _ _ _ _ _ _ Hn Hl Hln Hpre) as H.
    destruct Hpre as (Hsl & _).
    apply wp_Done in H as ([] & s' & Hrun & Hs & Hnode & Hl' & Hre & _).
    exists s'. eauto 10 using slot_set_load.
  - intros s sl node n r rn Hn Hr Hrn Hpre.
    pose proof (rotate_rr_spec _ _ _ _ _ _ Hn Hr Hrn Hpre) as H.
    destruct Hpre as (Hsl & _).
    apply wp_Done in H as ([] & s' & Hrun & Hs & Hnode & Hl' & Hre & _).
    exists s'. eauto 10 using slot_set_load.
  - intros s sl node n l ln b bn Hn Hl Hln Hb Hbn Hpre.
    pose proof (rotate_lr_spec _ _ _ _ _ _ _ _ Hn Hl Hln Hb Hbn Hpre) as H.
    destruct Hpre as (Hsl & _).
    apply wp_Done in H
      as ([] & s' & Hrun & Hs & Hb' & Hl' & Hnode & Hc & Hd & _).
    exists s'. split; [done|]. split.
    { by rewrite <- (rotate_lr_unfold _ _ _ _ _ _ _ Hn Hl Hln Hb Hsl). }
    eauto 10 using slot_set_load.
  - intros s sl node n r rn b bn Hn Hr Hrn Hb Hbn Hpre.
    pose proof (rotate_rl_spec _ _ _ _ _ _ _ _ Hn Hr Hrn Hb Hbn Hpre) as H.
    destruct Hpre as (Hsl & _).
    apply wp_Done in H
      as ([] & s' & Hrun & Hs & Hb' & Hr' & Hnode & Hc & Hd & _).
    exists s'. split; [done|]. split.
    { by rewrite <- (rotate_rl_unfold _ _ _ _ _ _ _ Hn Hr Hrn Hb Hsl). }
    eauto 10 using slot_set_load.
Qed.

(** The four rotations at node 6 of [lr_state] and [rl_state]. *)
Lemma avl_rotations_correct_witness :
  (∃ s', avl_rotate_ll (SlotLeft 8) 6 lr_state = Done (tt, s') ∧
         load_slot (SlotLeft 8) s' = Done (Some 2%nat, s')) ∧
  (∃ s', avl_rotate_rr (SlotRight 8) 6 rl_state = Done (tt, s') ∧
         load_slot (SlotRight 8) s' = Done (Some 2%nat, s')) ∧
  (∃ s', avl_rotate_lr (SlotLeft 8) 6 lr_state = Done (tt, s') ∧
         load_slot (SlotLeft 8) s' = Done (Some 4%nat, s')) ∧
  (∃ s', avl_rotate_rl (SlotRight 8) 6 rl_state = Done (tt, s') ∧
         load_slot (SlotRight 8) s' = Done (Some 4%nat, s')).
Proof.
  destruct avl_rotations_correct as (Hll & Hrr & Hlr & Hrl).
  repeat match goal with |- _ ∧ _ => split end.
  - destruct (Hll lr_state (SlotLeft 8) 6%nat
                (mk_node (Some 8%nat) (Some 2%nat) (Some 7%nat) 4) 2%nat
                (mk_node (Some 6%nat) (Some 1%nat) (Some 4%nat) 3))
      as (s' & Hrun & Hslot & _); [concrete_pre..|eauto].
  - destruct (Hrr rl_state (SlotRight 8) 6%nat
                (mk_node (Some 8%nat) (Some 7%nat) (Some 2%nat) 4) 2%nat
                (mk_node (Some 6%nat) (Some 4%nat) (Some 1%nat) 3))
      as (s' & Hrun & Hslot & _); [concrete_pre..|eauto].
  - destruct (Hlr lr_state (SlotLeft 8) 6%nat
                (mk_node (Some 8%nat) (Some 2%nat) (Some 7%nat) 4) 2%nat
                (mk_node (Some 6%nat) (Some 1%nat) (Some 4%nat) 3) 4%nat
                (mk_node (Some 2%nat) (Some 3%nat) (Some 5%nat) 2))
      as (s' & Hrun & _ & Hslot & _); [concrete_pre..|eauto].
  - destruct (Hrl rl_state (SlotRight 8) 6%nat
                (mk_node (Some 8%nat) (Some 7%nat) (Some 2%nat) 4) 2%nat
                (mk_node (Some 6%nat) (Some 4%nat) (Some 1%nat) 3) 4%nat
                (mk_node (Some 2%nat) (Some 5%nat) (Some 3%nat) 2))
      as (s' & Hrun & _ & Hslot & _); [concrete_pre..|eauto].
Defined.

(** ** The signal of the rebalance driver and the deletion walk *)

Lemma avl_get_balance_pure a s b s' :
  avl_get_balance a s = Done (b, s') → s' = s.
Proof.
  unfold avl_get_balance. intros H. minv H.
  destruct (left v); destruct (right v1); minv H1; minv H3; done.
Qed.

Lemma slot_of_pure node (n : avl_node) s sl s' :
  match parent n with
  | Some p =>
      pn <- load p;;
      ret (if bool_decide (right pn = Some node) then SlotRight p
           else SlotLeft p)
  | None =>
      r <- get_root;; assert (bool_decide (r = Some node));;; ret SlotRoot
  end s = Done (sl, s') → s' = s.
Proof. destruct (parent n); intros H; minv H; done. Qed.

Ltac pure_balance :=
  repeat match goal with
  | H : avl_get_balance _ ?s = Done (_, ?s') |- _ =>
      lazymatch s' with
      | s => fail
      | _ => pose proof (avl_get_balance_pure _ _ _ _ H); subst s'
      end
  | H1 : avl_get_balance ?a ?s = Done (?b1, _),
    H2 : avl_get_balance ?a ?s = Done (?b2, _) |- _ =>
      lazymatch b2 with
      | b1 => fail
      | _ => rewrite H1 in H2; injection H2 as <-
      end
  end.

Ltac mclean := pure_balance; simplify_eq; pure_balance.

Ltac split_if H E :=
  match type of H with
  | (if ?b then _ else _) _ = _ => destruct b eqn:E
  end.

Ltac flag_finish :=
  first
    [ rewrite bool_decide_eq_false_2; [done|]; intros [= ->]; done
    | rewrite bool_decide_eq_true_2; [done|]; f_equal;
      repeat match goal with
             | H : (_ <? _) = false |- _ => apply Z.ltb_ge in H
             end; lia ].

Lemma do_balancing_flag fuel node s c s' :
  avl_do_balancing fuel node s = Done (c, s') → c = negb (tied_case node s).
Proof.
  unfold avl_do_balancing. intros H. minv H.
  apply slot_of_pure in H1 as ->. pure_balance.
  unfold tied_case, heavy_child, balance_of. rewrite H2. cbn. rewrite H0. cbn.
  rewrite !Z.gtb_ltb in H3.
  destruct (0 <? v1) eqn:Hpos.
  - minv H3. mclean.
    match goal with
    | Hc : left v = Some ?c, Hb : avl_get_balance ?c s = _ |- _ =>
        rewrite Hc, Hb
    end.
    rewrite Z.gtb_ltb in H3. split_if H3 Hx1; minv H3; [flag_finish|].
    mclean. split_if H3 Hx2; minv H3; flag_finish.
  - minv H3. mclean.
    destruct (v1 <? 0) eqn:Hneg; minv H3; [|done]. mclean.
    match goal with
    | Hc : right v = Some ?c, Hb : avl_get_balance ?c s = _ |- _ =>
        rewrite Hc, Hb
    end.
    split_if H3 Hx1; minv H3; [flag_finish|].
    mclean. rewrite Z.gtb_ltb in H3. split_if H3 Hx2; minv H3; flag_finish.
Qed.

Lemma tied_state_run :
  tied_case 2 tied_state = true ∧
  value (avl_do_balancing 10 2 tied_state) = Some false.
Proof. split; vm_compute; reflexivity. Qed.

(** On [tied_state] the tied case fires and the driver returns [FALSE]. *)
Lemma tied_means_continue_fails : ¬ tied_means_continue.
Proof.
  intros Hc. destruct tied_state_run as [Ht Hv].
  destruct (avl_do_balancing 10 2 tied_state) as [[c s']| |] eqn:E;
    try discriminate.
  specialize (Hc _ _ _ _ _ E Ht). subst c. discriminate.
Qed.

(** C4 (amended).  The rebalance driver returns [FALSE] exactly when the
    tied sub-case fired and [TRUE] in every other case, and [avl_del] reads
    [FALSE] as "stop" and [TRUE] as "continue": its walk ends at NULL or
    after a tied rotation, visits the parent of a balanced node, and after
    any other rotation resumes above the promoted node. *)
Theorem avl_del_walk_signal :
  (∀ fuel node s cont s',
     avl_do_balancing fuel node s = Done (cont, s') →
     cont = negb (tied_case node s)) ∧
  (∀ fh f s, avl_del_walk fh f None s = Done (tt, s)) ∧
  (∀ fh f a s s1,
     avl_is_balanced a s = Done (false, s) →
     avl_do_balancing fh a s = Done (false, s1) →
     avl_del_walk fh (S f) (Some a) s = Done (tt, s1)) ∧
  (∀ fh f a s s1,
     avl_is_balanced a s = Done (false, s) →
     avl_do_balancing fh a s = Done (true, s1) →
     avl_del_walk fh (S f) (Some a) s
     = (n <- load a ;; pn <- deref (parent n) ;;
        avl_del_walk fh f (parent pn)) s1) ∧
  (∀ fh f a s n,
     avl_is_balanced a s = Done (true, s) →
     heap s !! a = Some n →
     avl_del_walk fh (S f) (Some a) s = avl_del_walk fh f (parent n) s).
Proof.
  split; [exact do_balancing_flag|].
  split; [by destruct f|].
  repeat split.
  - intros fh f a s s1 Hb Hd. cbn [avl_del_walk].
    unfold bind at 1. rewrite Hb. cbn. unfold bind at 1. by rewrite Hd.
  - intros fh f a s s1 Hb Hd. cbn [avl_del_walk].
    unfold bind at 1. rewrite Hb. cbn. unfold bind at 1. by rewrite Hd.
  - intros fh f a s n Hb Hn. cbn [avl_del_walk].
    unfold bind at 1. rewrite Hb. cbn. unfold bind at 1, load. by rewrite Hn.
Qed.

(** The signal on [tied_state]: the tied case fires at node 2, the driver
    returns [FALSE] and the walk of [avl_del] stops there. *)
Lemma avl_del_walk_signal_witness :
  value (avl_do_balancing 10 2 tied_state)
  = Some (negb (tied_case 2 tied_state)) ∧
  ∃ s1, avl_do_balancing 10 2 tied_state = Done (false, s1) ∧
        avl_del_walk 10 1 (Some 2%nat) tied_state = Done (tt, s1).
Proof.
  destruct avl_del_walk_signal as (Hflag & _ & Hstop & _).
  destruct (avl_do_balancing 10 2 tied_state) as [[c s']| |] eqn:E;
    [|vm_compute in E; discriminate..].
  pose proof (Hflag _ _ _ _ _ E) as Hc.
  split; [by rewrite Hc|].
  assert (c = false) as -> by (rewrite Hc; vm_compute; reflexivity).
  exists s'. split; [done|].
  apply Hstop; [vm_compute; reflexivity|exact E].
Defined.

(** ** Search *)

Lemma avl_find_pure fuel cmp rt probe s r s' :
  __avl_find fuel cmp rt probe s = Done (r, s') → s' = s.
Proof.
  revert rt s. induction fuel as [|f IH]; intros rt s H.
  - destruct rt; cbn [__avl_find] in H; [discriminate|]. by minv H.
  - destruct rt as [a|]; cbn [__avl_find] in H; [|by minv H].
    destruct (cmp probe a >? 0).
    + minv H. eauto.
    + destruct (cmp probe a <? 0); minv H; eauto.
Qed.

Lemma cmp_key_sign key a b :
  ((cmp_key key a b >? 0) = true ↔ key b < key a) ∧
  ((cmp_key key a b <? 0) = true ↔ key a < key b).
Proof.
  unfold cmp_key.
  destruct (key a <? key b) eqn:E1; [apply Z.ltb_lt in E1|apply Z.ltb_ge in E1];
    [|destruct (key b <? key a) eqn:E2;
      [apply Z.ltb_lt in E2|apply Z.ltb_ge in E2]];
    rewrite Z.gtb_ltb, !Z.ltb_lt; lia.
Qed.

Lemma avl_find_spec key probe t :
  ∀ s rt fuel,
    shape (heap s) rt t → bst key t → (depth t ≤ fuel)%nat →
    ∃ r, __avl_find fuel (cmp_key key) rt probe s = Done (r, s) ∧
         match r with
         | Some m => m ∈ elements t ∧ key m = key probe
         | None => ∀ m, m ∈ elements t → key m ≠ key probe
         end.
Proof.
  induction t as [|l IHl a r IHr]; intros s rt fuel Hsh Hbst Hfuel.
  - cbn in Hsh. subst rt. exists None. split; [by destruct fuel|].
    intros m Hm. by apply elem_of_nil in Hm.
  - cbn [shape] in Hsh. destruct Hsh as (-> & n & Hn & Hl & Hr).
    cbn [bst] in Hbst. destruct Hbst as (Hbl & Hbr & Hlt & Hgt).
    cbn [depth] in Hfuel. destruct fuel as [|f]; [lia|].
    cbn [__avl_find elements].
    destruct (cmp_key key probe a >? 0) eqn:E1.
    + apply (cmp_key_sign key probe a) in E1.
      rewrite (bind_step _ _ _ _ _ (load_step _ _ _ Hn)).
      destruct (IHr s (right n) f Hr Hbr ltac:(lia)) as (res & Hrun & Hres).
      exists res. split; [done|]. destruct res as [m|].
      * destruct Hres. split; [|done]. set_solver.
      * intros m [Hm|[->|Hm]%elem_of_cons]%elem_of_app; [|lia|by apply Hres].
        apply Hlt in Hm. lia.
    + destruct (cmp_key key probe a <? 0) eqn:E2.
      * apply (cmp_key_sign key probe a) in E2.
        rewrite (bind_step _ _ _ _ _ (load_step _ _ _ Hn)).
        destruct (IHl s (left n) f Hl Hbl ltac:(lia)) as (res & Hrun & Hres).
        exists res. split; [done|]. destruct res as [m|].
        -- destruct Hres. split; [|done]. set_solver.
        -- intros m [Hm|[->|Hm]%elem_of_cons]%elem_of_app;
             [by apply Hres|lia|].
           apply Hgt in Hm. lia.
      * exists (Some a). split; [done|]. split; [set_solver|].
        destruct (cmp_key_sign key probe a) as [Hpos Hneg].
        assert (¬ key a < key probe) by (rewrite <- Hpos; congruence).
        assert (¬ key probe < key a) by (rewrite <- Hneg; congruence).
        lia.
Qed.

(** C9.  On a tree that satisfies the BST ordering invariant, given enough
    fuel for its depth, [avl_find] returns a member whose key equals the
    probe's key when there is one and NULL otherwise; one step of the
    descent goes right when the probe compares greater than the current
    node, left when it compares less, and stops when it compares equal;
    and [avl_find] leaves the root field and every node as they were. *)
Theorem avl_find_correct :
  (∀ key t s probe fuel,
     shape (heap s) (root s) t → bst key t → (depth t ≤ fuel)%nat →
     ∃ r, avl_find fuel (cmp_key key) probe s = Done (r, s) ∧
          match r with
          | Some m => m ∈ elements t ∧ key m = key probe
          | None => ∀ m, m ∈ elements t → key m ≠ key probe
          end) ∧
  (∀ fuel cmp a n probe s,
     heap s !! a = Some n →
     __avl_find (S fuel) cmp (Some a) probe s
     = if cmp probe a >? 0 then __avl_find fuel cmp (right n) probe s
       else if cmp probe a <? 0 then __avl_find fuel cmp (left n) probe s
       else Done (Some a, s)) ∧
  (∀ fuel cmp probe s r s',
     avl_find fuel cmp probe s = Done (r, s') → s' = s).
Proof.
  repeat match goal with |- _ ∧ _ => split end.
  - intros key t s probe fuel Hsh Hbst Hfuel. unfold avl_find.
    rewrite (bind_step get_root _ s (root s) s eq_refl).
    by apply avl_find_spec.
  - intros fuel cmp a n probe s Hn. cbn [__avl_find].
    destruct (cmp probe a >? 0);
      [by rewrite (bind_step _ _ _ _ _ (load_step _ _ _ Hn))|].
    destruct (cmp probe a <? 0);
      [by rewrite (bind_step _ _ _ _ _ (load_step _ _ _ Hn))|done].
  - intros fuel cmp probe s r s' H. unfold avl_find in H. minv H.
    by eapply avl_find_pure.
Qed.

(** Searching [balanced7] for a key that is present and for one that is
    not. *)
Lemma avl_find_correct_witness :
  avl_find 3 (cmp_key probe_key) 1 balanced7 = Done (Some 15%nat, balanced7) ∧
  avl_find 3 (cmp_key probe_key) 2 balanced7 = Done (None, balanced7).
Proof.
  destruct avl_find_correct as (Hfind & _ & _).
  assert (Hsh : shape (heap balanced7) (root balanced7) balanced7_tree)
    by (unfold balanced7_tree; concrete_shape).
  assert (Hbst : bst probe_key balanced7_tree)
    by (unfold balanced7_tree; concrete_bst).
  assert (Hd : (depth balanced7_tree ≤ 3)%nat) by (vm_compute; lia).
  split.
  - destruct (Hfind probe_key balanced7_tree balanced7 1%nat 3%nat Hsh Hbst Hd)
      as (r & Hrun & Hr).
    rewrite Hrun. vm_compute in Hrun. by injection Hrun as <-.
  - destruct (Hfind probe_key balanced7_tree balanced7 2%nat 3%nat Hsh Hbst Hd)
      as (r & Hrun & Hr).
    rewrite Hrun. vm_compute in Hrun. by injection Hrun as <-.
Defined.

(** ** Linking a new node *)





(** ** Insertions that descend to the right *)


(** C1.  Adding the keys 1 to 7 in ascending order to an empty tree, each
    node with NULL children on entry, finishes with node 7 as the root and
    node 7 as the only node reachable from the root: the statement
    [return root->right = __avl_add(...)] hands back the right child
    instead of [root], so each insertion to the right replaces the tree by
    the new node. *)
Theorem avl_add_ascending_keeps_last :
  ∃ s', run_ops 10 (cmp_key Z.of_nat) (Add <$> [1; 2; 3; 4; 5; 6; 7]%nat)
          (fresh_state [1; 2; 3; 4; 5; 6; 7]%nat) = Done (tt, s') ∧
        root s' = Some 7%nat ∧
        reachable 10 s' = Some [7%nat] ∧
        heap s' !! 4%nat = Some (mk_node (Some 3%nat) None (Some 5%nat) 1).
Proof.
  destruct (run_ops 10 (cmp_key Z.of_nat) (Add <$> [1; 2; 3; 4; 5; 6; 7]%nat)
              (fresh_state [1; 2; 3; 4; 5; 6; 7]%nat))
    as [[[] s']| |] eqn:E; [|vm_compute in E; discriminate..].
  exists s'. split; [done|].
  apply (f_equal final) in E. vm_compute in E. injection E as <-.
  repeat split; vm_compute; reflexivity.
Qed.

(** C2.  After Add 5, Add 2, Add 1, Add 4 (node 5 is then the root, so it
    is a member), Del 5 and Add 3, all on nodes with NULL children on
    entry, the root is still node 5 and its balance factor is 2. *)
Theorem avl_balance_broken :
  (∃ s1, run_ops 10 (cmp_key Z.of_nat) [Add 5; Add 2; Add 1; Add 4]%nat
           (fresh_state [1; 2; 3; 4; 5]%nat) = Done (tt, s1) ∧
         reachable 10 s1 = Some [4; 5]%nat) ∧
  (∃ s', run_ops 10 (cmp_key Z.of_nat)
           [Add 5; Add 2; Add 1; Add 4; Del 5; Add 3]%nat
           (fresh_state [1; 2; 3; 4; 5]%nat) = Done (tt, s') ∧
         root s' = Some 5%nat ∧
         reachable 10 s' = Some [3; 4; 5]%nat ∧
         avl_get_balance 5 s' = Done (2, s') ∧
         avl_is_balanced 5 s' = Done (false, s')).
Proof.
  split.
  - destruct (run_ops 10 (cmp_key Z.of_nat) [Add 5; Add 2; Add 1; Add 4]%nat
                (fresh_state [1; 2; 3; 4; 5]%nat))
      as [[[] s1]| |] eqn:E; [|vm_compute in E; discriminate..].
    exists s1. split; [done|].
    apply (f_equal final) in E. vm_compute in E. injection E as <-.
    vm_compute. reflexivity.
  - destruct (run_ops 10 (cmp_key Z.of_nat)
                [Add 5; Add 2; Add 1; Add 4; Del 5; Add 3]%nat
                (fresh_state [1; 2; 3; 4; 5]%nat))
      as [[[] s']| |] eqn:E; [|vm_compute in E; discriminate..].
    exists s'. split; [done|].
    apply (f_equal final) in E. vm_compute in E. injection E as <-.
    repeat split; vm_compute; reflexivity.
Qed.

(** C3.  On the tree 2(1, 3), built by Add 3, Add 2, Add 1, adding the
    detached node 4 whose key equals the key of node 3 is not a no-op: the
    root changes from node 2 to node 3 and the nodes 1 and 2 are no longer
    reachable. *)
Theorem avl_add_duplicate_changes_root :
  ∃ s s', run_ops 10 (cmp_key dup_key) [Add 3; Add 2; Add 1]%nat
            (fresh_state [1; 2; 3; 4]%nat) = Done (tt, s) ∧
          root s = Some 2%nat ∧
          reachable 10 s = Some [1; 2; 3]%nat ∧
          cmp_key dup_key 4 3 = 0 ∧
          avl_add 10 (cmp_key dup_key) 4 s = Done (tt, s') ∧
          root s' = Some 3%nat ∧
          reachable 10 s' = Some [3%nat] ∧
          heap s' !! 4%nat = Some blank.
Proof.
  destruct (run_ops 10 (cmp_key dup_key) [Add 3; Add 2; Add 1]%nat
              (fresh_state [1; 2; 3; 4]%nat))
    as [[[] s]| |] eqn:E; [|vm_compute in E; discriminate..].
  apply (f_equal final) in E. vm_compute in E. injection E as <-.
  match goal with
  | |- ∃ s s', Done (tt, ?s0) = Done (tt, s) ∧ _ => set (st := s0)
  end.
  destruct (avl_add 10 (cmp_key dup_key) 4 st) as [[[] s']| |] eqn:E2;
    [|vm_compute in E2; discriminate..].
  exists st, s'. split; [done|].
  apply (f_equal final) in E2. vm_compute in E2. injection E2 as <-.
  repeat split; vm_compute; reflexivity.
Qed.

(** C5.  After two insertions with the distinct keys 1 and 2 and no
    deletion, one node is reachable from the root, not two. *)
Theorem avl_count_broken :
  ∃ s', run_ops 10 (cmp_key Z.of_nat) [Add 1; Add 2]%nat
          (fresh_state [1; 2]%nat) = Done (tt, s') ∧
        reachable 10 s' = Some [2%nat] ∧
        length <$> reachable 10 s' = Some 1%nat.
Proof.
  destruct (run_ops 10 (cmp_key Z.of_nat) [Add 1; Add 2]%nat
              (fresh_state [1; 2]%nat))
    as [[[] s']| |] eqn:E; [|vm_compute in E; discriminate..].
  exists s'. split; [done|].
  apply (f_equal final) in E. vm_compute in E. injection E as <-.
  repeat split; vm_compute; reflexivity.
Qed.

(** ** Deleting a node that sits at the root with at most one child *)

(** C10.  When [avl_del] is called on a node without parent that has at most
    one child, that child (or NULL) becomes [tree->root], the child's parent
    is cleared, and nothing else in memory changes: no height is recomputed
    and no rotation is made. *)
Theorem avl_del_at_root fuel s node n :
  heap s !! node = Some n →
  parent n = None →
  left n = None ∨ right n = None →
  let child := match left n with Some l => Some l | None => right n end in
  (∀ c, child = Some c → is_Some (heap s !! c)) →
  ∃ s', avl_del fuel node s = Done (tt, s') ∧
        root s' = child ∧
        heap s' = match child with
                  | Some c => alter clear_parent c (heap s)
                  | None => heap s
                  end.
Proof.
  intros Hn Hp Hc child Hex.
  destruct n as [p l r h]; simpl in *. subst p.
  cut (wp (avl_del fuel node) s (λ _ s', root s' = child ∧
        heap s' = match child with
                  | Some c => alter clear_parent c (heap s)
                  | None => heap s
                  end)).
  { intros (a & s' & Hr & HQ)%wp_Done. destruct a. eauto. }
  assert (Hone : negb (bool_decide (is_Some l) && bool_decide (is_Some r))
                 = true).
  { destruct Hc as [-> | ->]; [done|]. by destruct l. }
  unfold avl_del, avl_del_splice, avl_del_rebalance. wp_run.
  replace (match l with
           | Some l0 =>
               match r with
               | Some _ =>
                   swap <- avl_get_max_node fuel (Some l0);;
                   sw <- assert_ptr swap;; avl_swap_nodes node sw
               | None => ret ()
               end
           | None => ret ()
           end) with (ret (A:=unit) ()).
  2:{ destruct Hc as [-> | ->]; [done|]. by destruct l. }
  wp_run; [exact Hone|]. wp_run.
  destruct child as [c|] eqn:Hch; subst child; rewrite Hch.
  - destruct (Hex c eq_refl) as [cn Hcn]. wp_run.
    assert (Halt : <[c:=clear_parent cn]> (heap s)
                   = alter clear_parent c (heap s)).
    { apply map_eq. intros i. rewrite lookup_alter, lookup_insert.
      repeat case_decide; subst; try done. by rewrite Hcn. }
    destruct (decide (c = node)) as [->|Hne].
    + assert (cn = mk_node None l r h) as -> by congruence.
      wp_run. done.
    + wp_run. done.
  - wp_run. done.
Qed.

(** Deleting the root of [chain_state]. *)
Lemma avl_del_at_root_witness :
  ∃ s', avl_del 0 2 chain_state = Done (tt, s') ∧
        root s' = Some 1%nat ∧
        heap s' = alter clear_parent 1%nat (heap chain_state).
Proof.
  apply (avl_del_at_root 0 chain_state 2%nat
           (mk_node None (Some 1%nat) None 2)).
  - vm_compute; reflexivity.
  - reflexivity.
  - right; reflexivity.
  - intros c [= <-]. eexists. vm_compute. reflexivity.
Defined.

(** ** Exchanging a node with the maximum of its left subtree *)

Lemma get_max_spec t :
  ∀ s p fuel,
    shape (heap s) p t → (depth t ≤ fuel)%nat →
    avl_get_max_node fuel p s = Done (last (elements t), s) ∧
    ∀ m, last (elements t) = Some m →
         ∃ mn, heap s !! m = Some mn ∧ right mn = None.
Proof.
  induction t as [|l _ a r IHr]; intros s p fuel Hsh Hfuel.
  - cbn in Hsh. subst p. split; [by destruct fuel|]. intros m Hm. discriminate.
  - cbn [shape] in Hsh. destruct Hsh as (-> & n & Hn & Hl & Hr).
    cbn [depth] in Hfuel. cbn [elements].
    destruct r as [|rl b rr].
    + cbn [shape] in Hr. cbn [elements].
      rewrite last_snoc. split.
      * destruct fuel; cbn [avl_get_max_node];
          rewrite (bind_step _ _ _ _ _ (load_step _ _ _ Hn)), Hr; done.
      * intros m [= <-]. eauto.
    + assert (Hlast : last (elements l ++ a :: elements (Node rl b rr))
                      = last (elements (Node rl b rr))).
      { cbn [elements]. rewrite last_app_cons.
        change (a :: elements rl ++ b :: elements rr)
          with ((a :: elements rl) ++ b :: elements rr).
        by rewrite !last_app_cons. }
      rewrite Hlast.
      destruct fuel as [|f]; [lia|].
      destruct (IHr s (right n) f Hr ltac:(cbn [depth] in *; lia))
        as [Hrun Hmax].
      split; [|done].
      cbn [avl_get_max_node].
      rewrite (bind_step _ _ _ _ _ (load_step _ _ _ Hn)).
      cbn [shape] in Hr. destruct Hr as (Hrb & _). rewrite Hrb.
      by rewrite <- Hrb.
Qed.

Lemma swap_adjacent_spec s sl node sw p r h a hs :
  heap s !! node = Some (mk_node p (Some sw) (Some r) h) →
  heap s !! sw = Some (mk_node (Some node) a None hs) →
  holds_node s sl p node →
  NoDup [node; sw; r] →
  is_Some (heap s !! r) →
  owner_free sl [node; sw; r] →
  inner_ok s sl [node; sw; r] a →
  wp (avl_swap_nodes node sw) s (λ _ s',
    heap s' !! node = Some (mk_node (Some sw) a None hs) ∧
    heap s' !! sw = Some (mk_node p (Some node) (Some r) h) ∧
    load_slot sl s' = Done (Some sw, s') ∧
    parent_is s' (Some r) (Some sw) ∧
    parent_is s' a (Some node) ∧
    frame (node :: sw :: r :: option_list a ++ slot_owner sl) s s').
Proof.
  intros Hn Hsw Hsl Hnd [rn Hr] Hown Ha.
  unfold avl_swap_nodes, avl_swap_handle.
  destruct a as [a|]; destruct sl as [|p'|p'];
    cbn [holds_node owner_free] in *; distinct_hyps; subst;
    try match goal with
        | H : heap s !! p' = Some ?x |- _ =>
            destruct x; cbn [parent left right height] in *; subst
        end;
    wp_go; post_solve.
Qed.

Lemma swap_far_spec s sl node sw p l r h q a hs qn :
  heap s !! node = Some (mk_node p (Some l) (Some r) h) →
  heap s !! sw = Some (mk_node (Some q) a None hs) →
  heap s !! q = Some qn → right qn = Some sw → left qn ≠ Some sw →
  holds_node s sl p node →
  NoDup [node; sw; l; r] →
  q ∉ [node; sw; r] →
  is_Some (heap s !! l) →
  is_Some (heap s !! r) →
  owner_free sl [node; sw; l; r; q] →
  inner_ok s sl [node; sw; l; r; q] a →
  wp (avl_swap_nodes node sw) s (λ _ s',
    heap s' !! node = Some (mk_node (Some q) a None hs) ∧
    heap s' !! sw = Some (mk_node p (Some l) (Some r) h) ∧
    load_slot sl s' = Done (Some sw, s') ∧
    load_slot (SlotRight q) s' = Done (Some node, s') ∧
    parent_is s' (Some l) (Some sw) ∧
    parent_is s' (Some r) (Some sw) ∧
    parent_is s' a (Some node) ∧
    frame (node :: sw :: l :: r :: q :: option_list a ++ slot_owner sl) s s').
Proof.
  intros Hn Hsw Hq Hqr Hql Hsl Hnd Hqd [ln Hl] [rn Hr] Hown Ha.
  unfold avl_swap_nodes, avl_swap_handle.
  destruct qn as [qp qlf qrt qh]. cbn [parent left right height] in *. subst.
  destruct a as [a|]; destruct sl as [|p'|p'];
    cbn [holds_node owner_free] in *; distinct_hyps; subst;
    try match goal with
        | H : heap s !! p' = Some ?x |- _ =>
            destruct x; cbn [parent left right height] in *; subst
        end;
    (destruct (decide (q = l)) as [->|Hne];
     [ assert (ln = mk_node qp qlf (Some sw) qh) as -> by congruence |]);
    wp_go; post_solve.
Qed.

Lemma splice_spec s sl node p c1 c2 h :
  heap s !! node = Some (mk_node p c1 c2 h) →
  c1 = None ∨ c2 = None →
  holds_node s sl p node →
  owner_free sl [node] →
  let child := match c1 with Some l => Some l | None => c2 end in
  inner_ok s sl [node] child →
  wp (avl_del_splice node) s (λ _ s',
    load_slot sl s' = Done (child, s') ∧
    parent_is s' child p ∧
    heap s' !! node = Some (mk_node p c1 c2 h) ∧
    frame (option_list child ++ slot_owner sl) s s').
Proof.
  intros Hn Hc Hsl Hown child Hin. unfold avl_del_splice.
  assert (Hone : negb (bool_decide (is_Some c1) && bool_decide (is_Some c2))
                 = true).
  { destruct Hc as [-> | ->]; [done|]. by destruct c1. }
  destruct child as [c|] eqn:Hch; subst child;
    destruct sl as [|p'|p']; cbn [holds_node owner_free] in *;
    distinct_hyps; subst;
    try match goal with
        | H : heap s !! p' = Some ?x |- _ =>
            destruct x; cbn [parent left right height] in *; subst
        end;
    wp_go; try exact Hone; wp_go; rewrite ?Hch; wp_go; post_solve.
Qed.

Lemma avl_del_unfold fuel s node p l r h sw :
  heap s !! node = Some (mk_node p (Some l) (Some r) h) →
  avl_get_max_node fuel (Some l) s = Done (Some sw, s) →
  avl_del fuel node s
  = (avl_swap_nodes node sw ;;; avl_del_splice node ;;;
     avl_del_rebalance fuel node) s.
Proof.
  intros Hn Hmax. unfold avl_del.
  rewrite (bind_step _ _ _ _ _ (load_step _ _ _ Hn)).
  cbn [left right]. unfold bind at 1. unfold bind at 1.
  rewrite Hmax. cbn [assert_ptr]. unfold bind at 1. cbn [ret].
  reflexivity.
Qed.

Lemma balanced7_del_20 :
  ∃ s', avl_del 10 20 balanced7 = Done (tt, s') ∧
        root s' = Some 15%nat ∧
        reachable 10 s' = Some [5; 10; 15; 25; 30; 35]%nat ∧
        all_balanced s' [5; 10; 15; 25; 30; 35]%nat = true.
Proof.
  destruct (avl_del 10 20 balanced7) as [[[] s']| |] eqn:E;
    [|vm_compute in E; discriminate..].
  exists s'. split; [done|].
  assert (Some s' = final (avl_del 10 20 balanced7)) as Hs by (by rewrite E).
  clear E. vm_compute in Hs. injection Hs as ->.
  repeat split; vm_compute; reflexivity.
Qed.

(** C6.  On a node with two children [avl_del] exchanges the node with
    the maximum (last in order) of its left subtree, which has no right
    child, then splices the node out and rebalances.  [avl_swap_nodes] gives
    each of the two nodes the other's parent, left, right and height, with
    the link between them turned around when the maximum is the node's own
    left child, and makes the slot above, the children and the maximum's
    former parent point at the new occupants, so that the node to delete is
    left with at most one child; the splice puts that child (or NULL) into
    the node's slot and gives it the node's parent.  Deleting node 20 from
    the balanced tree over 20, 10, 30, 5, 15, 25, 35 makes 15 the root,
    leaves the nodes 5, 10, 15, 25, 30, 35 in order, all of them balanced,
    and node 20 is no longer reachable. *)
Theorem avl_del_two_children :
  (∀ fuel s node p l r h sw,
     heap s !! node = Some (mk_node p (Some l) (Some r) h) →
     avl_get_max_node fuel (Some l) s = Done (Some sw, s) →
     avl_del fuel node s
     = (avl_swap_nodes node sw ;;; avl_del_splice node ;;;
        avl_del_rebalance fuel node) s) ∧
  (∀ t s p fuel,
     shape (heap s) p t → (depth t ≤ fuel)%nat →
     avl_get_max_node fuel p s = Done (last (elements t), s) ∧
     ∀ m, last (elements t) = Some m →
          ∃ mn, heap s !! m = Some mn ∧ right mn = None) ∧
  (∀ s sl node sw p r h a hs,
     heap s !! node = Some (mk_node p (Some sw) (Some r) h) →
     heap s !! sw = Some (mk_node (Some node) a None hs) →
     holds_node s sl p node →
     NoDup [node; sw; r] →
     is_Some (heap s !! r) →
     owner_free sl [node; sw; r] →
     inner_ok s sl [node; sw; r] a →
     ∃ s', avl_swap_nodes node sw s = Done (tt, s') ∧
       heap s' !! node = Some (mk_node (Some sw) a None hs) ∧
       heap s' !! sw = Some (mk_node p (Some node) (Some r) h) ∧
       load_slot sl s' = Done (Some sw, s') ∧
       parent_is s' (Some r) (Some sw) ∧
       parent_is s' a (Some node) ∧
       frame (node :: sw :: r :: option_list a ++ slot_owner sl) s s') ∧
  (∀ s sl node sw p l r h q a hs qn,
     heap s !! node = Some (mk_node p (Some l) (Some r) h) →
     heap s !! sw = Some (mk_node (Some q) a None hs) →
     heap s !! q = Some qn → right qn = Some sw → left qn ≠ Some sw →
     holds_node s sl p node →
     NoDup [node; sw; l; r] →
     q ∉ [node; sw; r] →
     is_Some (heap s !! l) →
     is_Some (heap s !! r) →
     owner_free sl [node; sw; l; r; q] →
     inner_ok s sl [node; sw; l; r; q] a →
     ∃ s', avl_swap_nodes node sw s = Done (tt, s') ∧
       heap s' !! node = Some (mk_node (Some q) a None hs) ∧
       heap s' !! sw = Some (mk_node p (Some l) (Some r) h) ∧
       load_slot sl s' = Done (Some sw, s') ∧
       load_slot (SlotRight q) s' = Done (Some node, s') ∧
       parent_is s' (Some l) (Some sw) ∧
       parent_is s' (Some r) (Some sw) ∧
       parent_is s' a (Some node) ∧
       frame (node :: sw :: l :: r :: q :: option_list a ++ slot_owner sl)
         s s') ∧
  (∀ s sl node p c1 c2 h,
     heap s !! node = Some (mk_node p c1 c2 h) →
     c1 = None ∨ c2 = None →
     holds_node s sl p node →
     owner_free sl [node] →
     let child := match c1 with Some l => Some l | None => c2 end in
     inner_ok s sl [node] child →
     ∃ s', avl_del_splice node s = Done (tt, s') ∧
       load_slot sl s' = Done (child, s') ∧
       parent_is s' child p ∧
       heap s' !! node = Some (mk_node p c1 c2 h) ∧
       frame (option_list child ++ slot_owner sl) s s') ∧
  (∃ s', avl_del 10 20 balanced7 = Done (tt, s') ∧
         root s' = Some 15%nat ∧
         reachable 10 s' = Some [5; 10; 15; 25; 30; 35]%nat ∧
         all_balanced s' [5; 10; 15; 25; 30; 35]%nat = true).
Proof.
  repeat match goal with |- _ ∧ _ => split end.
  - apply avl_del_unfold.
  - intros t s p fuel. apply get_max_spec.
  - intros s sl node sw p r h a hs Hn Hsw Hsl Hnd Hr Hown Ha.
    pose proof (swap_adjacent_spec _ _ _ _ _ _ _ _ _ Hn Hsw Hsl Hnd Hr Hown Ha)
      as ([] & s' & Hrun & Hpost)%wp_Done.
    eauto.
  - intros s sl node sw p l r h q a hs qn Hn Hsw Hq Hqr Hql Hsl Hnd Hqd Hl Hr
      Hown Ha.
    pose proof (swap_far_spec _ _ _ _ _ _ _ _ _ _ _ _ Hn Hsw Hq Hqr Hql Hsl
                  Hnd Hqd Hl Hr Hown Ha)
      as ([] & s' & Hrun & Hpost)%wp_Done.
    eauto.
  - intros s sl node p c1 c2 h Hn Hc Hsl Hown child Hin.
    pose proof (splice_spec _ _ _ _ _ _ _ Hn Hc Hsl Hown Hin)
      as ([] & s' & Hrun & Hpost)%wp_Done.
    eauto.
  - exact balanced7_del_20.
Qed.

(** On [balanced7]: the maximum below node 10, the exchange of nodes 20
    and 15, the shape of [avl_del] at node 20, and the splice of the leaf
    5; on [lr_state]: the exchange of node 4 with its own left child 3. *)
Lemma avl_del_two_children_witness :
  avl_get_max_node 2 (Some 10%nat) balanced7 = Done (Some 15%nat, balanced7) ∧
  avl_del 10 20 balanced7
  = (avl_swap_nodes 20 15 ;;; avl_del_splice 20 ;;;
     avl_del_rebalance 10 20) balanced7 ∧
  (∃ s', avl_swap_nodes 4 3 lr_state = Done (tt, s') ∧
         heap s' !! 4%nat = Some (mk_node (Some 3%nat) None None 1) ∧
         heap s' !! 3%nat
         = Some (mk_node (Some 2%nat) (Some 4%nat) (Some 5%nat) 2)) ∧
  (∃ s', avl_swap_nodes 20 15 balanced7 = Done (tt, s') ∧
         heap s' !! 20%nat = Some (mk_node (Some 10%nat) None None 1) ∧
         heap s' !! 15%nat
         = Some (mk_node None (Some 10%nat) (Some 30%nat) 3)) ∧
  (∃ s', avl_del_splice 5 balanced7 = Done (tt, s') ∧
         load_slot (SlotLeft 10) s' = Done (None, s')).
Proof.
  destruct avl_del_two_children as (Hdel & Hmax & Hadj & Hfar & Hspl & _).
  repeat match goal with |- _ ∧ _ => split end.
  - apply (Hmax (Node (Node Leaf 5%nat Leaf) 10%nat (Node Leaf 15%nat Leaf))
             balanced7 (Some 10%nat) 2%nat);
      [concrete_shape|vm_compute; lia].
  - apply (Hdel 10%nat balanced7 20%nat None 10%nat 30%nat 3 15%nat);
      vm_compute; reflexivity.
  - destruct (Hadj lr_state (SlotRight 2) 4%nat 3%nat (Some 2%nat) 5%nat 2
                None 1)
      as (s' & Hrun & Hnode & Hsw & _); [concrete_side..|eauto].
  - destruct (Hfar balanced7 SlotRoot 20%nat 15%nat None 10%nat 30%nat 3
                10%nat None 1
                (mk_node (Some 20%nat) (Some 5%nat) (Some 15%nat) 2))
      as (s' & Hrun & Hnode & Hsw & _); [concrete_side..|eauto].
  - destruct (Hspl balanced7 (SlotLeft 10) 5%nat (Some 10%nat) None None 1)
      as (s' & Hrun & Hslot & _); [concrete_side..|eauto].
Defined.
(** ** Recomputing the heights *)

Lemma links_kept_refl s : links_kept s s.
Proof. by split. Qed.

Lemma links_kept_trans s1 s2 s3 :
  links_kept s1 s2 → links_kept s2 s3 → links_kept s1 s3.
Proof.
  intros [Hr1 H1] [Hr2 H2]. split; [congruence|].
  intros a. by rewrite H2, H1.
Qed.

Lemma links_kept_set_height a v s u s' :
  set_height a v s = Done (u, s') → links_kept s s'.
Proof.
  intros H. minv H. split; [done|]. intros b. cbn [heap].
  rewrite lookup_insert. case_decide; [subst|done]. by rewrite H0.
Qed.

Lemma deref_Done p n s s' :
  deref p s = Done (n, s') → s' = s ∧ ∃ a, p = Some a ∧ heap s !! a = Some n.
Proof.
  destruct p as [a|]; [|discriminate]. cbn. intros [H ->]%load_Done. eauto.
Qed.

Lemma avl_set_height_links fuel :
  ∀ node s u s',
    avl_set_height fuel node s = Done (u, s') → links_kept s s'.
Proof.
  induction fuel as [|f IH]; intros node s u s' H; [discriminate|].
  cbn [avl_set_height] in H.
  apply bind_Done in H as (u1 & s1 & H1 & H).
  apply links_kept_set_height in H1.
  apply bind_Done in H as (n1 & s2 & [_ ->]%load_Done & H).
  apply bind_Done in H as (u3 & s3 & H3 & H).
  assert (links_kept s1 s3) as L13.
  { destruct (left n1) as [l|]; [|minv H3; apply links_kept_refl].
    apply bind_Done in H3 as (u4 & s4 & H4%IH & H3).
    apply bind_Done in H3 as (n5 & s5 & [_ ->]%load_Done & H3).
    apply bind_Done in H3 as (n6 & s6 & [-> _]%deref_Done & H3).
    apply bind_Done in H3 as (h7 & s7 & (_ & _ & ->)%int_val_Done & H3).
    apply links_kept_set_height in H3.
    eauto using links_kept_trans. }
  apply bind_Done in H as (n8 & s8 & [_ ->]%load_Done & H).
  assert (links_kept s3 s') as L3.
  { destruct (right n8) as [r|]; [|minv H; apply links_kept_refl].
    apply bind_Done in H as (u9 & s9 & H9%IH & H).
    apply bind_Done in H as (n10 & s10 & [_ ->]%load_Done & H).
    apply bind_Done in H as (n11 & s11 & [-> _]%deref_Done & H).
    destruct (height n11 >=? height n10).
    - apply bind_Done in H as (h12 & s12 & (_ & _ & ->)%int_val_Done & H).
      apply links_kept_set_height in H.
      eauto using links_kept_trans.
    - minv H. done. }
  eauto using links_kept_trans.
Qed.

Lemma shape_links h h' t :
  ∀ p, (∀ a, links <$> h' !! a = links <$> h !! a) →
       shape h p t → shape h' p t.
Proof.
  induction t as [|l IHl a r IHr]; intros p Hl Hs; [done|].
  cbn [shape] in *. destruct Hs as (-> & n & Hn & Hsl & Hsr).
  split; [done|]. pose proof (Hl a) as Ha. rewrite Hn in Ha.
  destruct (h' !! a) as [n'|] eqn:Hn'; [|discriminate].
  injection Ha as Hp Hlf Hrt. exists n'. split; [done|].
  rewrite Hlf, Hrt. eauto.
Qed.

Lemma heights_ok_frame h h' t :
  (∀ x, x ∈ elements t → h' !! x = h !! x) →
  heights_ok h t → heights_ok h' t.
Proof.
  induction t as [|l IHl a r IHr]; intros Hf Hh; [done|].
  cbn [heights_ok elements] in *. destruct Hh as ((n & Hn & Hd) & Hhl & Hhr).
  repeat split.
  - exists n. split; [|done]. rewrite Hf; [done|].
    apply elem_of_app. right. by left.
  - apply IHl; [|done]. intros x Hx. apply Hf, elem_of_app. by left.
  - apply IHr; [|done]. intros x Hx. apply Hf, elem_of_app. right. by right.
Qed.

Lemma wp_set_height a v n s (Q : unit → avl_state → Prop) :
  heap s !! a = Some n →
  Q tt (mk_state (<[a := mk_node (parent n) (left n) (right n) v]> (heap s))
                 (root s)) →
  wp (set_height a v) s Q.
Proof. intros Hn HQ. apply wp_bind. by eapply wp_load. Qed.

Lemma links_insert_same (h : gmap nat avl_node) a n v :
  h !! a = Some n →
  ∀ x, links <$> <[a := mk_node (parent n) (left n) (right n) v]> h !! x
       = links <$> h !! x.
Proof.
  intros Hn x. rewrite lookup_insert. case_decide; [subst|done].
  by rewrite Hn.
Qed.

Lemma avl_set_height_shape t :
  ∀ s a fuel,
    shape (heap s) (Some a) t → NoDup (elements t) →
    (depth t ≤ fuel)%nat → Z.of_nat (depth t) <= INT_MAX →
    wp (avl_set_height fuel a) s (λ _ s',
      links_kept s s' ∧ heights_ok (heap s') t ∧
      ∀ x, x ∉ elements t → heap s' !! x = heap s !! x).
Proof.
  induction t as [|l IHl a' r IHr]; intros s a fuel Hsh Hnd Hfuel Hmax;
    [discriminate|].
  cbn [shape] in Hsh. destruct Hsh as ([= ->] & n & Hn & Hsl & Hsr).
  cbn [elements] in Hnd. apply NoDup_app in Hnd as (Hndl & Hdisj & Hnd).
  apply NoDup_cons in Hnd as (Har & Hndr).
  assert (Hal : a' ∉ elements l) by (intros Hx; apply (Hdisj _ Hx); by left).
  assert (Hlr : ∀ x, x ∈ elements l → x ∉ elements r)
    by (intros x Hx Hx'; apply (Hdisj _ Hx); by right).
  cbn [depth] in Hfuel, Hmax. destruct fuel as [|f]; [lia|].
  cbn [avl_set_height].
  apply wp_bind. eapply wp_set_height; [done|].
  apply wp_bind. eapply wp_load; [cbn; by rewrite lookup_insert_eq|].
  cbn [left right parent height].
  set (s1 := mk_state _ _).
  assert (L01 : links_kept s s1).
  { split; [done|]. intros x. by apply links_insert_same. }
  assert (Ha1 : heap s1 !! a' = Some (mk_node (parent n) (left n) (right n) 1))
    by (cbn; by rewrite lookup_insert_eq).
  assert (Hf1 : ∀ x, x ≠ a' → heap s1 !! x = heap s !! x)
    by (intros x Hx; cbn; by rewrite lookup_insert_ne).
  clearbody s1.
  (* the left subtree *)
  apply wp_bind.
  apply (wp_mono _ _ (λ _ s3,
           links_kept s1 s3 ∧ heights_ok (heap s3) l ∧
           (∀ x, x ∉ elements l → x ≠ a' → heap s3 !! x = heap s1 !! x) ∧
           heap s3 !! a'
           = Some (mk_node (parent n) (left n) (right n)
                           (Z.of_nat (depth l) + 1)))).
  { destruct l as [|ll la lr].
    - cbn [shape] in Hsl. rewrite Hsl in *. apply wp_ret.
      split; [apply links_kept_refl|]. repeat split; try done; exact Ha1.
    - assert (Hsl1 : shape (heap s1) (left n) (Node ll la lr))
        by (eapply shape_links; [apply L01|done]).
      pose proof Hsl1 as (Hla & _). rewrite Hla in *.
      apply wp_bind.
      eapply wp_mono; [apply (IHl s1 la f Hsl1 Hndl); lia|].
      intros [] s2 (L12 & Hh2 & Hf2). cbn beta.
      apply wp_bind. eapply wp_load; [by rewrite Hf2|].
      cbn [left]. pose proof Hh2 as ((ln & Hln & Hlh) & _).
      apply wp_bind. eapply wp_load; [done|].
      apply wp_bind. apply wp_int_val; [unfold INT_MIN, INT_MAX in *; lia|].
      eapply wp_set_height; [by rewrite Hf2|].
      cbn [parent left right height].
      split; [|split; [|split]].
      + eapply links_kept_trans; [exact L12|]. split; [done|].
        intros x. cbn [heap].
        apply (links_insert_same _ _
                 (mk_node (parent n) (Some la) (right n) 1)).
        by rewrite Hf2.
      + eapply heights_ok_frame; [|exact Hh2].
        intros x Hx. cbn [heap]. rewrite lookup_insert_ne; [done|].
        by intros ->.
      + intros x Hx Hxa. cbn [heap]. rewrite lookup_insert_ne by done.
        by apply Hf2.
      + cbn [heap]. rewrite lookup_insert_eq. by rewrite Hlh. }
  intros [] s3 (L13 & Hh3 & Hf3 & Ha3). cbn beta.
  assert (L03 : links_kept s s3) by eauto using links_kept_trans.
  assert (Hf03 : ∀ x, x ∉ elements l → x ≠ a' → heap s3 !! x = heap s !! x)
    by (intros x Hx Hxa; rewrite Hf3, Hf1; done).
  clear L01 L13 Hf3 Hf1 Ha1 s1.
  (* the right subtree *)
  apply wp_bind. eapply wp_load; [done|]. cbn [right].
  destruct r as [|rl ra rr].
  - cbn [shape] in Hsr. rewrite Hsr in *. apply wp_ret.
    split; [done|]. split.
    + cbn [heights_ok]. split; [|done]. eexists. split; [exact Ha3|].
      cbn [height depth]. lia.
    + intros x Hx. cbn [elements] in Hx.
      apply not_elem_of_app in Hx as [Hxl Hxa].
      apply not_elem_of_cons in Hxa as [Hxa _]. by apply Hf03.
  - assert (Hsr3 : shape (heap s3) (right n) (Node rl ra rr))
      by (eapply shape_links; [apply L03|done]).
    pose proof Hsr3 as (Hra & _). rewrite Hra in *.
    apply wp_bind.
    eapply wp_mono; [apply (IHr s3 ra f Hsr3 Hndr); lia|].
    intros [] s4 (L34 & Hh4 & Hf4). cbn beta.
    apply wp_bind. eapply wp_load; [by rewrite Hf4|]. cbn [right].
    pose proof Hh4 as ((rn & Hrn & Hrh) & _).
    apply wp_bind. eapply wp_load; [done|]. cbn [height].
    assert (Hh4l : heights_ok (heap s4) l).
    { eapply heights_ok_frame; [|exact Hh3]. intros x Hx. apply Hf4. auto. }
    assert (Hf04 : ∀ x, x ∉ elements (Node l a' (Node rl ra rr)) →
                        heap s4 !! x = heap s !! x).
    { intros x Hx. cbn [elements] in Hx.
      apply not_elem_of_app in Hx as [Hxl Hxa].
      apply not_elem_of_cons in Hxa as [Hxa Hxr].
      rewrite Hf4 by done. by apply Hf03. }
    destruct (height rn >=? Z.of_nat (depth l) + 1) eqn:Hcmp.
    + apply Z.geb_le in Hcmp.
      apply wp_bind. apply wp_int_val; [unfold INT_MIN, INT_MAX in *; lia|].
      eapply wp_set_height; [by rewrite Hf4|].
      cbn [parent left right height].
      split; [|split].
      * eapply links_kept_trans; [exact L03|].
        eapply links_kept_trans; [exact L34|]. split; [done|].
        intros x. cbn [heap].
        apply (links_insert_same _ _
                 (mk_node (parent n) (left n) (Some ra)
                          (Z.of_nat (depth l) + 1))).
        by rewrite Hf4.
      * split; [|split].
        -- eexists. split; [cbn [heap]; by rewrite lookup_insert_eq|].
           cbn [height depth] in *. lia.
        -- eapply heights_ok_frame; [|exact Hh4l].
           intros x Hx. cbn [heap]. rewrite lookup_insert_ne; [done|].
           by intros ->.
        -- eapply heights_ok_frame; [|exact Hh4].
           intros x Hx. cbn [heap]. rewrite lookup_insert_ne; [done|].
           by intros ->.
      * intros x Hx. cbn [heap]. rewrite lookup_insert_ne; [by apply Hf04|].
        intros ->. apply Hx. cbn [elements].
        apply elem_of_app. right. by left.
    + rewrite Z.geb_leb in Hcmp. apply Z.leb_gt in Hcmp. apply wp_ret.
      split; [|split].
      * eauto using links_kept_trans.
      * split; [|done]. eexists.
        split; [by rewrite Hf4|]. cbn [height depth] in *. lia.
      * done.
Qed.

Lemma balance_reads_ok t :
  ∀ s p,
    shape (heap s) p t → heights_ok (heap s) t →
    Z.of_nat (depth t) <= INT_MAX →
    balance_reads s t.
Proof.
  induction t as [|l IHl a r IHr]; intros s p Hsh Hh Hmax; [done|].
  cbn [shape] in Hsh. destruct Hsh as (-> & n & Hn & Hsl & Hsr).
  destruct Hh as (_ & Hhl & Hhr). cbn [depth] in Hmax.
  split; [|split; [eapply IHl|eapply IHr]; eauto; lia].
  unfold avl_get_balance.
  rewrite (bind_step _ _ _ _ _ (load_step _ _ _ Hn)).
  assert (Hlh : match left n with
                | Some l0 => ln <- load l0;; ret (height ln)
                | None => ret 0
                end s = Done (Z.of_nat (depth l), s)).
  { destruct l as [|ll la lr].
    - cbn [shape] in Hsl. by rewrite Hsl.
    - destruct Hsl as (-> & _). destruct Hhl as ((ln & Hln & <-) & _).
      by rewrite (bind_step _ _ _ _ _ (load_step _ _ _ Hln)). }
  assert (Hrh : match right n with
                | Some r0 => rn <- load r0;; ret (height rn)
                | None => ret 0
                end s = Done (Z.of_nat (depth r), s)).
  { destruct r as [|rl ra rr].
    - cbn [shape] in Hsr. by rewrite Hsr.
    - destruct Hsr as (-> & _). destruct Hhr as ((rn & Hrn & <-) & _).
      by rewrite (bind_step _ _ _ _ _ (load_step _ _ _ Hrn)). }
  rewrite (bind_step _ _ _ _ _ Hlh).
  rewrite (bind_step _ _ _ _ _ (load_step _ _ _ Hn)).
  rewrite (bind_step _ _ _ _ _ Hrh).
  apply int_val_Done. unfold INT_MIN, INT_MAX in *. repeat split; lia.
Qed.

(** X1.  [avl_set_height] writes height fields only: whenever it finishes,
    on any memory, the root field and the parent, left and right of every
    node are what they were. *)
Theorem avl_set_height_keeps_links fuel node s u s' :
  avl_set_height fuel node s = Done (u, s') → links_kept s s'.
Proof. apply avl_set_height_links. Qed.

(** X2.  On a tree laid out in memory without shared nodes, with fuel for
    its depth and a depth that fits in [int], [avl_set_height] finishes,
    leaves every link and every node outside the tree alone, and leaves in
    each node of the tree the depth of the subtree below it. *)
Theorem avl_set_height_correct t s a fuel :
  shape (heap s) (Some a) t → NoDup (elements t) →
  (depth t ≤ fuel)%nat → Z.of_nat (depth t) <= INT_MAX →
  ∃ s', avl_set_height fuel a s = Done (tt, s') ∧
        links_kept s s' ∧
        shape (heap s') (Some a) t ∧
        heights_ok (heap s') t ∧
        ∀ x, x ∉ elements t → heap s' !! x = heap s !! x.
Proof.
  intros Hsh Hnd Hfuel Hmax.
  pose proof (avl_set_height_shape t s a fuel Hsh Hnd Hfuel Hmax)
    as ([] & s' & Hrun & Hl & Hh & Hf)%wp_Done.
  exists s'. repeat split; try done; try apply Hl.
  eapply shape_links; [apply Hl|done].
Qed.

(** X3.  After [avl_set_height] on such a tree, [avl_get_balance] at every
    node of the tree returns the depth of its left subtree minus the depth
    of its right subtree, and changes nothing. *)
Theorem avl_balance_after_set_height t s a fuel :
  shape (heap s) (Some a) t → NoDup (elements t) →
  (depth t ≤ fuel)%nat → Z.of_nat (depth t) <= INT_MAX →
  ∃ s', avl_set_height fuel a s = Done (tt, s') ∧ balance_reads s' t.
Proof.
  intros Hsh Hnd Hfuel Hmax.
  pose proof (avl_set_height_shape t s a fuel Hsh Hnd Hfuel Hmax)
    as ([] & s' & Hrun & Hl & Hh & Hf)%wp_Done.
  exists s'. split; [done|].
  eapply balance_reads_ok; [|done..].
  eapply shape_links; [apply Hl|done].
Qed.

(** ** The minimum of a subtree *)

Lemma get_min_spec t :
  ∀ s p fuel,
    shape (heap s) p t → (depth t ≤ fuel)%nat →
    avl_get_min_node fuel p s = Done (head (elements t), s) ∧
    ∀ m, head (elements t) = Some m →
         ∃ mn, heap s !! m = Some mn ∧ left mn = None.
Proof.
  induction t as [|l IHl a r _]; intros s p fuel Hsh Hfuel.
  - cbn in Hsh. subst p. split; [by destruct fuel|]. intros m Hm. discriminate.
  - cbn [shape] in Hsh. destruct Hsh as (-> & n & Hn & Hl & Hr).
    cbn [depth] in Hfuel. cbn [elements].
    destruct l as [|ll b lr].
    + cbn [shape] in Hl. cbn [elements app head]. split.
      * destruct fuel; cbn [avl_get_min_node];
          rewrite (bind_step _ _ _ _ _ (load_step _ _ _ Hn)), Hl; done.
      * intros m [= <-]. eauto.
    + assert (Hhead : head (elements (Node ll b lr) ++ a :: elements r)
                      = head (elements (Node ll b lr))).
      { cbn [elements]. by destruct (elements ll). }
      rewrite Hhead.
      destruct fuel as [|f]; [lia|].
      destruct (IHl s (left n) f Hl ltac:(cbn [depth] in *; lia))
        as [Hrun Hmin].
      split; [|done].
      cbn [avl_get_min_node].
      rewrite (bind_step _ _ _ _ _ (load_step _ _ _ Hn)).
      cbn [shape] in Hl. destruct Hl as (Hlb & _). rewrite Hlb.
      by rewrite <- Hlb.
Qed.

(** X4.  On a tree laid out in memory, with fuel for its depth,
    [avl_get_min_node] returns the first node in order (NULL for the empty
    tree), that node has no left child, and memory is unchanged. *)
Theorem avl_get_min_node_correct t s p fuel :
  shape (heap s) p t → (depth t ≤ fuel)%nat →
  avl_get_min_node fuel p s = Done (head (elements t), s) ∧
  ∀ m, head (elements t) = Some m →
       ∃ mn, heap s !! m = Some mn ∧ left mn = None.
Proof. apply get_min_spec. Qed.

(** ** Rotations on trees *)

Lemma shape_same_children h h' t :
  ∀ p, (∀ x, x ∈ elements t → same_children h h' x) →
       shape h p t → shape h' p t.
Proof.
  induction t as [|l IHl a r IHr]; intros p Hc Hs; [done|].
  cbn [shape elements] in *. destruct Hs as (-> & n & Hn & Hsl & Hsr).
  split; [done|].
  destruct (Hc a ltac:(apply elem_of_app; right; by left) n Hn)
    as (n' & Hn' & Hl & Hr).
  exists n'. split; [done|]. rewrite Hl, Hr. split.
  - apply IHl; [|done]. intros x Hx. apply Hc, elem_of_app. by left.
  - apply IHr; [|done]. intros x Hx. apply Hc, elem_of_app. right. by right.
Qed.

Lemma same_children_frame xs s s' x :
  frame xs s s' → x ∉ xs → same_children (heap s) (heap s') x.
Proof. intros Hf Hx n Hn. exists n. by rewrite (Hf x Hx). Qed.

Lemma same_children_reparented s s' b v :
  reparented s s' (Some b) v → same_children (heap s) (heap s') b.
Proof.
  intros Hr n Hn. cbn in Hr. rewrite Hn in Hr. eexists. split; [exact Hr|done].
Qed.

Lemma owner_free_elem sl xs x :
  owner_free sl xs → x ∈ xs → owner_free sl [x].
Proof.
  destruct sl as [|p|p]; cbn; [done|..]; intros Hp Hx Hin;
    apply list_elem_of_singleton in Hin; by subst.
Qed.

Lemma shape_root h p l a r :
  shape h p (Node l a r) →
  p = Some a ∧ ∃ n, h !! a = Some n ∧ shape h (left n) l ∧ shape h (right n) r.
Proof. done. Qed.

Lemma shape_root_in h p t x :
  shape h p t → p = Some x → x ∈ elements t ∧ is_Some (h !! x).
Proof.
  destruct t as [|l a r]; [by intros ->|].
  intros (-> & n & Hn & _) [= ->]. split; [|eauto].
  cbn. apply elem_of_app. right. by left.
Qed.

Lemma owner_free_sub sl xs ys :
  owner_free sl xs → (∀ x, x ∈ ys → x ∈ xs) → owner_free sl ys.
Proof. destruct sl as [|p|p]; cbn; [done|..]; intros Hp Hs Hin; eauto. Qed.

Lemma owner_free_not_owner sl xs x :
  owner_free sl xs → x ∈ xs → x ∉ slot_owner sl.
Proof.
  destruct sl as [|p|p]; cbn; intros Hp Hx Hin;
    [by apply elem_of_nil in Hin|..];
    apply list_elem_of_singleton in Hin; by subst.
Qed.

(** A node that a rotation does not name keeps its children: either it is
    the displaced subtree root, whose parent alone changes, or it lies in
    the frame. *)
Lemma same_children_rot s s' q v xs x :
  reparented s s' q v → frame (xs ++ option_list q) s s' →
  x ∉ xs → same_children (heap s) (heap s') x.
Proof.
  intros Hre Hfr Hx. destruct (decide (q = Some x)) as [->|Hne].
  - by eapply same_children_reparented.
  - eapply same_children_frame; [exact Hfr|].
    apply not_elem_of_app. split; [done|].
    destruct q as [b|]; cbn; [|apply not_elem_of_nil].
    rewrite list_elem_of_singleton. congruence.
Qed.

Lemma frame_perm xs ys s s' :
  frame xs s s' → (∀ x, x ∈ ys → x ∈ xs) → (∀ x, x ∈ xs → x ∈ ys) →
  frame ys s s'.
Proof. intros Hf H1 H2 a Ha. apply Hf. intros Hin. by apply Ha, H2. Qed.

Lemma shape_root_sub h p t x :
  shape h p t → x ∈ option_list p → x ∈ elements t.
Proof.
  destruct p as [a|]; cbn; [|by intros _ ?%elem_of_nil].
  intros Hsh ->%list_elem_of_singleton.
  by destruct (shape_root_in _ _ _ _ Hsh eq_refl).
Qed.

Lemma frame_mono xs ys s s' :
  frame xs s s' → (∀ x, x ∈ xs → x ∈ ys) → frame ys s s'.
Proof. intros Hf Hsub a Ha. apply Hf. intros Hin. by apply Ha, Hsub. Qed.

Lemma NoDup_elements_node l a r :
  NoDup (elements (Node l a r)) ↔
  NoDup (elements l) ∧ NoDup (elements r) ∧
  (a ∉ elements l) ∧ (a ∉ elements r) ∧
  (∀ x, x ∈ elements l → x ∉ elements r).
Proof.
  cbn [elements]. rewrite NoDup_app, NoDup_cons. split.
  - intros (Hl & Hd & Ha & Hr). repeat split; try done.
    + intros Hin. apply (Hd a Hin). by left.
    + intros x Hx Hin. apply (Hd x Hx). by right.
  - intros (Hl & Hr & Hal & Har & Hd). repeat split; try done.
    intros x Hx [->|Hin]%elem_of_cons; [done|]. by apply (Hd x).
Qed.

Ltac nodup_split :=
  repeat match goal with
         | H : NoDup (elements (Node _ _ _)) |- _ =>
             apply NoDup_elements_node in H as (? & ? & ? & ? & ?)
         end;
  cbn [elements] in *.

Lemma rotate_ll_shape s sl node l A B C :
  let t := Node (Node A l B) node C in
  shape (heap s) (Some node) t →
  NoDup (elements t) →
  load_slot sl s = Done (Some node, s) →
  owner_free sl (elements t) →
  wp (avl_rotate_ll sl node) s (λ _ s',
    load_slot sl s' = Done (Some l, s') ∧
    shape (heap s') (Some l) (Node A l (Node B node C)) ∧
    frame (elements t ++ slot_owner sl) s s').
Proof.
  intros t Hsh Hnd Hsl Hown. subst t.
  destruct Hsh as (_ & n & Hn & Hshl & HshC).
  destruct Hshl as (Hl & ln & Hln & HshA & HshB).
  nodup_split.
  assert (Hpre : rot_pre s sl node l (right ln)).
  { split; [done|]. split; [intros ->; set_solver|].
    split; [eapply owner_free_sub; [done|set_solver]|].
    destruct (right ln) as [b|] eqn:Hb; [|done].
    destruct (shape_root_in _ _ _ _ HshB eq_refl) as [Hin Hex].
    split; [set_solver|]. split; [done|].
    eapply owner_free_elem; [done|set_solver]. }
  eapply wp_mono; [exact (rotate_ll_spec _ _ _ _ _ _ Hn Hl Hln Hpre)|].
  intros [] s' (Hset & Hnode & Hl' & Hre & Hfr). cbn beta.
  split; [eauto using slot_set_load|].
  assert (Hsc : ∀ x, x ∈ elements A ++ elements B ++ elements C →
                     same_children (heap s) (heap s') x).
  { intros x Hx.
    apply (same_children_rot s s' (right ln) (Some node)
             (node :: l :: slot_owner sl)); [done| |].
    - eapply frame_perm; [exact Hfr|set_solver..].
    - pose proof (owner_free_not_owner sl _ x Hown ltac:(set_solver)).
      set_solver. }
  split;
    [|eapply frame_mono; [exact Hfr|]; intros x Hx;
      pose proof (shape_root_sub _ _ _ x HshB); set_solver].
  split; [done|]. eexists. split; [exact Hl'|]. cbn [left right]. split.
  { eapply shape_same_children; [|exact HshA]. intros x Hx. apply Hsc.
    set_solver. }
  split; [done|]. eexists. split; [exact Hnode|]. cbn [left right]. split.
  - eapply shape_same_children; [|exact HshB]. intros x Hx. apply Hsc.
    set_solver.
  - eapply shape_same_children; [|exact HshC]. intros x Hx. apply Hsc.
    set_solver.
Qed.

Lemma rotate_rr_shape s sl node r A B C :
  let t := Node A node (Node B r C) in
  shape (heap s) (Some node) t →
  NoDup (elements t) →
  load_slot sl s = Done (Some node, s) →
  owner_free sl (elements t) →
  wp (avl_rotate_rr sl node) s (λ _ s',
    load_slot sl s' = Done (Some r, s') ∧
    shape (heap s') (Some r) (Node (Node A node B) r C) ∧
    frame (elements t ++ slot_owner sl) s s').
Proof.
  intros t Hsh Hnd Hsl Hown. subst t.
  destruct Hsh as (_ & n & Hn & HshA & Hshr).
  destruct Hshr as (Hr & rn & Hrn & HshB & HshC).
  nodup_split.
  assert (Hpre : rot_pre s sl node r (left rn)).
  { split; [done|]. split; [intros ->; set_solver|].
    split; [eapply owner_free_sub; [done|set_solver]|].
    destruct (left rn) as [b|] eqn:Hb; [|done].
    destruct (shape_root_in _ _ _ _ HshB eq_refl) as [Hin Hex].
    split; [set_solver|]. split; [done|].
    eapply owner_free_elem; [done|set_solver]. }
  eapply wp_mono; [exact (rotate_rr_spec _ _ _ _ _ _ Hn Hr Hrn Hpre)|].
  intros [] s' (Hset & Hnode & Hr' & Hre & Hfr). cbn beta.
  split; [eauto using slot_set_load|].
  assert (Hsc : ∀ x, x ∈ elements A ++ elements B ++ elements C →
                     same_children (heap s) (heap s') x).
  { intros x Hx.
    apply (same_children_rot s s' (left rn) (Some node)
             (node :: r :: slot_owner sl)); [done| |].
    - eapply frame_perm; [exact Hfr|set_solver..].
    - pose proof (owner_free_not_owner sl _ x Hown ltac:(set_solver)).
      set_solver. }
  split;
    [|eapply frame_mono; [exact Hfr|]; intros x Hx;
      pose proof (shape_root_sub _ _ _ x HshB); set_solver].
  split; [done|]. eexists. split; [exact Hr'|]. cbn [left right]. split.
  2:{ eapply shape_same_children; [|exact HshC]. intros x Hx. apply Hsc.
      set_solver. }
  split; [done|]. eexists. split; [exact Hnode|]. cbn [left right]. split.
  - eapply shape_same_children; [|exact HshA]. intros x Hx. apply Hsc.
    set_solver.
  - eapply shape_same_children; [|exact HshB]. intros x Hx. apply Hsc.
    set_solver.
Qed.

Lemma same_children_rot2 s s' q1 v1 q2 v2 xs x :
  reparented s s' q1 v1 → reparented s s' q2 v2 →
  frame (xs ++ option_list q1 ++ option_list q2) s s' →
  x ∉ xs → same_children (heap s) (heap s') x.
Proof.
  intros Hre1 Hre2 Hfr Hx.
  destruct (decide (q1 = Some x)) as [->|Hne1];
    [by eapply same_children_reparented|].
  destruct (decide (q2 = Some x)) as [->|Hne2];
    [by eapply same_children_reparented|].
  eapply same_children_frame; [exact Hfr|].
  rewrite !not_elem_of_app. split; [done|].
  split; [destruct q1 as [b|]|destruct q2 as [b|]]; cbn;
    rewrite ?list_elem_of_singleton; try apply not_elem_of_nil; congruence.
Qed.

Lemma rotate_lr_shape s sl node l b A B C D :
  let t := Node (Node A l (Node B b C)) node D in
  shape (heap s) (Some node) t →
  NoDup (elements t) →
  load_slot sl s = Done (Some node, s) →
  owner_free sl (elements t) →
  wp (avl_rotate_lr sl node) s (λ _ s',
    load_slot sl s' = Done (Some b, s') ∧
    shape (heap s') (Some b) (Node (Node A l B) b (Node C node D)) ∧
    frame (elements t ++ slot_owner sl) s s').
Proof.
  intros t Hsh Hnd Hsl Hown. subst t.
  destruct Hsh as (_ & n & Hn & Hshl & HshD).
  destruct Hshl as (Hl & ln & Hln & HshA & Hshb).
  destruct Hshb as (Hb & bn & Hbn & HshB & HshC).
  nodup_split.
  assert (Hpre : rot2_pre s sl node l b (left bn) (right bn)).
  { split; [done|].
    split; [repeat (apply NoDup_cons; split); [set_solver..|apply NoDup_nil_2]|].
    split; [eapply owner_free_sub; [done|set_solver]|].
    split; [|split].
    - destruct (left bn) as [c|] eqn:Hc; [|done].
      destruct (shape_root_in _ _ _ _ HshB eq_refl) as [Hin Hex].
      split; [set_solver|]. split; [done|].
      eapply owner_free_elem; [done|set_solver].
    - destruct (right bn) as [d|] eqn:Hd; [|done].
      destruct (shape_root_in _ _ _ _ HshC eq_refl) as [Hin Hex].
      split; [set_solver|]. split; [done|].
      eapply owner_free_elem; [done|set_solver].
    - intros Hcd. destruct (left bn) as [c|] eqn:Hc; [|done].
      destruct (shape_root_in _ _ _ _ HshB eq_refl) as [Hin _].
      rewrite <- Hcd in HshC.
      destruct (shape_root_in _ _ _ _ HshC eq_refl) as [Hin' _].
      set_solver. }
  eapply wp_mono;
    [exact (rotate_lr_spec _ _ _ _ _ _ _ _ Hn Hl Hln Hb Hbn Hpre)|].
  intros [] s' (Hset & Hb' & Hl' & Hnode & Hre1 & Hre2 & Hfr). cbn beta.
  split; [eauto using slot_set_load|].
  assert (Hsc : ∀ x,
    x ∈ elements A ++ elements B ++ elements C ++ elements D →
    same_children (heap s) (heap s') x).
  { intros x Hx.
    apply (same_children_rot2 s s' (left bn) (Some l) (right bn) (Some node)
             (node :: l :: b :: slot_owner sl)); [done|done| |].
    - eapply frame_perm; [exact Hfr|set_solver..].
    - pose proof (owner_free_not_owner sl _ x Hown ltac:(set_solver)).
      set_solver. }
  split;
    [|eapply frame_mono; [exact Hfr|]; intros x Hx;
      pose proof (shape_root_sub _ _ _ x HshB);
      pose proof (shape_root_sub _ _ _ x HshC); set_solver].
  split; [done|]. eexists. split; [exact Hb'|]. cbn [left right]. split.
  - split; [done|]. eexists. split; [exact Hl'|]. cbn [left right]. split.
    + eapply shape_same_children; [|exact HshA]. intros x Hx. apply Hsc.
      set_solver.
    + eapply shape_same_children; [|exact HshB]. intros x Hx. apply Hsc.
      set_solver.
  - split; [done|]. eexists. split; [exact Hnode|]. cbn [left right]. split.
    + eapply shape_same_children; [|exact HshC]. intros x Hx. apply Hsc.
      set_solver.
    + eapply shape_same_children; [|exact HshD]. intros x Hx. apply Hsc.
      set_solver.
Qed.

Lemma rotate_rl_shape s sl node r b A B C D :
  let t := Node A node (Node (Node B b C) r D) in
  shape (heap s) (Some node) t →
  NoDup (elements t) →
  load_slot sl s = Done (Some node, s) →
  owner_free sl (elements t) →
  wp (avl_rotate_rl sl node) s (λ _ s',
    load_slot sl s' = Done (Some b, s') ∧
    shape (heap s') (Some b) (Node (Node A node B) b (Node C r D)) ∧
    frame (elements t ++ slot_owner sl) s s').
Proof.
  intros t Hsh Hnd Hsl Hown. subst t.
  destruct Hsh as (_ & n & Hn & HshA & Hshr).
  destruct Hshr as (Hr & rn & Hrn & Hshb & HshD).
  destruct Hshb as (Hb & bn & Hbn & HshB & HshC).
  nodup_split.
  assert (Hpre : rot2_pre s sl node r b (right bn) (left bn)).
  { split; [done|].
    split; [repeat (apply NoDup_cons; split); [set_solver..|apply NoDup_nil_2]|].
    split; [eapply owner_free_sub; [done|set_solver]|].
    split; [|split].
    - destruct (right bn) as [c|] eqn:Hc; [|done].
      destruct (shape_root_in _ _ _ _ HshC eq_refl) as [Hin Hex].
      split; [set_solver|]. split; [done|].
      eapply owner_free_elem; [done|set_solver].
    - destruct (left bn) as [d|] eqn:Hd; [|done].
      destruct (shape_root_in _ _ _ _ HshB eq_refl) as [Hin Hex].
      split; [set_solver|]. split; [done|].
      eapply owner_free_elem; [done|set_solver].
    - intros Hcd. destruct (right bn) as [c|] eqn:Hc; [|done].
      destruct (shape_root_in _ _ _ _ HshC eq_refl) as [Hin _].
      rewrite <- Hcd in HshB.
      destruct (shape_root_in _ _ _ _ HshB eq_refl) as [Hin' _].
      set_solver. }
  eapply wp_mono;
    [exact (rotate_rl_spec _ _ _ _ _ _ _ _ Hn Hr Hrn Hb Hbn Hpre)|].
  intros [] s' (Hset & Hb' & Hr' & Hnode & Hre1 & Hre2 & Hfr). cbn beta.
  split; [eauto using slot_set_load|].
  assert (Hsc : ∀ x,
    x ∈ elements A ++ elements B ++ elements C ++ elements D →
    same_children (heap s) (heap s') x).
  { intros x Hx.
    apply (same_children_rot2 s s' (right bn) (Some r) (left bn) (Some node)
             (node :: r :: b :: slot_owner sl)); [done|done| |].
    - eapply frame_perm; [exact Hfr|set_solver..].
    - pose proof (owner_free_not_owner sl _ x Hown ltac:(set_solver)).
      set_solver. }
  split;
    [|eapply frame_mono; [exact Hfr|]; intros x Hx;
      pose proof (shape_root_sub _ _ _ x HshB);
      pose proof (shape_root_sub _ _ _ x HshC); set_solver].
  split; [done|]. eexists. split; [exact Hb'|]. cbn [left right]. split.
  - split; [done|]. eexists. split; [exact Hnode|]. cbn [left right]. split.
    + eapply shape_same_children; [|exact HshA]. intros x Hx. apply Hsc.
      set_solver.
    + eapply shape_same_children; [|exact HshB]. intros x Hx. apply Hsc.
      set_solver.
  - split; [done|]. eexists. split; [exact Hr'|]. cbn [left right]. split.
    + eapply shape_same_children; [|exact HshC]. intros x Hx. apply Hsc.
      set_solver.
    + eapply shape_same_children; [|exact HshD]. intros x Hx. apply Hsc.
      set_solver.
Qed.

(** The rotations keep the search-tree ordering of the keys. *)
Lemma bst_rotate_right key A l B n C :
  bst key (Node (Node A l B) n C) ↔ bst key (Node A l (Node B n C)).
Proof.
  cbn [bst elements]. split.
  - intros ((HA & HB & HAl & HlB) & HC & Hln & HnC).
    assert (key l < key n) by (apply Hln; set_solver).
    repeat split; try done.
    + intros x Hx. apply Hln. set_solver.
    + intros x [Hx|[->|Hx]%elem_of_cons]%elem_of_app;
        [by apply HlB|done|].
      specialize (HnC x Hx). lia.
  - intros (HA & (HB & HC & HBn & HnC) & HAl & Hlr).
    assert (key l < key n) by (apply Hlr; set_solver).
    repeat split; try done.
    + intros x Hx. apply Hlr. set_solver.
    + intros x [Hx|[->|Hx]%elem_of_cons]%elem_of_app;
        [|done|by apply HBn].
      specialize (HAl x Hx). lia.
Qed.

Lemma bst_left_subst key L L' n R :
  elements L' = elements L → (bst key L → bst key L') →
  bst key (Node L n R) → bst key (Node L' n R).
Proof. cbn [bst]. intros -> HL (? & ? & ? & ?). auto. Qed.

Lemma bst_right_subst key L n R R' :
  elements R' = elements R → (bst key R → bst key R') →
  bst key (Node L n R) → bst key (Node L n R').
Proof. cbn [bst]. intros -> HL (? & ? & ? & ?). auto. Qed.

Ltac app_norm := cbn [elements]; repeat (rewrite <- app_assoc; cbn [app]).

(** X5.  [avl_rotate_ll] on a tree: when the slot holds the root [node] of
    a tree [(A l B) node C] laid out in memory without sharing, the
    rotation always completes, leaves the tree [A l (B node C)] in the
    slot -- the same nodes in the same in-order sequence, so a search tree
    stays a search tree -- and changes no node outside the rotated tree
    and the owner of the slot. *)
Theorem avl_rotate_ll_keeps_order (key : nat → Z) s sl node l A B C :
  let t := Node (Node A l B) node C in
  let t' := Node A l (Node B node C) in
  shape (heap s) (Some node) t →
  NoDup (elements t) →
  load_slot sl s = Done (Some node, s) →
  owner_free sl (elements t) →
  ∃ s', avl_rotate_ll sl node s = Done (tt, s') ∧
        load_slot sl s' = Done (Some l, s') ∧
        shape (heap s') (Some l) t' ∧
        elements t' = elements t ∧
        (bst key t → bst key t') ∧
        frame (elements t ++ slot_owner sl) s s'.
Proof.
  intros t t' Hsh Hnd Hsl Hown.
  pose proof (rotate_ll_shape _ _ _ _ _ _ _ Hsh Hnd Hsl Hown) as H.
  apply wp_Done in H as ([] & s' & Hrun & Hslot & Hsh' & Hfr).
  exists s'. do 3 (split; [done|]). split; [|split; [|done]].
  - subst t t'. by app_norm.
  - apply (proj1 (bst_rotate_right key A l B node C)).
Qed.

(** X6.  [avl_rotate_rr] on a tree: the mirror image of the above, from
    [A node (B r C)] to [(A node B) r C]. *)
Theorem avl_rotate_rr_keeps_order (key : nat → Z) s sl node r A B C :
  let t := Node A node (Node B r C) in
  let t' := Node (Node A node B) r C in
  shape (heap s) (Some node) t →
  NoDup (elements t) →
  load_slot sl s = Done (Some node, s) →
  owner_free sl (elements t) →
  ∃ s', avl_rotate_rr sl node s = Done (tt, s') ∧
        load_slot sl s' = Done (Some r, s') ∧
        shape (heap s') (Some r) t' ∧
        elements t' = elements t ∧
        (bst key t → bst key t') ∧
        frame (elements t ++ slot_owner sl) s s'.
Proof.
  intros t t' Hsh Hnd Hsl Hown.
  pose proof (rotate_rr_shape _ _ _ _ _ _ _ Hsh Hnd Hsl Hown) as H.
  apply wp_Done in H as ([] & s' & Hrun & Hslot & Hsh' & Hfr).
  exists s'. do 3 (split; [done|]). split; [|split; [|done]].
  - subst t t'. by app_norm.
  - apply (proj2 (bst_rotate_right key A node B r C)).
Qed.

(** X7.  [avl_rotate_lr] on a tree: from [(A l (B b C)) node D] to
    [(A l B) b (C node D)], with the same in-order sequence, the search
    order kept and nothing outside the tree and the slot's owner
    touched. *)
Theorem avl_rotate_lr_keeps_order (key : nat → Z) s sl node l b A B C D :
  let t := Node (Node A l (Node B b C)) node D in
  let t' := Node (Node A l B) b (Node C node D) in
  shape (heap s) (Some node) t →
  NoDup (elements t) →
  load_slot sl s = Done (Some node, s) →
  owner_free sl (elements t) →
  ∃ s', avl_rotate_lr sl node s = Done (tt, s') ∧
        load_slot sl s' = Done (Some b, s') ∧
        shape (heap s') (Some b) t' ∧
        elements t' = elements t ∧
        (bst key t → bst key t') ∧
        frame (elements t ++ slot_owner sl) s s'.
Proof.
  intros t t' Hsh Hnd Hsl Hown.
  pose proof (rotate_lr_shape _ _ _ _ _ _ _ _ _ Hsh Hnd Hsl Hown) as H.
  apply wp_Done in H as ([] & s' & Hrun & Hslot & Hsh' & Hfr).
  exists s'. do 3 (split; [done|]). split; [|split; [|done]].
  - subst t t'. by app_norm.
  - intros Hb. subst t t'.
    apply (proj1 (bst_rotate_right key (Node A l B) b C node D)).
    revert Hb. apply bst_left_subst; [by app_norm|].
    apply (proj2 (bst_rotate_right key A l B b C)).
Qed.

(** X8.  [avl_rotate_rl] on a tree: the mirror image, from
    [A node ((B b C) r D)] to [(A node B) b (C r D)]. *)
Theorem avl_rotate_rl_keeps_order (key : nat → Z) s sl node r b A B C D :
  let t := Node A node (Node (Node B b C) r D) in
  let t' := Node (Node A node B) b (Node C r D) in
  shape (heap s) (Some node) t →
  NoDup (elements t) →
  load_slot sl s = Done (Some node, s) →
  owner_free sl (elements t) →
  ∃ s', avl_rotate_rl sl node s = Done (tt, s') ∧
        load_slot sl s' = Done (Some b, s') ∧
        shape (heap s') (Some b) t' ∧
        elements t' = elements t ∧
        (bst key t → bst key t') ∧
        frame (elements t ++ slot_owner sl) s s'.
Proof.
  intros t t' Hsh Hnd Hsl Hown.
  pose proof (rotate_rl_shape _ _ _ _ _ _ _ _ _ Hsh Hnd Hsl Hown) as H.
  apply wp_Done in H as ([] & s' & Hrun & Hslot & Hsh' & Hfr).
  exists s'. do 3 (split; [done|]). split; [|split; [|done]].
  - subst t t'. by app_norm.
  - intros Hb. subst t t'.
    apply (proj2 (bst_rotate_right key A node B b (Node C r D))).
    revert Hb. apply bst_right_subst; [by app_norm|].
    apply (proj1 (bst_rotate_right key B b C r D)).
Qed.

(** ** Whole trees *)

Lemma wf_shape h t : ∀ p par, wf h p par t → shape h p t.
Proof.
  induction t as [|l IHl a r IHr]; intros p par H; [done|].
  destruct H as (-> & n & Hn & _ & Hl & Hr). split; [done|].
  exists n. split; [done|]. split; eauto.
Qed.

Lemma wf_same h h' t :
  ∀ p par, (∀ x, x ∈ elements t → h' !! x = h !! x) →
           wf h p par t → wf h' p par t.
Proof.
  induction t as [|l IHl a r IHr]; intros p par Hf H; [done|].
  destruct H as (-> & n & Hn & Hp & Hl & Hr). split; [done|].
  exists n. cbn [elements] in Hf.
  split; [rewrite Hf; [done|]; apply elem_of_app; right; by left|].
  split; [done|]. split.
  - apply IHl; [|done]. intros x Hx. apply Hf, elem_of_app. by left.
  - apply IHr; [|done]. intros x Hx. apply Hf, elem_of_app. right. by right.
Qed.

Lemma wf_links h h' t :
  ∀ p par, (∀ a, links <$> h' !! a = links <$> h !! a) →
           wf h p par t → wf h' p par t.
Proof.
  induction t as [|l IHl a r IHr]; intros p par Hl H; [done|].
  destruct H as (-> & n & Hn & Hp & Hwl & Hwr). split; [done|].
  pose proof (Hl a) as Ha. rewrite Hn in Ha.
  destruct (h' !! a) as [n'|] eqn:Hn'; [|discriminate].
  injection Ha as Hpar Hlf Hrt. exists n'. split; [done|].
  rewrite Hpar, Hlf, Hrt. eauto.
Qed.

(** A subtree whose root alone was given a new parent. *)
Lemma wf_reparented s s' q v par t :
  wf (heap s) q par t → NoDup (elements t) →
  reparented s s' q v →
  (∀ x, x ∈ elements t → q ≠ Some x → heap s' !! x = heap s !! x) →
  wf (heap s') q v t.
Proof.
  destruct t as [|l a r]; [done|].
  intros (-> & n & Hn & Hp & Hl & Hr) Hnd Hre Hf.
  apply NoDup_elements_node in Hnd as (_ & _ & Hal & Har & _).
  cbn [reparented] in Hre. rewrite Hn in Hre. cbn in Hre.
  split; [done|]. eexists. split; [exact Hre|]. cbn [parent left right].
  split; [done|]. cbn [elements] in Hf. split.
  - eapply wf_same; [|exact Hl]. intros x Hx. apply Hf.
    + apply elem_of_app. by left.
    + intros [= ->]. done.
  - eapply wf_same; [|exact Hr]. intros x Hx. apply Hf.
    + apply elem_of_app. right. by right.
    + intros [= ->]. done.
Qed.

Lemma wf_root h p par t a :
  wf h p par t → p = Some a →
  a ∈ elements t ∧ ∃ n, h !! a = Some n ∧ parent n = par.
Proof.
  destruct t as [|l b r]; [by intros -> ?|].
  intros (-> & n & Hn & Hp & _) [= ->]. split; [|eauto].
  cbn [elements]. apply elem_of_app. right. by left.
Qed.

Lemma heights_ok_sub h c : ∀ t, heights_ok h (plug c t) → heights_ok h t.
Proof.
  induction c as [|c IH a r|c IH l a]; intros t H; [done|..];
    apply IH in H; by destruct H as (_ & ? & ?).
Qed.

(** *** Trees with a hole *)

Lemma wf_plug c :
  ∀ t h rt,
    wf h rt None (plug c t) ↔
    ∃ q, ctx_wf h rt c q ∧ wf h q (ctx_parent c) t.
Proof.
  induction c as [|c IH a r|c IH l a]; intros t h rt; cbn [plug ctx_wf].
  - split; [intros H; by exists rt|by intros (q & -> & H)].
  - rewrite IH. split.
    + intros (q & Hc & (-> & n & Hn & Hp & Hl & Hr)).
      exists (left n). split; [|done]. exists n. done.
    + intros (q & (n & Hn & <- & Hp & Hr & Hc) & Hl).
      exists (Some a). split; [done|]. split; [done|]. exists n. done.
  - rewrite IH. split.
    + intros (q & Hc & (-> & n & Hn & Hp & Hl & Hr)).
      exists (right n). split; [|done]. exists n. done.
    + intros (q & (n & Hn & <- & Hp & Hl & Hc) & Hr).
      exists (Some a). split; [done|]. split; [done|]. exists n. done.
Qed.

Lemma elements_plug c :
  ∀ t, elements (plug c t) ≡ₚ elements t ++ ctx_elements c.
Proof.
  induction c as [|c IH a r|c IH l a]; intros t;
    cbn [plug ctx_elements elements].
  - by rewrite app_nil_r.
  - rewrite IH. cbn [elements]. by rewrite <- app_assoc.
  - rewrite IH. cbn [elements]. rewrite <- app_assoc. cbn [app].
    rewrite <- !Permutation_middle. f_equiv. rewrite !app_assoc. f_equiv.
    apply Permutation_app_comm.
Qed.

Lemma elements_plug_same c :
  ∀ t t', elements t' = elements t →
          elements (plug c t') = elements (plug c t).
Proof.
  induction c as [|c IH a r|c IH l a]; intros t t' H; cbn [plug]; [done|..];
    apply IH; cbn [elements]; by rewrite H.
Qed.

Lemma bst_plug key c :
  ∀ t t', elements t' = elements t → (bst key t → bst key t') →
          bst key (plug c t) → bst key (plug c t').
Proof.
  induction c as [|c IH a r|c IH l a]; intros t t' He Hb; cbn [plug];
    [done|..]; apply IH; cbn [elements bst]; rewrite ?He; try done;
    intros (? & ? & ? & ?); auto.
Qed.

Lemma depth_plug_le c :
  ∀ t t', (depth t' ≤ depth t)%nat →
          (depth (plug c t') ≤ depth (plug c t))%nat.
Proof.
  induction c as [|c IH a r|c IH l a]; intros t t' H; cbn [plug]; [done|..];
    apply IH; cbn [depth]; lia.
Qed.

Lemma depth_plug_ge c : ∀ t, (depth t + ctx_depth c ≤ depth (plug c t))%nat.
Proof.
  induction c as [|c IH a r|c IH l a]; intros t; cbn [plug ctx_depth];
    [lia|..].
  - specialize (IH (Node t a r)). cbn [depth] in IH. lia.
  - specialize (IH (Node l a t)). cbn [depth] in IH. lia.
Qed.

Lemma ctx_wf_same h h' rt c :
  ∀ q, (∀ x, x ∈ ctx_elements c → h' !! x = h !! x) →
       ctx_wf h rt c q → ctx_wf h' rt c q.
Proof.
  induction c as [|c IH a r|c IH l a]; intros q Hf H; [done|..];
    cbn [ctx_wf ctx_elements] in *.
  - destruct H as (n & Hn & Hq & Hp & Hr & Hc). exists n.
    split; [rewrite Hf; [done|by left]|]. do 2 (split; [done|]). split.
    + eapply wf_same; [|exact Hr]. intros x Hx. apply Hf. right.
      apply elem_of_app. by left.
    + apply IH; [|done]. intros x Hx. apply Hf. right.
      apply elem_of_app. by right.
  - destruct H as (n & Hn & Hq & Hp & Hr & Hc). exists n.
    split; [rewrite Hf; [done|by left]|]. do 2 (split; [done|]). split.
    + eapply wf_same; [|exact Hr]. intros x Hx. apply Hf. right.
      apply elem_of_app. by left.
    + apply IH; [|done]. intros x Hx. apply Hf. right.
      apply elem_of_app. by right.
Qed.

(** Storing [v] into the hole of a path. *)
Lemma ctx_wf_update s s' c q v :
  ctx_wf (heap s) (root s) c q → NoDup (ctx_elements c) →
  slot_set (ctx_slot c) v s s' →
  (∀ x, x ∈ ctx_elements c → x ∉ slot_owner (ctx_slot c) →
        heap s' !! x = heap s !! x) →
  ctx_wf (heap s') (root s') c v.
Proof.
  destruct c as [|c a r|c l a]; cbn [ctx_wf ctx_slot slot_set ctx_elements];
    intros H Hnd Hset Hf; [done|..].
  - destruct H as (n & Hn & Hq & Hp & Hr & Hc).
    destruct Hset as [Hroot Ha]. rewrite Hn in Ha. cbn in Ha.
    apply NoDup_cons in Hnd as [Hnin Hnd].
    apply not_elem_of_app in Hnin as [Har Hac].
    assert (Hf' : ∀ x, x ∈ elements r ++ ctx_elements c →
                       heap s' !! x = heap s !! x).
    { intros x Hx. apply Hf; [by right|]. cbn.
      rewrite list_elem_of_singleton. intros ->.
      apply elem_of_app in Hx as [?|?]; done. }
    eexists. split; [exact Ha|]. cbn [left right parent].
    do 2 (split; [done|]). rewrite Hroot. split.
    + eapply wf_same; [|exact Hr]. intros x Hx. apply Hf', elem_of_app.
      by left.
    + eapply ctx_wf_same; [|exact Hc]. intros x Hx.
      apply Hf', elem_of_app. by right.
  - destruct H as (n & Hn & Hq & Hp & Hl & Hc).
    destruct Hset as [Hroot Ha]. rewrite Hn in Ha. cbn in Ha.
    apply NoDup_cons in Hnd as [Hnin Hnd].
    apply not_elem_of_app in Hnin as [Har Hac].
    assert (Hf' : ∀ x, x ∈ elements l ++ ctx_elements c →
                       heap s' !! x = heap s !! x).
    { intros x Hx. apply Hf; [by right|]. cbn.
      rewrite list_elem_of_singleton. intros ->.
      apply elem_of_app in Hx as [?|?]; done. }
    eexists. split; [exact Ha|]. cbn [left right parent].
    do 2 (split; [done|]). rewrite Hroot. split.
    + eapply wf_same; [|exact Hl]. intros x Hx. apply Hf', elem_of_app.
      by left.
    + eapply ctx_wf_same; [|exact Hc]. intros x Hx.
      apply Hf', elem_of_app. by right.
Qed.

(** The hole of a path is the slot that [avl_do_balancing] computes. *)
Lemma ctx_wf_slot s c a :
  ctx_wf (heap s) (root s) c (Some a) →
  load_slot (ctx_slot c) s = Done (Some a, s).
Proof.
  destruct c as [|c b r|c l b]; cbn [ctx_wf ctx_slot load_slot].
  - intros H. unfold get_root. by rewrite H.
  - intros (n & Hn & Hq & _).
    rewrite (bind_step _ _ _ _ _ (load_step _ _ _ Hn)). by rewrite Hq.
  - intros (n & Hn & Hq & _).
    rewrite (bind_step _ _ _ _ _ (load_step _ _ _ Hn)). by rewrite Hq.
Qed.

(** ** Rotations inside a whole tree *)

(** What a rotation leaves alone: every node of the rotated tree other
    than the two or three it names and the displaced subtree roots. *)
Lemma rot_frame_same s s' xs q1 q2 sl x :
  frame (xs ++ option_list q1 ++ option_list q2 ++ slot_owner sl) s s' →
  x ∉ xs → q1 ≠ Some x → q2 ≠ Some x → x ∉ slot_owner sl →
  heap s' !! x = heap s !! x.
Proof.
  intros Hfr Hx H1 H2 Hsl. apply Hfr. rewrite !not_elem_of_app.
  split; [done|]. split; [|split; [|done]].
  - destruct q1 as [b|]; cbn; rewrite ?list_elem_of_singleton;
      [congruence|apply not_elem_of_nil].
  - destruct q2 as [b|]; cbn; rewrite ?list_elem_of_singleton;
      [congruence|apply not_elem_of_nil].
Qed.

Lemma rotate_ll_wf s sl node l par A B C :
  let t := Node (Node A l B) node C in
  wf (heap s) (Some node) par t →
  NoDup (elements t) →
  load_slot sl s = Done (Some node, s) →
  owner_free sl (elements t) →
  wp (avl_rotate_ll sl node) s (λ _ s',
    slot_set sl (Some l) s s' ∧
    wf (heap s') (Some l) par (Node A l (Node B node C)) ∧
    frame (elements t ++ slot_owner sl) s s').
Proof.
  intros t Hwf Hnd Hsl Hown. subst t.
  destruct Hwf as (_ & n & Hn & Hp & Hwl & HwC).
  destruct Hwl as (Hl & ln & Hln & Hpl & HwA & HwB).
  pose proof (wf_shape _ _ _ _ HwB) as HshB.
  pose proof Hnd as Hnd0. nodup_split.
  assert (Hpre : rot_pre s sl node l (right ln)).
  { split; [done|]. split; [intros ->; set_solver|].
    split; [eapply owner_free_sub; [done|set_solver]|].
    destruct (right ln) as [b|] eqn:Hb; [|done].
    destruct (shape_root_in _ _ _ _ HshB eq_refl) as [Hin Hex].
    split; [set_solver|]. split; [done|].
    eapply owner_free_elem; [done|set_solver]. }
  eapply wp_mono; [exact (rotate_ll_spec _ _ _ _ _ _ Hn Hl Hln Hpre)|].
  intros [] s' (Hset & Hnode & Hl' & Hre & Hfr). cbn beta.
  split; [done|].
  split;
    [|eapply frame_mono; [exact Hfr|]; intros x Hx;
      pose proof (shape_root_sub _ _ _ x HshB); set_solver].
  assert (Hsame : ∀ x, x ∈ elements A ++ elements B ++ elements C →
                       right ln ≠ Some x → heap s' !! x = heap s !! x).
  { intros x Hx Hne.
    apply (rot_frame_same s s' [node; l] (right ln) None sl); try done.
    - set_solver.
    - apply (owner_free_not_owner sl _ x Hown). set_solver. }
  split; [done|]. eexists. split; [exact Hl'|]. cbn [parent left right].
  split; [done|]. split.
  { eapply wf_same; [|exact HwA]. intros x Hx. apply Hsame; [set_solver|].
    intros Hq. pose proof (shape_root_sub _ _ _ x HshB). rewrite Hq in *.
    set_solver. }
  split; [done|]. eexists. split; [exact Hnode|]. cbn [parent left right].
  split; [done|]. split.
  - eapply wf_reparented; [exact HwB|done|done|].
    intros x Hx Hne. apply Hsame; [set_solver|done].
  - eapply wf_same; [|exact HwC]. intros x Hx. apply Hsame; [set_solver|].
    intros Hq. pose proof (shape_root_sub _ _ _ x HshB). rewrite Hq in *.
    set_solver.
Qed.

Lemma rotate_rr_wf s sl node r par A B C :
  let t := Node A node (Node B r C) in
  wf (heap s) (Some node) par t →
  NoDup (elements t) →
  load_slot sl s = Done (Some node, s) →
  owner_free sl (elements t) →
  wp (avl_rotate_rr sl node) s (λ _ s',
    slot_set sl (Some r) s s' ∧
    wf (heap s') (Some r) par (Node (Node A node B) r C) ∧
    frame (elements t ++ slot_owner sl) s s').
Proof.
  intros t Hwf Hnd Hsl Hown. subst t.
  destruct Hwf as (_ & n & Hn & Hp & HwA & Hwr).
  destruct Hwr as (Hr & rn & Hrn & Hpr & HwB & HwC).
  pose proof (wf_shape _ _ _ _ HwB) as HshB.
  nodup_split.
  assert (Hpre : rot_pre s sl node r (left rn)).
  { split; [done|]. split; [intros ->; set_solver|].
    split; [eapply owner_free_sub; [done|set_solver]|].
    destruct (left rn) as [b|] eqn:Hb; [|done].
    destruct (shape_root_in _ _ _ _ HshB eq_refl) as [Hin Hex].
    split; [set_solver|]. split; [done|].
    eapply owner_free_elem; [done|set_solver]. }
  eapply wp_mono; [exact (rotate_rr_spec _ _ _ _ _ _ Hn Hr Hrn Hpre)|].
  intros [] s' (Hset & Hnode & Hr' & Hre & Hfr). cbn beta.
  split; [done|].
  split;
    [|eapply frame_mono; [exact Hfr|]; intros x Hx;
      pose proof (shape_root_sub _ _ _ x HshB); set_solver].
  assert (Hsame : ∀ x, x ∈ elements A ++ elements B ++ elements C →
                       left rn ≠ Some x → heap s' !! x = heap s !! x).
  { intros x Hx Hne.
    apply (rot_frame_same s s' [node; r] (left rn) None sl); try done.
    - set_solver.
    - apply (owner_free_not_owner sl _ x Hown). set_solver. }
  split; [done|]. eexists. split; [exact Hr'|]. cbn [parent left right].
  split; [done|]. split.
  2:{ eapply wf_same; [|exact HwC]. intros x Hx. apply Hsame; [set_solver|].
      intros Hq. pose proof (shape_root_sub _ _ _ x HshB). rewrite Hq in *.
      set_solver. }
  split; [done|]. eexists. split; [exact Hnode|]. cbn [parent left right].
  split; [done|]. split.
  - eapply wf_same; [|exact HwA]. intros x Hx. apply Hsame; [set_solver|].
    intros Hq. pose proof (shape_root_sub _ _ _ x HshB). rewrite Hq in *.
    set_solver.
  - eapply wf_reparented; [exact HwB|done|done|].
    intros x Hx Hne. apply Hsame; [set_solver|done].
Qed.

Lemma rotate_lr_wf s sl node l b par A B C D :
  let t := Node (Node A l (Node B b C)) node D in
  wf (heap s) (Some node) par t →
  NoDup (elements t) →
  load_slot sl s = Done (Some node, s) →
  owner_free sl (elements t) →
  wp (avl_rotate_lr sl node) s (λ _ s',
    slot_set sl (Some b) s s' ∧
    wf (heap s') (Some b) par (Node (Node A l B) b (Node C node D)) ∧
    frame (elements t ++ slot_owner sl) s s').
Proof.
  intros t Hwf Hnd Hsl Hown. subst t.
  destruct Hwf as (_ & n & Hn & Hp & Hwl & HwD).
  destruct Hwl as (Hl & ln & Hln & Hpl & HwA & Hwb).
  destruct Hwb as (Hb & bn & Hbn & Hpb & HwB & HwC).
  pose proof (wf_shape _ _ _ _ HwB) as HshB.
  pose proof (wf_shape _ _ _ _ HwC) as HshC.
  nodup_split.
  assert (Hpre : rot2_pre s sl node l b (left bn) (right bn)).
  { split; [done|].
    split; [repeat (apply NoDup_cons; split); [set_solver..|apply NoDup_nil_2]|].
    split; [eapply owner_free_sub; [done|set_solver]|].
    split; [|split].
    - destruct (left bn) as [c|] eqn:Hc; [|done].
      destruct (shape_root_in _ _ _ _ HshB eq_refl) as [Hin Hex].
      split; [set_solver|]. split; [done|].
      eapply owner_free_elem; [done|set_solver].
    - destruct (right bn) as [d|] eqn:Hd; [|done].
      destruct (shape_root_in _ _ _ _ HshC eq_refl) as [Hin Hex].
      split; [set_solver|]. split; [done|].
      eapply owner_free_elem; [done|set_solver].
    - intros Hcd. destruct (left bn) as [c|] eqn:Hc; [|done].
      destruct (shape_root_in _ _ _ _ HshB eq_refl) as [Hin _].
      rewrite <- Hcd in HshC.
      destruct (shape_root_in _ _ _ _ HshC eq_refl) as [Hin' _].
      set_solver. }
  eapply wp_mono;
    [exact (rotate_lr_spec _ _ _ _ _ _ _ _ Hn Hl Hln Hb Hbn Hpre)|].
  intros [] s' (Hset & Hb' & Hl' & Hnode & Hre1 & Hre2 & Hfr). cbn beta.
  split; [done|].
  split;
    [|eapply frame_mono; [exact Hfr|]; intros x Hx;
      pose proof (shape_root_sub _ _ _ x HshB);
      pose proof (shape_root_sub _ _ _ x HshC); set_solver].
  assert (Hsame : ∀ x,
    x ∈ elements A ++ elements B ++ elements C ++ elements D →
    left bn ≠ Some x → right bn ≠ Some x → heap s' !! x = heap s !! x).
  { intros x Hx Hne1 Hne2.
    apply (rot_frame_same s s' [node; l; b] (left bn) (right bn) sl);
      try done.
    - set_solver.
    - apply (owner_free_not_owner sl _ x Hown). set_solver. }
  assert (HnB : ∀ x, x ∉ elements B → left bn ≠ Some x).
  { intros x Hx Hq. pose proof (shape_root_sub _ _ _ x HshB).
    rewrite Hq in *. set_solver. }
  assert (HnC : ∀ x, x ∉ elements C → right bn ≠ Some x).
  { intros x Hx Hq. pose proof (shape_root_sub _ _ _ x HshC).
    rewrite Hq in *. set_solver. }
  split; [done|]. eexists. split; [exact Hb'|]. cbn [parent left right].
  split; [done|]. split.
  - split; [done|]. eexists. split; [exact Hl'|]. cbn [parent left right].
    split; [done|]. split.
    + eapply wf_same; [|exact HwA]. intros x Hx.
      apply Hsame; [set_solver|apply HnB|apply HnC]; set_solver.
    + eapply wf_reparented; [exact HwB|done|done|].
      intros x Hx Hne. apply Hsame; [set_solver|done|apply HnC; set_solver].
  - split; [done|]. eexists. split; [exact Hnode|]. cbn [parent left right].
    split; [done|]. split.
    + eapply wf_reparented; [exact HwC|done|done|].
      intros x Hx Hne. apply Hsame; [set_solver|apply HnB; set_solver|done].
    + eapply wf_same; [|exact HwD]. intros x Hx.
      apply Hsame; [set_solver|apply HnB|apply HnC]; set_solver.
Qed.

Lemma rotate_rl_wf s sl node r b par A B C D :
  let t := Node A node (Node (Node B b C) r D) in
  wf (heap s) (Some node) par t →
  NoDup (elements t) →
  load_slot sl s = Done (Some node, s) →
  owner_free sl (elements t) →
  wp (avl_rotate_rl sl node) s (λ _ s',
    slot_set sl (Some b) s s' ∧
    wf (heap s') (Some b) par (Node (Node A node B) b (Node C r D)) ∧
    frame (elements t ++ slot_owner sl) s s').
Proof.
  intros t Hwf Hnd Hsl Hown. subst t.
  destruct Hwf as (_ & n & Hn & Hp & HwA & Hwr).
  destruct Hwr as (Hr & rn & Hrn & Hpr & Hwb & HwD).
  destruct Hwb as (Hb & bn & Hbn & Hpb & HwB & HwC).
  pose proof (wf_shape _ _ _ _ HwB) as HshB.
  pose proof (wf_shape _ _ _ _ HwC) as HshC.
  nodup_split.
  assert (Hpre : rot2_pre s sl node r b (right bn) (left bn)).
  { split; [done|].
    split; [repeat (apply NoDup_cons; split); [set_solver..|apply NoDup_nil_2]|].
    split; [eapply owner_free_sub; [done|set_solver]|].
    split; [|split].
    - destruct (right bn) as [c|] eqn:Hc; [|done].
      destruct (shape_root_in _ _ _ _ HshC eq_refl) as [Hin Hex].
      split; [set_solver|]. split; [done|].
      eapply owner_free_elem; [done|set_solver].
    - destruct (left bn) as [d|] eqn:Hd; [|done].
      destruct (shape_root_in _ _ _ _ HshB eq_refl) as [Hin Hex].
      split; [set_solver|]. split; [done|].
      eapply owner_free_elem; [done|set_solver].
    - intros Hcd. destruct (right bn) as [c|] eqn:Hc; [|done].
      destruct (shape_root_in _ _ _ _ HshC eq_refl) as [Hin _].
      rewrite <- Hcd in HshB.
      destruct (shape_root_in _ _ _ _ HshB eq_refl) as [Hin' _].
      set_solver. }
  eapply wp_mono;
    [exact (rotate_rl_spec _ _ _ _ _ _ _ _ Hn Hr Hrn Hb Hbn Hpre)|].
  intros [] s' (Hset & Hb' & Hr' & Hnode & Hre1 & Hre2 & Hfr). cbn beta.
  split; [done|].
  split;
    [|eapply frame_mono; [exact Hfr|]; intros x Hx;
      pose proof (shape_root_sub _ _ _ x HshB);
      pose proof (shape_root_sub _ _ _ x HshC); set_solver].
  assert (Hsame : ∀ x,
    x ∈ elements A ++ elements B ++ elements C ++ elements D →
    left bn ≠ Some x → right bn ≠ Some x → heap s' !! x = heap s !! x).
  { intros x Hx Hne1 Hne2.
    apply (rot_frame_same s s' [node; r; b] (right bn) (left bn) sl);
      try done.
    - set_solver.
    - apply (owner_free_not_owner sl _ x Hown). set_solver. }
  assert (HnB : ∀ x, x ∉ elements B → left bn ≠ Some x).
  { intros x Hx Hq. pose proof (shape_root_sub _ _ _ x HshB).
    rewrite Hq in *. set_solver. }
  assert (HnC : ∀ x, x ∉ elements C → right bn ≠ Some x).
  { intros x Hx Hq. pose proof (shape_root_sub _ _ _ x HshC).
    rewrite Hq in *. set_solver. }
  split; [done|]. eexists. split; [exact Hb'|]. cbn [parent left right].
  split; [done|]. split.
  - split; [done|]. eexists. split; [exact Hnode|]. cbn [parent left right].
    split; [done|]. split.
    + eapply wf_same; [|exact HwA]. intros x Hx.
      apply Hsame; [set_solver|apply HnB|apply HnC]; set_solver.
    + eapply wf_reparented; [exact HwB|done|done|].
      intros x Hx Hne. apply Hsame; [set_solver|done|apply HnC; set_solver].
  - split; [done|]. eexists. split; [exact Hr'|]. cbn [parent left right].
    split; [done|]. split.
    + eapply wf_reparented; [exact HwC|done|done|].
      intros x Hx Hne. apply Hsame; [set_solver|apply HnB; set_solver|done].
    + eapply wf_same; [|exact HwD]. intros x Hx.
      apply Hsame; [set_solver|apply HnB|apply HnC]; set_solver.
Qed.

(** ** The rebalance driver on whole trees *)

Ltac bal_cases :=
  repeat match goal with
         | |- context [if ?b then _ else _] => destruct b eqn:?
         | |- context [match ?t with Leaf => _ | Node _ _ _ => _ end] =>
             is_var t; destruct t
         end.

Ltac bal_arith :=
  repeat match goal with
         | H : (_ >? _) = true |- _ => apply Z.gtb_lt in H
         | H : (_ >? _) = false |- _ =>
             rewrite Z.gtb_ltb in H; apply Z.ltb_ge in H
         | H : (_ <? _) = true |- _ => apply Z.ltb_lt in H
         | H : (_ <? _) = false |- _ => apply Z.ltb_ge in H
         end;
  unfold bal in *; cbn [depth] in *.

Lemma rebalance_elements t : elements (rebalance t) = elements t.
Proof.
  destruct t as [|l n r]; [done|]. unfold rebalance.
  bal_cases; try done; by app_norm.
Qed.

Lemma rebalance_depth t : (depth (rebalance t) ≤ depth t)%nat.
Proof.
  destruct t as [|l n r]; [done|]. unfold rebalance.
  bal_cases; try done; bal_arith; lia.
Qed.

Lemma rebalance_bst key t : bst key t → bst key (rebalance t).
Proof.
  destruct t as [|l n r]; [done|]. unfold rebalance.
  bal_cases; try done.
  - apply (proj1 (bst_rotate_right key _ _ _ _ _)).
  - intros Hb.
    apply (proj1 (bst_rotate_right key (Node _ _ _) _ _ _ _)).
    revert Hb. apply bst_left_subst; [by app_norm|].
    apply (proj2 (bst_rotate_right key _ _ _ _ _)).
  - apply (proj1 (bst_rotate_right key _ _ _ _ _)).
  - apply (proj2 (bst_rotate_right key _ _ _ _ _)).
  - intros Hb.
    apply (proj2 (bst_rotate_right key _ _ _ _ (Node _ _ _))).
    revert Hb. apply bst_right_subst; [by app_norm|].
    apply (proj1 (bst_rotate_right key _ _ _ _ _)).
  - apply (proj2 (bst_rotate_right key _ _ _ _ _)).
Qed.

Lemma wp_eq {A} (m : M A) s a s' (Q : A → avl_state → Prop) :
  m s = Done (a, s') → Q a s' → wp m s Q.
Proof. unfold wp. by intros ->. Qed.

Lemma root_of_wf h p par t : wf h p par t → p = root_of t.
Proof. destruct t; [done|]. by intros (-> & _). Qed.

Lemma slot_set_refl sl v s : load_slot sl s = Done (v, s) → slot_set sl v s s.
Proof.
  destruct sl as [|p|p]; cbn [load_slot slot_set].
  - unfold get_root. by intros [= ->].
  - intros H. apply bind_Done in H as (n & s1 & [Hn ->]%load_Done & H).
    injection H as <-. split; [done|]. rewrite Hn. by destruct n.
  - intros H. apply bind_Done in H as (n & s1 & [Hn ->]%load_Done & H).
    injection H as <-. split; [done|]. rewrite Hn. by destruct n.
Qed.

(** The slot that [avl_do_balancing] works out from the parent field. *)
Lemma do_balancing_slot s c a n :
  ctx_wf (heap s) (root s) c (Some a) →
  parent n = ctx_parent c →
  a ∉ ctx_elements c →
  match parent n with
  | Some p =>
      pn <- load p ;;
      ret (if bool_decide (right pn = Some a) then SlotRight p else SlotLeft p)
  | None =>
      r <- get_root ;; assert (bool_decide (r = Some a)) ;;; ret SlotRoot
  end s = Done (ctx_slot c, s).
Proof.
  intros Hc Hp Ha. rewrite Hp.
  destruct c as [|c p r|c l p]; cbn [ctx_wf ctx_parent ctx_slot] in *.
  - unfold bind, get_root. rewrite Hc.
    by rewrite bool_decide_eq_true_2.
  - destruct Hc as (pn & Hpn & Hq & _ & Hr & _).
    rewrite (bind_step _ _ _ _ _ (load_step _ _ _ Hpn)).
    rewrite bool_decide_eq_false_2; [done|].
    intros Hra. destruct (wf_root _ _ _ _ _ Hr Hra) as [Hin _].
    apply Ha. cbn [ctx_elements]. right. apply elem_of_app. by left.
  - destruct Hc as (pn & Hpn & Hq & _).
    rewrite (bind_step _ _ _ _ _ (load_step _ _ _ Hpn)).
    by rewrite bool_decide_eq_true_2.
Qed.

Lemma NoDup_plug c t :
  NoDup (elements (plug c t)) →
  NoDup (elements t) ∧ NoDup (ctx_elements c) ∧
  ∀ x, x ∈ elements t → x ∉ ctx_elements c.
Proof.
  rewrite elements_plug. intros H. by apply NoDup_app in H as (? & ? & ?).
Qed.

Lemma ctx_owner_free c xs :
  (∀ x, x ∈ xs → x ∉ ctx_elements c) → owner_free (ctx_slot c) xs.
Proof.
  destruct c as [|c p r|c l p]; cbn [ctx_slot owner_free ctx_elements];
    [done|..]; intros H Hin; apply (H _ Hin); by left.
Qed.

Lemma ctx_owner_in c x : x ∈ slot_owner (ctx_slot c) → x ∈ ctx_elements c.
Proof.
  destruct c as [|c p r|c l p]; cbn [ctx_slot slot_owner ctx_elements];
    [by intros ?%elem_of_nil|..]; intros ->%list_elem_of_singleton; by left.
Qed.

Lemma balance_root s l a r :
  shape (heap s) (Some a) (Node l a r) → heights_ok (heap s) (Node l a r) →
  Z.of_nat (depth (Node l a r)) <= INT_MAX →
  avl_get_balance a s = Done (bal (Node l a r), s).
Proof.
  intros Hsh Hh Hmax.
  by destruct (balance_reads_ok _ _ _ Hsh Hh Hmax) as [? _].
Qed.

(** The rotation that the driver chooses, at a node inside a tree. *)
Lemma do_balancing_tree c l a r s fuel :
  let t := Node l a r in
  let T := plug c t in
  let T' := plug c (rebalance t) in
  wf (heap s) (root s) None T → heights_ok (heap s) T →
  NoDup (elements T) →
  (depth T ≤ fuel)%nat → Z.of_nat (depth T) <= INT_MAX →
  wp (avl_do_balancing fuel a) s (λ flag s',
    flag = negb (tied t) ∧
    wf (heap s') (root s') None T' ∧
    heights_ok (heap s') T' ∧
    frame (elements T) s s').
Proof.
  intros t T T' Hwf Hh Hnd Hfuel Hmax. subst T T'.
  apply wf_plug in Hwf as (q & Hc & Hwt).
  pose proof (root_of_wf _ _ _ _ Hwt) as Hq. cbn in Hq. subst q.
  pose proof Hwt as (_ & n & Hn & Hp & Hwl & Hwr).
  destruct (NoDup_plug _ _ Hnd) as (Hndt & Hndc & Hdisj).
  assert (Hat : a ∈ elements t) by (cbn; apply elem_of_app; right; by left).
  pose proof (heights_ok_sub _ _ _ Hh) as Hht.
  pose proof (depth_plug_ge c t) as Hdt.
  assert (Hmt : Z.of_nat (depth t) <= INT_MAX) by lia.
  pose proof (wf_shape _ _ _ _ Hwt) as Hsht.
  pose proof (balance_reads_ok _ _ _ Hsht Hht Hmt) as (Hb & Hbl & Hbr).
  fold (bal t) in Hb.
  pose proof (ctx_wf_slot _ _ _ Hc) as Hsl.
  assert (Hown : owner_free (ctx_slot c) (elements t))
    by (by apply ctx_owner_free).
  unfold avl_do_balancing.
  apply wp_bind. eapply wp_load; [exact Hn|].
  apply wp_bind. eapply wp_eq; [by apply do_balancing_slot; auto|].
  apply wp_bind. eapply wp_eq; [exact Hb|].
  apply wp_bind.
  apply (wp_mono _ _ (λ flag s1,
           flag = negb (tied t) ∧
           slot_set (ctx_slot c) (root_of (rebalance t)) s s1 ∧
           wf (heap s1) (root_of (rebalance t)) (ctx_parent c) (rebalance t) ∧
           frame (elements t ++ slot_owner (ctx_slot c)) s s1)).
  { subst t. unfold tied, rebalance. cbn [bal] in *.
    pose proof Hb as Hb'.
    destruct (Z.of_nat (depth l) - Z.of_nat (depth r) >? 0) eqn:Hb0.
    - (* left heavy *)
      destruct l as [|A x B]; [bal_arith; lia|].
      pose proof Hwl as (Hlx & xn & Hxn & Hpx & HwA & HwB).
      destruct Hbl as (Hbx & HbA & HbB).
      apply wp_bind. eapply wp_load; [exact Hn|]. rewrite Hlx.
      apply wp_bind. apply wp_assert_ptr.
      apply wp_bind. eapply wp_eq; [exact Hbx|]. cbn [bal].
      destruct (Z.of_nat (depth A) - Z.of_nat (depth B) >? 0) eqn:Hb1.
      + apply wp_bind.
        eapply wp_mono;
          [by apply (rotate_ll_wf s _ a x (ctx_parent c) A B r)|].
        intros [] s1 (Hset & Hwf1 & Hfr1). apply wp_ret.
        split; [|done]. rewrite bool_decide_eq_false_2; [done|].
        bal_arith; lia.
      + apply wp_bind. eapply wp_load; [exact Hn|]. rewrite Hlx.
        apply wp_bind. apply wp_assert_ptr.
        apply wp_bind. eapply wp_eq; [exact Hbx|].
        destruct (Z.of_nat (depth A) - Z.of_nat (depth B) <? 0) eqn:Hb2.
        * destruct B as [|B1 b B2]; [bal_arith; lia|].
          apply wp_bind.
          eapply wp_mono;
            [by apply (rotate_lr_wf s _ a x b (ctx_parent c) A B1 B2 r)|].
          intros [] s1 (Hset & Hwf1 & Hfr1). apply wp_ret.
          split; [|done]. rewrite bool_decide_eq_false_2; [done|].
          bal_arith; lia.
        * apply wp_bind.
          eapply wp_mono;
            [by apply (rotate_ll_wf s _ a x (ctx_parent c) A B r)|].
          intros [] s1 (Hset & Hwf1 & Hfr1). apply wp_ret.
          split; [|done]. rewrite bool_decide_eq_true_2; [done|].
          bal_arith; lia.
    - apply wp_bind. eapply wp_eq; [exact Hb'|].
      destruct (Z.of_nat (depth l) - Z.of_nat (depth r) <? 0) eqn:Hb3.
      + (* right heavy *)
        destruct r as [|B x C]; [bal_arith; lia|].
        pose proof Hwr as (Hrx & xn & Hxn & Hpx & HwB & HwC).
        destruct Hbr as (Hbx & HbB & HbC).
        apply wp_bind. eapply wp_load; [exact Hn|]. rewrite Hrx.
        apply wp_bind. apply wp_assert_ptr.
        apply wp_bind. eapply wp_eq; [exact Hbx|]. cbn [bal].
        destruct (Z.of_nat (depth B) - Z.of_nat (depth C) <? 0) eqn:Hb1.
        * apply wp_bind.
          eapply wp_mono;
            [by apply (rotate_rr_wf s _ a x (ctx_parent c) l B C)|].
          intros [] s1 (Hset & Hwf1 & Hfr1). apply wp_ret.
          split; [|done]. rewrite bool_decide_eq_false_2; [done|].
          bal_arith; lia.
        * apply wp_bind. eapply wp_load; [exact Hn|]. rewrite Hrx.
          apply wp_bind. apply wp_assert_ptr.
          apply wp_bind. eapply wp_eq; [exact Hbx|].
          destruct (Z.of_nat (depth B) - Z.of_nat (depth C) >? 0) eqn:Hb2.
          -- destruct B as [|B1 b B2]; [bal_arith; lia|].
             apply wp_bind.
             eapply wp_mono;
               [by apply (rotate_rl_wf s _ a x b (ctx_parent c) l B1 B2 C)|].
             intros [] s1 (Hset & Hwf1 & Hfr1). apply wp_ret.
             split; [|done]. rewrite bool_decide_eq_false_2; [done|].
             bal_arith; lia.
          -- apply wp_bind.
             eapply wp_mono;
               [by apply (rotate_rr_wf s _ a x (ctx_parent c) l B C)|].
             intros [] s1 (Hset & Hwf1 & Hfr1). apply wp_ret.
             split; [|done]. rewrite bool_decide_eq_true_2; [done|].
             bal_arith; lia.
      + apply wp_ret. split; [done|]. split; [by apply slot_set_refl|].
        split; [done|]. by intros x _. }
  intros flag s1 (Hflag & Hset & Hwf1 & Hfr1). cbn beta.
  set (t' := rebalance t) in *.
  assert (He : elements (plug c t') = elements (plug c t))
    by apply elements_plug_same, rebalance_elements.
  assert (Hc1 : ctx_wf (heap s1) (root s1) c (root_of t')).
  { eapply ctx_wf_update; [exact Hc|done|exact Hset|].
    intros x Hx Hno. apply Hfr1. rewrite not_elem_of_app. split; [|done].
    intros Hxt. by apply (Hdisj x). }
  assert (HwT : wf (heap s1) (root s1) None (plug c t'))
    by (apply wf_plug; eauto).
  assert (∃ a0, root s1 = Some a0) as [a0 Ha0].
  { rewrite (root_of_wf _ _ _ _ HwT).
    destruct (plug c t') as [|L a0 R]; [|by eexists].
    assert (a ∈ elements (plug c t)) as Hin
      by (rewrite elements_plug; apply elem_of_app; by left).
    rewrite <- He in Hin. by apply elem_of_nil in Hin. }
  unfold avl_set_height_root.
  apply wp_bind. apply wp_bind. apply wp_get_root. rewrite Ha0.
  eapply wp_mono.
  { apply (avl_set_height_shape (plug c t') s1 a0 fuel).
    - rewrite <- Ha0. by eapply wf_shape.
    - by rewrite He.
    - pose proof (depth_plug_le c t t' (rebalance_depth t)). lia.
    - pose proof (depth_plug_le c t t' (rebalance_depth t)). lia. }
  intros [] s2 ([Hr2 Hl2] & Hh2 & Hfr2). apply wp_ret.
  split; [done|]. split; [|split; [done|]].
  - rewrite Hr2. by eapply wf_links.
  - intros x Hx. rewrite Hfr2 by (by rewrite He). apply Hfr1.
    rewrite elements_plug in Hx. apply not_elem_of_app in Hx as [Hxt Hxc].
    apply not_elem_of_app. split; [done|].
    intros Hin. by apply Hxc, ctx_owner_in.
Qed.

(** *** What the chosen rotation achieves *)

(** A node that is out of balance by two, over two AVL subtrees, is
    repaired: the result is an AVL tree, one level shallower unless the
    heavy child was level. *)
Lemma rebalance_avl l a r :
  let t := Node l a r in
  avl l → avl r →
  (depth l = depth r + 2 ∨ depth r = depth l + 2)%nat →
  avl (rebalance t) ∧
  depth (rebalance t) = (if tied t then depth t else depth t - 1)%nat.
Proof.
  intros t Hl Hr Hd. subst t. unfold rebalance, tied. cbn [bal].
  destruct (Z.of_nat (depth l) - Z.of_nat (depth r) >? 0) eqn:Hb0.
  - destruct l as [|A x B]; [bal_arith; lia|]. cbn [bal].
    destruct Hl as (HA & HB & HAB1 & HAB2).
    destruct (Z.of_nat (depth A) - Z.of_nat (depth B) >? 0) eqn:Hb1.
    + rewrite bool_decide_eq_false_2 by (bal_arith; lia).
      bal_arith. cbn [avl depth]. repeat split; try done; lia.
    + destruct (Z.of_nat (depth A) - Z.of_nat (depth B) <? 0) eqn:Hb2.
      * rewrite bool_decide_eq_false_2 by (bal_arith; lia).
        destruct B as [|B1 b B2]; [bal_arith; lia|].
        destruct HB as (HB1 & HB2 & HB12 & HB21).
        bal_arith. cbn [avl depth]. repeat split; try done; lia.
      * rewrite bool_decide_eq_true_2 by (bal_arith; lia).
        bal_arith. cbn [avl depth]. repeat split; try done; lia.
  - destruct (Z.of_nat (depth l) - Z.of_nat (depth r) <? 0) eqn:Hb3;
      [|bal_arith; lia].
    destruct r as [|B x C]; [bal_arith; lia|]. cbn [bal].
    destruct Hr as (HB & HC & HBC1 & HBC2).
    destruct (Z.of_nat (depth B) - Z.of_nat (depth C) <? 0) eqn:Hb1.
    + rewrite bool_decide_eq_false_2 by (bal_arith; lia).
      bal_arith. cbn [avl depth]. repeat split; try done; lia.
    + destruct (Z.of_nat (depth B) - Z.of_nat (depth C) >? 0) eqn:Hb2.
      * rewrite bool_decide_eq_false_2 by (bal_arith; lia).
        destruct B as [|B1 b B2]; [bal_arith; lia|].
        destruct HB as (HB1 & HB2 & HB12 & HB21).
        bal_arith. cbn [avl depth]. repeat split; try done; lia.
      * rewrite bool_decide_eq_true_2 by (bal_arith; lia).
        bal_arith. cbn [avl depth]. repeat split; try done; lia.
Qed.

(** ** The loop of [avl_add] on whole trees *)

Lemma walk_up_unbalanced c t :
  balanced t = false → walk_up c t = plug c (rebalance t).
Proof. intros H. destruct c; cbn [walk_up]; by rewrite H. Qed.

Lemma is_balanced_root s l a r :
  shape (heap s) (Some a) (Node l a r) → heights_ok (heap s) (Node l a r) →
  Z.of_nat (depth (Node l a r)) <= INT_MAX →
  avl_is_balanced a s = Done (balanced (Node l a r), s).
Proof.
  intros Hsh Hh Hmax. unfold avl_is_balanced.
  by rewrite (bind_step _ _ _ _ _ (balance_root _ _ _ _ Hsh Hh Hmax)).
Qed.

Lemma walk_is_balanced c l a r s :
  wf (heap s) (root s) None (plug c (Node l a r)) →
  heights_ok (heap s) (plug c (Node l a r)) →
  Z.of_nat (depth (plug c (Node l a r))) <= INT_MAX →
  avl_is_balanced a s = Done (balanced (Node l a r), s).
Proof.
  intros Hwf Hh Hmax.
  pose proof Hwf as (q & Hc & Hwt)%wf_plug.
  pose proof (root_of_wf _ _ _ _ Hwt) as Hq. cbn in Hq. subst q.
  pose proof (depth_plug_ge c (Node l a r)) as Hdt.
  apply is_balanced_root;
    [by eapply wf_shape|by eapply heights_ok_sub|lia].
Qed.

Lemma walk_parent c l a r s :
  wf (heap s) (root s) None (plug c (Node l a r)) →
  ∃ n, heap s !! a = Some n ∧ parent n = ctx_parent c.
Proof.
  intros (q & Hc & Hwt)%wf_plug.
  destruct Hwt as (_ & n & Hn & Hp & _). eauto.
Qed.

(** A balanced node: the loop moves on to the parent. *)
Lemma add_walk_climb c l a r s fuel_h f :
  wf (heap s) (root s) None (plug c (Node l a r)) →
  heights_ok (heap s) (plug c (Node l a r)) →
  Z.of_nat (depth (plug c (Node l a r))) <= INT_MAX →
  balanced (Node l a r) = true →
  avl_add_walk fuel_h (S f) (Some a) s
  = avl_add_walk fuel_h f (ctx_parent c) s.
Proof.
  intros Hwf Hh Hmax Hbal. cbn [avl_add_walk].
  rewrite (bind_step _ _ _ _ _ (walk_is_balanced _ _ _ _ _ Hwf Hh Hmax)).
  rewrite Hbal. cbn [negb].
  destruct (walk_parent _ _ _ _ _ Hwf) as (n & Hn & Hp).
  by rewrite (bind_step _ _ _ _ _ (load_step _ _ _ Hn)), Hp.
Qed.

(** The first node out of balance: one call of the driver and out. *)
Lemma add_walk_stop c l a r s fuel_h f :
  wf (heap s) (root s) None (plug c (Node l a r)) →
  heights_ok (heap s) (plug c (Node l a r)) →
  NoDup (elements (plug c (Node l a r))) →
  (depth (plug c (Node l a r)) ≤ fuel_h)%nat →
  Z.of_nat (depth (plug c (Node l a r))) <= INT_MAX →
  balanced (Node l a r) = false →
  wp (avl_add_walk fuel_h (S f) (Some a)) s (λ _ s',
    wf (heap s') (root s') None (plug c (rebalance (Node l a r))) ∧
    heights_ok (heap s') (plug c (rebalance (Node l a r))) ∧
    frame (elements (plug c (Node l a r))) s s').
Proof.
  intros Hwf Hh Hnd Hfh Hmax Hbal. cbn [avl_add_walk].
  apply wp_bind.
  eapply wp_eq; [exact (walk_is_balanced _ _ _ _ _ Hwf Hh Hmax)|].
  rewrite Hbal. cbn [negb]. apply wp_bind.
  eapply wp_mono; [by apply do_balancing_tree|].
  intros flag s' (_ & ? & ? & ?). by apply wp_ret.
Qed.

Lemma add_walk_tree c :
  ∀ l a r s fuel_h fuel,
    let t := Node l a r in
    wf (heap s) (root s) None (plug c t) →
    heights_ok (heap s) (plug c t) →
    NoDup (elements (plug c t)) →
    (depth (plug c t) ≤ fuel_h)%nat →
    Z.of_nat (depth (plug c t)) <= INT_MAX →
    (ctx_depth c < fuel)%nat →
    wp (avl_add_walk fuel_h fuel (Some a)) s (λ _ s',
      wf (heap s') (root s') None (walk_up c t) ∧
      heights_ok (heap s') (walk_up c t) ∧
      frame (elements (plug c t)) s s').
Proof.
  induction c as [|c IH p pr|c IH pl p];
    intros l a r s fuel_h fuel t Hwf Hh Hnd Hfh Hmax Hfuel;
    (destruct fuel as [|f]; [cbn in Hfuel; lia|]);
    (destruct (balanced t) eqn:Hbal;
     [|rewrite walk_up_unbalanced by done; by apply add_walk_stop]);
    unfold wp; erewrite add_walk_climb by done;
    cbn [ctx_parent walk_up]; rewrite Hbal.
  - by destruct f.
  - apply (IH t p pr); try done. cbn in Hfuel. lia.
  - apply (IH pl p t); try done. cbn in Hfuel. lia.
Qed.

(** ** Linking a new first node: the trees *)

Lemma elements_ins_min x t : elements (ins_min x t) = x :: elements t.
Proof.
  induction t as [|l IHl a r _]; [done|]. cbn [ins_min elements].
  by rewrite IHl.
Qed.

Lemma bst_ins_min key x t :
  bst key t → (∀ y, y ∈ elements t → key x < key y) →
  bst key (ins_min x t).
Proof.
  induction t as [|l IHl a r _]; intros Hb Hlt; cbn [ins_min bst elements].
  - repeat split; by intros y ?%elem_of_nil.
  - destruct Hb as (Hl & Hr & Hla & Har). cbn [elements] in Hlt.
    split; [|split; [done|split; [|done]]].
    + apply IHl; [done|]. intros y Hy. apply Hlt, elem_of_app. by left.
    + intros y Hy. rewrite elements_ins_min in Hy.
      apply elem_of_cons in Hy as [->|Hy]; [|by apply Hla].
      apply Hlt, elem_of_app. right. by left.
Qed.

Lemma plug_lctx x t : ∀ c, plug (lctx c t) (Node Leaf x Leaf) = plug c (ins_min x t).
Proof.
  induction t as [|l IHl a r _]; intros c; [done|].
  cbn [lctx ins_min]. by rewrite IHl.
Qed.

Lemma ctx_depth_lctx t : ∀ c, (ctx_depth (lctx c t) ≤ ctx_depth c + depth t)%nat.
Proof.
  induction t as [|l IHl a r _]; intros c; cbn [lctx depth]; [lia|].
  specialize (IHl (InL c a r)). cbn [ctx_depth] in IHl. lia.
Qed.

Lemma depth_ins_min x t : (depth (ins_min x t) ≤ S (depth t))%nat.
Proof.
  induction t as [|l IHl a r _]; cbn [ins_min depth]; lia.
Qed.

Lemma avl_balanced t : avl t → balanced t = true.
Proof.
  destruct t as [|l a r]; [done|]. intros (_ & _ & H1 & H2).
  unfold balanced, bal.
  destruct (_ <? _) eqn:E1; [apply Z.ltb_lt in E1; lia|].
  destruct (_ >? _) eqn:E2; [apply Z.gtb_lt in E2; lia|]. done.
Qed.

Lemma avl_plug_sub c : ∀ t, avl (plug c t) → avl t.
Proof.
  induction c as [|c IH a r|c IH l a]; intros t H; [done|..];
    apply IH in H; by destruct H as (? & ? & _).
Qed.

Lemma avl_plug_replace c :
  ∀ t t', avl (plug c t) → avl t' → depth t' = depth t → avl (plug c t').
Proof.
  induction c as [|c IH a r|c IH l a]; intros t t' H Ht Hd; [done|..];
    cbn [plug] in *.
  - eapply IH; [exact H| |cbn [depth]; by rewrite Hd].
    apply avl_plug_sub in H. destruct H as (_ & ? & ? & ?).
    cbn [avl]. rewrite Hd. done.
  - eapply IH; [exact H| |cbn [depth]; by rewrite Hd].
    apply avl_plug_sub in H. destruct H as (? & _ & ? & ?).
    cbn [avl]. rewrite Hd. done.
Qed.

Lemma walk_up_avl c : ∀ t, avl (plug c t) → walk_up c t = plug c t.
Proof.
  induction c as [|c IH a r|c IH l a]; intros t H; cbn [walk_up plug];
    rewrite (avl_balanced t) by (by eapply avl_plug_sub); [done|..];
    by apply IH.
Qed.

(** Linking in front of an AVL tree and climbing: either the subtree grew
    by one level, stayed AVL and the climb goes on above it, or the
    extra level was absorbed and the climb changes nothing further. *)
Lemma walk_lctx x t :
  ∀ c, avl (plug c t) →
    (walk_up (lctx c t) (Node Leaf x Leaf) = walk_up c (ins_min x t) ∧
     avl (ins_min x t) ∧ depth (ins_min x t) = S (depth t) ∧
     (t = Leaf ∨ bal (ins_min x t) = 1)) ∨
    (∃ t1, walk_up (lctx c t) (Node Leaf x Leaf) = plug c t1 ∧
           avl t1 ∧ depth t1 = depth t ∧
           elements t1 = x :: elements t ∧
           ∀ key, bst key (ins_min x t) → bst key t1).
Proof.
  induction t as [|l IHl a r _]; intros c Hc.
  - left. cbn. repeat split; auto; lia.
  - pose proof (avl_plug_sub _ _ Hc) as (Hl & Hr & Hlr & Hrl).
    cbn [lctx ins_min]. destruct (IHl (InL c a r) Hc) as
      [(Hw & Hl1 & Hd1 & Hb1)|(l1 & Hw & Hl1 & Hd1 & He1 & Hbst1)].
    + rewrite Hw. cbn [walk_up]. rewrite (avl_balanced _ Hl1).
      set (l1 := ins_min x l) in *.
      destruct (decide (depth l = depth r)) as [Heq|Hne];
        [|destruct (decide (depth l < depth r)%nat) as [Hlt|Hgt]].
      * left. split; [done|]. cbn [avl depth bal].
        split; [repeat split; try done; lia|]. split; [lia|]. right. lia.
      * right. exists (Node l1 a r).
        assert (Hav : avl (Node l1 a r))
          by (cbn [avl]; repeat split; try done; lia).
        split; [|split; [done|split; [cbn [depth]; lia|split; [|done]]]].
        -- apply walk_up_avl. eapply avl_plug_replace; [exact Hc|done|].
           cbn [depth]. lia.
        -- cbn [elements]. unfold l1. by rewrite elements_ins_min.
      * right. exists (rebalance (Node l1 a r)).
        assert (Hbal : balanced (Node l1 a r) = false).
        { unfold balanced, bal.
          destruct (_ >? _) eqn:E2; [by rewrite orb_true_r|].
          rewrite Z.gtb_ltb in E2. apply Z.ltb_ge in E2. lia. }
        rewrite walk_up_unbalanced by done.
        destruct (rebalance_avl l1 a r Hl1 Hr ltac:(lia)) as [Hav Hdep].
        assert (Htied : tied (Node l1 a r) = false).
        { unfold tied. cbn [bal].
          destruct (_ >? _) eqn:E2;
            [|rewrite Z.gtb_ltb in E2; apply Z.ltb_ge in E2; lia].
          apply bool_decide_eq_false_2.
          destruct Hb1 as [->|Hb1]; [cbn in *; lia|lia]. }
        rewrite Htied in Hdep.
        split; [done|]. split; [done|]. split; [cbn [depth] in *; lia|].
        split; [|intros key; apply rebalance_bst].
        rewrite rebalance_elements. cbn [elements]. unfold l1.
        by rewrite elements_ins_min.
    + right. exists (Node l1 a r). rewrite Hw. cbn [plug].
      split; [done|]. split; [cbn [avl]; rewrite Hd1; done|].
      split; [cbn [depth]; by rewrite Hd1|].
      split; [cbn [elements]; by rewrite He1|].
      intros key. apply bst_left_subst; [|apply Hbst1].
      by rewrite He1, elements_ins_min.
Qed.

(** The tree that [avl_add] builds when the new node goes in front. *)
Lemma walk_ins_min x t :
  avl t →
  let t' := walk_up (lctx Top t) (Node Leaf x Leaf) in
  avl t' ∧ elements t' = x :: elements t ∧
  (∀ key, bst key (ins_min x t) → bst key t') ∧
  (depth t ≤ depth t' ≤ S (depth t))%nat.
Proof.
  intros Ht t'. subst t'.
  destruct (walk_lctx x t Top Ht) as
    [(Hw & Ht1 & Hd1 & _)|(t1 & Hw & Ht1 & Hd1 & He1 & Hb1)]; rewrite Hw.
  - rewrite (walk_up_avl Top) by done. cbn [plug].
    split; [done|]. split; [apply elements_ins_min|]. split; [done|]. lia.
  - cbn [plug]. repeat split; try done; lia.
Qed.

(** ** Linking a new first node: the memory *)

Lemma add_link_min cmp node nn t :
  ∀ s rt par fuel,
    wf (heap s) rt par t → NoDup (elements t) →
    (∀ y, y ∈ elements t → cmp node y < 0) →
    node ∉ elements t →
    heap s !! node = Some nn → left nn = None → right nn = None →
    (depth t ≤ fuel)%nat →
    wp (__avl_add fuel cmp rt par node) s (λ v s',
      v = root_of (ins_min node t) ∧
      wf (heap s') v par (ins_min node t) ∧
      root s' = root s ∧
      frame (node :: elements t) s s').
Proof.
  induction t as [|l IHl a r _];
    intros s rt par fuel Hwf Hnd Hlt Hfresh Hnode Hnl Hnr Hfuel.
  - cbn in Hwf. subst rt. destruct fuel; cbn [__avl_add];
      (apply wp_bind; eapply wp_set_parent; [exact Hnode|]; apply wp_ret;
       cbn [ins_min root_of wf heap root];
       split; [done|]; split;
       [split; [done|]; eexists;
        split; [apply lookup_insert_eq|]; cbn [parent left right];
        by rewrite Hnl, Hnr
       |split; [done|]; intros x Hx; cbn [heap];
        apply lookup_insert_ne; intros ->; apply Hx; by left]).
  - destruct Hwf as (-> & n & Hn & Hp & Hwl & Hwr).
    apply NoDup_elements_node in Hnd as (Hndl & Hndr & Hal & Har & Hlr).
    cbn [elements] in Hlt, Hfresh.
    apply not_elem_of_app in Hfresh as [Hfl Hfresh].
    apply not_elem_of_cons in Hfresh as [Hna Hfr].
    cbn [depth] in Hfuel. destruct fuel as [|f]; [lia|].
    cbn [__avl_add].
    assert (Hca : (cmp node a <? 0) = true).
    { apply Z.ltb_lt, Hlt, elem_of_app. right. by left. }
    rewrite Hca.
    apply wp_bind. eapply wp_load; [exact Hn|].
    apply wp_bind.
    eapply wp_mono.
    { apply (IHl s (left n) (Some a) f); try done; [|lia].
      intros y Hy. apply Hlt, elem_of_app. by left. }
    intros v s1 (Hv & Hwf1 & Hroot1 & Hfr1). cbn beta.
    assert (Ha1 : heap s1 !! a = Some n).
    { rewrite Hfr1; [done|]. apply not_elem_of_cons. split; [done|done]. }
    apply wp_bind. eapply wp_set_left; [exact Ha1|]. apply wp_ret.
    cbn [ins_min root_of wf heap root].
    split; [done|]. split; [|split; [done|]].
    + split; [done|]. eexists. split; [apply lookup_insert_eq|].
      cbn [parent left right]. split; [done|]. split.
      * eapply wf_same; [|exact Hwf1]. intros x Hx.
        apply lookup_insert_ne. intros ->.
        rewrite elements_ins_min in Hx.
        apply elem_of_cons in Hx as [?|?]; done.
      * eapply wf_same; [|exact Hwr]. intros x Hx. cbn [heap].
        rewrite lookup_insert_ne by (by intros ->).
        apply Hfr1. apply not_elem_of_cons. split; [by intros ->|].
        intros Hxl. by apply (Hlr x).
    + intros x Hx. cbn [elements] in Hx.
      apply not_elem_of_cons in Hx as [Hxn Hx].
      apply not_elem_of_app in Hx as [Hxl Hx].
      apply not_elem_of_cons in Hx as [Hxa Hxr]. cbn [heap].
      rewrite lookup_insert_ne by done.
      apply Hfr1. apply not_elem_of_cons. done.
Qed.

Lemma cmp_key_lt key a b : key a < key b → cmp_key key a b < 0.
Proof. intros H. unfold cmp_key. apply Z.ltb_lt in H. by rewrite H. Qed.

Lemma ins_min_node x t : ∃ l a r, ins_min x t = Node l a r.
Proof. destruct t; cbn; eauto. Qed.

Lemma avl_add_min_wp key t s node nn fuel :
  wf (heap s) (root s) None t →
  NoDup (elements t) → avl t → bst key t →
  node ∉ elements t →
  heap s !! node = Some nn → left nn = None → right nn = None →
  (∀ y, y ∈ elements t → key node < key y) →
  (depth t < fuel)%nat → Z.of_nat (depth t) < INT_MAX →
  wp (avl_add fuel (cmp_key key) node) s (λ _ s',
    ∃ t', wf (heap s') (root s') None t' ∧ heights_ok (heap s') t' ∧
          avl t' ∧ bst key t' ∧ elements t' = node :: elements t ∧
          (depth t ≤ depth t' ≤ S (depth t))%nat ∧
          frame (node :: elements t) s s').
Proof.
  intros Hwf Hnd Havl Hbst Hfresh Hnode Hnl Hnr Hlt Hfuel Hmax.
  set (t1 := ins_min node t).
  assert (He1 : elements t1 = node :: elements t)
    by apply elements_ins_min.
  assert (Hnd1 : NoDup (elements t1))
    by (rewrite He1; by apply NoDup_cons).
  pose proof (depth_ins_min node t) as Hd1. fold t1 in Hd1.
  unfold avl_add.
  apply wp_bind. apply wp_get_root.
  apply wp_bind.
  eapply wp_mono.
  { apply (add_link_min (cmp_key key) node nn t s (root s) None fuel);
      try done; [|lia].
    intros y Hy. by apply cmp_key_lt, Hlt. }
  intros v s1 (Hv & Hwf1 & _ & Hfr1). cbn beta. fold t1 in Hv, Hwf1.
  apply wp_bind. apply wp_set_root.
  set (s2 := mk_state (heap s1) v).
  destruct (ins_min_node node t) as (l1 & a1 & r1 & Ht1). fold t1 in Ht1.
  assert (Hv' : v = Some a1) by (by rewrite Hv, Ht1).
  (* the heights *)
  apply wp_bind. unfold avl_set_height_root.
  apply wp_bind. apply wp_get_root. cbn [root s2]. rewrite Hv'.
  eapply wp_mono.
  { apply (avl_set_height_shape t1 s2 a1 fuel); [|done|lia|lia].
    rewrite <- Hv'. by eapply wf_shape. }
  intros [] s3 ([Hr3 Hl3] & Hh3 & Hfr3). cbn beta.
  assert (Hwf3 : wf (heap s3) (root s3) None t1).
  { rewrite Hr3. eapply wf_links; [exact Hl3|done]. }
  (* the climb *)
  pose proof (plug_lctx node t Top) as Hplug. cbn [plug] in Hplug.
  fold t1 in Hplug.
  pose proof (ctx_depth_lctx t Top) as Hcd. cbn [ctx_depth] in Hcd.
  eapply wp_mono.
  { apply (add_walk_tree (lctx Top t) Leaf node Leaf s3 fuel fuel);
      rewrite ?Hplug; try done; lia. }
  intros [] s4 (Hwf4 & Hh4 & Hfr4). cbn beta.
  destruct (walk_ins_min node t Havl) as (Hav & He & Hb & Hd).
  eexists. split; [exact Hwf4|]. split; [exact Hh4|].
  split; [done|]. split; [by apply Hb, bst_ins_min|].
  split; [done|]. split; [done|].
  intros x Hx. rewrite Hplug in Hfr4.
  rewrite Hfr4 by (by rewrite He1). rewrite Hfr3 by (by rewrite He1).
  by apply Hfr1.
Qed.

(** X9.  [avl_do_balancing] at a node that is out of balance by two, over
    two AVL subtrees, anywhere in a well-formed tree whose height fields
    are right: the call completes, the subtree in that position is an AVL
    tree over the same nodes in the same order, the whole tree is
    well-formed with right height fields again, and the result is [FALSE]
    exactly when the subtree kept its depth (otherwise the subtree is one
    level shallower).  Nothing outside the tree is touched. *)
Theorem avl_do_balancing_restores (key : nat → Z) c l a r s fuel :
  let t := Node l a r in
  wf (heap s) (root s) None (plug c t) →
  heights_ok (heap s) (plug c t) →
  NoDup (elements (plug c t)) →
  (depth (plug c t) ≤ fuel)%nat →
  Z.of_nat (depth (plug c t)) <= INT_MAX →
  avl l → avl r →
  (depth l = depth r + 2 ∨ depth r = depth l + 2)%nat →
  ∃ flag s' t',
    avl_do_balancing fuel a s = Done (flag, s') ∧
    wf (heap s') (root s') None (plug c t') ∧
    heights_ok (heap s') (plug c t') ∧
    avl t' ∧ elements t' = elements t ∧ (bst key t → bst key t') ∧
    depth t' = (if flag then depth t - 1 else depth t)%nat ∧
    frame (elements (plug c t)) s s'.
Proof.
  intros t Hwf Hh Hnd Hfuel Hmax Hl Hr Hd.
  pose proof (do_balancing_tree c l a r s fuel Hwf Hh Hnd Hfuel Hmax) as H.
  apply wp_Done in H as (flag & s' & Hrun & -> & Hwf' & Hh' & Hfr).
  destruct (rebalance_avl l a r Hl Hr Hd) as [Hav Hdep].
  exists (negb (tied t)), s', (rebalance t).
  split; [done|]. split; [done|]. split; [done|]. split; [done|].
  split; [apply rebalance_elements|]. split; [apply rebalance_bst|].
  split; [|done]. fold t in Hdep. rewrite Hdep. by destruct (tied t).
Qed.

(** X10.  [avl_add] of a node that compares below every node of an AVL
    search tree: given a well-formed tree, a detached node whose child
    fields are NULL, and fuel for the depth, the call completes and
    leaves a well-formed AVL search tree with right height fields whose
    in-order sequence is the new node followed by the old sequence; no
    node outside the tree and the new node is touched. *)
Theorem avl_add_new_minimum key t s node nn fuel :
  wf (heap s) (root s) None t →
  NoDup (elements t) → avl t → bst key t →
  node ∉ elements t →
  heap s !! node = Some nn → left nn = None → right nn = None →
  (∀ y, y ∈ elements t → key node < key y) →
  (depth t < fuel)%nat → Z.of_nat (depth t) < INT_MAX →
  ∃ s' t',
    avl_add fuel (cmp_key key) node s = Done (tt, s') ∧
    wf (heap s') (root s') None t' ∧ heights_ok (heap s') t' ∧
    avl t' ∧ bst key t' ∧ elements t' = node :: elements t ∧
    frame (node :: elements t) s s'.
Proof.
  intros Hwf Hnd Havl Hbst Hfresh Hnode Hnl Hnr Hlt Hfuel Hmax.
  pose proof (avl_add_min_wp key t s node nn fuel Hwf Hnd Havl Hbst Hfresh
                Hnode Hnl Hnr Hlt Hfuel Hmax) as H.
  apply wp_Done in H as ([] & s' & Hrun & t' & ? & ? & ? & ? & ? & _ & ?).
  by exists s', t'.
Qed.

(** ** Nodes added in descending order *)

Lemma depth_le_size t : (depth t ≤ length (elements t))%nat.
Proof.
  induction t as [|l IHl a r IHr]; [done|]. cbn [depth elements].
  rewrite length_app. cbn [length]. lia.
Qed.

Lemma fresh_state_lookup nodes x :
  x ∈ nodes → heap (fresh_state nodes) !! x = Some blank.
Proof.
  unfold fresh_state. cbn [heap].
  induction nodes as [|a nodes IH]; [by intros ?%elem_of_nil|].
  intros Hx. cbn [fmap list_fmap list_to_map foldr].
  destruct (decide (x = a)) as [->|Hne]; [apply lookup_insert_eq|].
  rewrite lookup_insert_ne by done. apply IH.
  apply elem_of_cons in Hx as [?|?]; done.
Qed.

Lemma add_descending_wp key fuel :
  ∀ nodes s t,
    wf (heap s) (root s) None t → heights_ok (heap s) t →
    avl t → bst key t →
    NoDup (nodes ++ elements t) →
    (∀ x, x ∈ nodes →
          ∃ nn, heap s !! x = Some nn ∧ left nn = None ∧ right nn = None) →
    descending key nodes →
    (∀ x y, x ∈ nodes → y ∈ elements t → key x < key y) →
    (length nodes + length (elements t) ≤ fuel)%nat →
    Z.of_nat fuel <= INT_MAX →
    wp (run_ops fuel (cmp_key key) (Add <$> nodes)) s (λ _ s',
      ∃ t', wf (heap s') (root s') None t' ∧ heights_ok (heap s') t' ∧
            avl t' ∧ bst key t' ∧
            elements t' = reverse nodes ++ elements t ∧
            frame (nodes ++ elements t) s s').
Proof.
  induction nodes as [|x nodes IH];
    intros s t Hwf Hh Havl Hbst Hnd Hblank Hdesc Hlt Hfuel Hmax.
  - apply wp_ret. exists t. repeat split; try done. 
  - cbn [fmap list_fmap run_ops run_op].
    cbn [app] in Hnd. apply NoDup_cons in Hnd as [Hx Hnd].
    apply not_elem_of_app in Hx as [Hxn Hxt].
    apply NoDup_app in Hnd as (Hndn & Hdisj & Hndt).
    destruct (Hblank x ltac:(by left)) as (nn & Hnode & Hnl & Hnr).
    destruct Hdesc as [Hhead Hdesc].
    pose proof (depth_le_size t) as Hds. cbn [length] in Hfuel.
    apply wp_bind.
    eapply wp_mono.
    { apply (avl_add_min_wp key t s x nn fuel); try done; try lia.
      intros y Hy. apply Hlt; [by left|done]. }
    intros [] s1 (t1 & Hwf1 & Hh1 & Havl1 & Hbst1 & He1 & _ & Hfr1).
    cbn beta.
    eapply wp_mono.
    { apply (IH s1 t1); try done.
      - rewrite He1. apply NoDup_app. split; [done|]. split.
        + intros y Hy [->|Hyt]%elem_of_cons; [done|]. by apply (Hdisj y).
        + by apply NoDup_cons.
      - intros y Hy. destruct (Hblank y ltac:(by right)) as (yn & Hyn & ?).
        exists yn. split; [|done]. rewrite Hfr1; [done|].
        apply not_elem_of_cons. split; [by intros ->|]. by apply Hdisj.
      - intros y z Hy. rewrite He1. intros [->|Hz]%elem_of_cons.
        + by apply Hhead.
        + apply Hlt; [by right|done].
      - rewrite He1. cbn [length]. lia. }
    intros [] s2 (t2 & Hwf2 & Hh2 & Havl2 & Hbst2 & He2 & Hfr2). cbn beta.
    exists t2. do 4 (split; [done|]). split.
    + rewrite He2, He1, reverse_cons, <- app_assoc. done.
    + intros y Hy. cbn [app] in Hy.
      apply not_elem_of_cons in Hy as [Hyx Hy].
      apply not_elem_of_app in Hy as [Hyn Hyt].
      rewrite Hfr2.
      * apply Hfr1. apply not_elem_of_cons. done.
      * rewrite He1. apply not_elem_of_app. split; [done|].
        apply not_elem_of_cons. done.
Qed.

(** X11.  Adding nodes in strictly descending key order to an empty tree,
    from a memory where they are all cleared: every [avl_add] completes
    and the outcome is a well-formed AVL search tree with right height
    fields that holds exactly those nodes, in ascending order. *)
Theorem avl_add_descending key nodes fuel :
  NoDup nodes → descending key nodes →
  (length nodes ≤ fuel)%nat → Z.of_nat fuel <= INT_MAX →
  ∃ s' t',
    run_ops fuel (cmp_key key) (Add <$> nodes) (fresh_state nodes)
    = Done (tt, s') ∧
    wf (heap s') (root s') None t' ∧ heights_ok (heap s') t' ∧
    avl t' ∧ bst key t' ∧ elements t' = reverse nodes.
Proof.
  intros Hnd Hdesc Hfuel Hmax.
  pose proof (add_descending_wp key fuel nodes (fresh_state nodes) Leaf) as H.
  cbn [elements] in H. rewrite !app_nil_r in H. cbn [length] in H.
  apply wp_Done in H as ([] & s' & Hrun & t' & ? & ? & ? & ? & ? & _);
    try done.
  - by exists s', t'.
  - intros x Hx. exists blank. by rewrite fresh_state_lookup.
  - by intros x y _ ?%elem_of_nil.
  - lia.
Qed.

(** ** The order of the arguments of [avl_swap_nodes] *)

Lemma fails_or_bind {A B} (m : M A) (k : A → M B) s Q :
  fails_or m s (λ a s1, fails_or (k a) s1 Q) → fails_or (bind m k) s Q.
Proof. unfold fails_or, bind. by destruct (m s) as [[a s1]| |]. Qed.

Lemma fails_or_wp {A} (m : M A) s Q : wp m s Q → fails_or m s Q.
Proof. unfold fails_or, wp. by destruct (m s) as [[a s1]| |]. Qed.

Lemma fails_or_fault {A} s (Q : A → avl_state → Prop) : fails_or fault s Q.
Proof. done. Qed.

Lemma fails_or_False {A} (m : M A) s :
  fails_or m s (λ _ _, False) → m s = Fault.
Proof. unfold fails_or. by destruct (m s) as [[a s1]| |]. Qed.

Ltac fault_step :=
  lazymatch goal with
  | |- fails_or (bind _ _) _ _ => apply fails_or_bind
  | |- fails_or fault _ _ => apply fails_or_fault
  | |- fails_or (ret _) _ _ => apply fails_or_wp
  | |- fails_or (load _) _ _ => apply fails_or_wp
  | |- fails_or (store _ _) _ _ => apply fails_or_wp
  | |- fails_or get_root _ _ => apply fails_or_wp
  | |- fails_or (set_root _) _ _ => apply fails_or_wp
  | |- fails_or (set_parent _ _) _ _ => apply fails_or_wp
  | |- fails_or (set_left _ _) _ _ => apply fails_or_wp
  | |- fails_or (set_right _ _) _ _ => apply fails_or_wp
  | |- fails_or (assert_ptr (Some _)) _ _ => apply fails_or_wp
  | |- fails_or (assert _) _ _ => apply fails_or_wp
  end.

Ltac fault_go :=
  repeat first
    [ fault_step
    | wp_step
    | progress cbn [heap root parent left right height]
    | wp_decide ].

Lemma swap_child_first_left s sl ch p pp o cn hp :
  heap s !! p = Some (mk_node pp (Some ch) o hp) →
  heap s !! ch = Some cn →
  holds_node s sl pp p →
  ch ≠ p →
  owner_free sl [ch; p] →
  inner_ok s sl [ch; p] o →
  avl_swap_nodes ch p s = Fault.
Proof.
  intros Hp Hc Hsl Hne Hown Ho. apply fails_or_False.
  unfold avl_swap_nodes, avl_swap_handle.
  destruct cn as [cp cl cr hc].
  destruct o as [o|]; destruct sl as [|p'|p'];
    cbn [holds_node owner_free] in *; distinct_hyps; subst;
    try match goal with
        | H : heap s !! p' = Some ?x |- _ =>
            destruct x; cbn [parent left right height] in *; subst
        end;
    rewrite bool_decide_eq_false_2 by done;
    fault_go.
Qed.

Lemma swap_child_first_right s sl ch p pp o cn hp :
  heap s !! p = Some (mk_node pp o (Some ch) hp) →
  heap s !! ch = Some cn →
  holds_node s sl pp p →
  ch ≠ p →
  owner_free sl [ch; p] →
  inner_ok s sl [ch; p] o →
  avl_swap_nodes ch p s = Fault.
Proof.
  intros Hp Hc Hsl Hne Hown Ho. apply fails_or_False.
  unfold avl_swap_nodes, avl_swap_handle.
  destruct cn as [cp cl cr hc].
  destruct o as [o|]; destruct sl as [|p'|p'];
    cbn [holds_node owner_free] in *; distinct_hyps; subst;
    try match goal with
        | H : heap s !! p' = Some ?x |- _ =>
            destruct x; cbn [parent left right height] in *; subst
        end;
    rewrite bool_decide_eq_false_2 by done;
    fault_go.
Qed.

Lemma ctx_holds_node s c p :
  ctx_wf (heap s) (root s) c (Some p) → p ∉ ctx_elements c →
  holds_node s (ctx_slot c) (ctx_parent c) p.
Proof.
  destruct c as [|c g gr|c gl g];
    cbn [ctx_wf ctx_slot ctx_parent holds_node ctx_elements].
  - by intros ->.
  - intros (gn & Hg & Hq & _) _. split; [done|]. eauto.
  - intros (gn & Hg & Hq & _ & Hl & _) Hp. split; [done|].
    exists gn. split; [done|]. split; [done|].
    intros Hlp. destruct (wf_root _ _ _ _ _ Hl Hlp) as [Hin _].
    apply Hp. right. apply elem_of_app. by left.
Qed.

Lemma wf_inner_ok s sl q par t xs :
  wf (heap s) q par t →
  (∀ x, x ∈ elements t → x ∉ xs) →
  owner_free sl (elements t) →
  inner_ok s sl xs q.
Proof.
  intros Hwf Hxs Hown. destruct q as [b|]; [|done].
  destruct (wf_root _ _ _ _ _ Hwf eq_refl) as (Hin & n & Hn & _).
  split; [by apply Hxs|]. split; [by exists n|].
  eapply owner_free_sub; [exact Hown|].
  by intros x ->%list_elem_of_singleton.
Qed.

(** X12.  [avl_swap_nodes] depends on the order of its arguments: called
    with a child first and its parent second, on any well-formed tree, it
    runs into [assert(FALSE)]. *)
Theorem avl_swap_nodes_child_first c l p r ch s :
  wf (heap s) (root s) None (plug c (Node l p r)) →
  NoDup (elements (plug c (Node l p r))) →
  root_of l = Some ch ∨ root_of r = Some ch →
  avl_swap_nodes ch p s = Fault.
Proof.
  intros Hwf Hnd Hch.
  apply wf_plug in Hwf as (q & Hc & Hwt).
  pose proof (root_of_wf _ _ _ _ Hwt) as Hq. cbn in Hq. subst q.
  destruct Hwt as (_ & pn & Hp & Hpp & Hwl & Hwr).
  destruct (NoDup_plug _ _ Hnd) as (Hndt & Hndc & Hdisj).
  apply NoDup_elements_node in Hndt as (Hndl & Hndr & Hpl & Hpr & Hlr).
  assert (Hpc : p ∉ ctx_elements c).
  { apply Hdisj. cbn. apply elem_of_app. right. by left. }
  pose proof (ctx_holds_node _ _ _ Hc Hpc) as Hsl.
  assert (Hownl : owner_free (ctx_slot c) (elements l)).
  { apply ctx_owner_free. intros x Hx. apply Hdisj. cbn.
    apply elem_of_app. by left. }
  assert (Hownr : owner_free (ctx_slot c) (elements r)).
  { apply ctx_owner_free. intros x Hx. apply Hdisj. cbn.
    apply elem_of_app. right. by right. }
  assert (Hownp : owner_free (ctx_slot c) [p]).
  { apply ctx_owner_free. by intros x ->%list_elem_of_singleton. }
  destruct pn as [pp pl pr hp]. cbn [parent left right] in *. subst pp.
  destruct Hch as [Hch|Hch].
  - rewrite <- (root_of_wf _ _ _ _ Hwl) in Hch. subst pl.
    destruct (wf_root _ _ _ _ _ Hwl eq_refl) as (Hin & cn & Hcn & _).
    eapply (swap_child_first_left s (ctx_slot c) ch p); try done.
    + by intros ->.
    + destruct (ctx_slot c); cbn [owner_free] in *; [done|..];
        rewrite !not_elem_of_cons; set_solver.
    + eapply wf_inner_ok; [exact Hwr| |done].
      intros x Hx. rewrite !not_elem_of_cons.
      split; [intros ->; by apply (Hlr ch)|].
      split; [by intros ->|apply not_elem_of_nil].
  - rewrite <- (root_of_wf _ _ _ _ Hwr) in Hch. subst pr.
    destruct (wf_root _ _ _ _ _ Hwr eq_refl) as (Hin & cn & Hcn & _).
    eapply (swap_child_first_right s (ctx_slot c) ch p); try done.
    + by intros ->.
    + destruct (ctx_slot c); cbn [owner_free] in *; [done|..];
        rewrite !not_elem_of_cons; set_solver.
    + eapply wf_inner_ok; [exact Hwl| |done].
      intros x Hx. rewrite !not_elem_of_cons.
      split; [intros ->; by apply (Hlr ch)|].
      split; [by intros ->|apply not_elem_of_nil].
Qed.

(** ** What [__avl_add] returns *)



(** ** Searching after an insertion *)

Lemma bst_key_inj key t :
  bst key t → ∀ x y, x ∈ elements t → y ∈ elements t →
  key x = key y → x = y.
Proof.
  induction t as [|l IHl a r IHr]; intros Hb x y Hx Hy Hk;
    [by apply elem_of_nil in Hx|].
  destruct Hb as (Hl & Hr & Hla & Har). cbn [elements] in Hx, Hy.
  apply elem_of_app in Hx as [Hx|[->|Hx]%elem_of_cons];
    apply elem_of_app in Hy as [Hy|[->|Hy]%elem_of_cons];
    try done;
    try (by apply IHl); try (by apply IHr);
    repeat match goal with
           | H : ?z ∈ elements l |- _ => apply Hla in H
           | H : ?z ∈ elements r |- _ => apply Har in H
           end; lia.
Qed.

Lemma find_member key t s fuel y :
  shape (heap s) (root s) t → bst key t → (depth t ≤ fuel)%nat →
  y ∈ elements t →
  avl_find fuel (cmp_key key) y s = Done (Some y, s).
Proof.
  intros Hsh Hb Hfuel Hy. unfold avl_find, bind, get_root.
  destruct (avl_find_spec key y t s (root s) fuel Hsh Hb Hfuel)
    as ([m|] & Hrun & Hm); rewrite Hrun.
  - destruct Hm as [Hin Hk]. by rewrite (bst_key_inj key t Hb m y Hin Hy Hk).
  - by destruct (Hm y Hy).
Qed.

(** X14.  Adding and then searching: after [avl_add] of a node that
    compares below every node of an AVL search tree, [avl_find] with the
    same comparator returns the new node when asked for it and every old
    node when asked for that one, and changes nothing. *)
Theorem avl_find_after_add key t s node nn fuel :
  wf (heap s) (root s) None t →
  NoDup (elements t) → avl t → bst key t →
  node ∉ elements t →
  heap s !! node = Some nn → left nn = None → right nn = None →
  (∀ y, y ∈ elements t → key node < key y) →
  (depth t < fuel)%nat → Z.of_nat (depth t) < INT_MAX →
  ∃ s', avl_add fuel (cmp_key key) node s = Done (tt, s') ∧
        ∀ y, y ∈ node :: elements t →
             avl_find fuel (cmp_key key) y s' = Done (Some y, s').
Proof.
  intros Hwf Hnd Havl Hbst Hfresh Hnode Hnl Hnr Hlt Hfuel Hmax.
  pose proof (avl_add_min_wp key t s node nn fuel Hwf Hnd Havl Hbst Hfresh
                Hnode Hnl Hnr Hlt Hfuel Hmax) as H.
  apply wp_Done in H
    as ([] & s' & Hrun & t' & Hwf' & _ & _ & Hb' & He' & Hd' & _).
  exists s'. split; [done|]. intros y Hy.
  apply (find_member key t'); [by eapply wf_shape|done|lia|by rewrite He'].
Qed.

(** ** The loop of [avl_del] on whole trees *)

Lemma balanced_avl l a r :
  balanced (Node l a r) = true → avl l → avl r → avl (Node l a r).
Proof.
  unfold balanced, bal. intros Hb Hl Hr.
  destruct (_ <? _) eqn:E1; [done|]. destruct (_ >? _) eqn:E2; [done|].
  apply Z.ltb_ge in E1. rewrite Z.gtb_ltb in E2. apply Z.ltb_ge in E2.
  cbn [avl]. repeat split; try done; lia.
Qed.

Lemma unbalanced_gap l a r :
  balanced (Node l a r) = false →
  (depth r + 2 ≤ depth l ∨ depth l + 2 ≤ depth r)%nat.
Proof.
  unfold balanced, bal. intros Hb.
  destruct (_ <? _) eqn:E1; [apply Z.ltb_lt in E1; lia|].
  destruct (_ >? _) eqn:E2; [apply Z.gtb_lt in E2; lia|]. done.
Qed.

(** Above a subtree that lost at most one level, the climb of [avl_del]
    restores the AVL condition everywhere. *)
Lemma del_climb_avl c :
  ∀ u x, avl (plug c x) → avl u →
         (depth u = depth x ∨ S (depth u) = depth x) →
         avl (del_climb c u).
Proof.
  induction c as [|c IH p r|c IH l p]; intros u x Hx Hu Hd; [done|..];
    cbn [plug del_climb] in *.
  - pose proof (avl_plug_sub _ _ Hx) as (Hxa & Hr & Hxr1 & Hxr2).
    destruct (balanced (Node u p r)) eqn:Hbal.
    + apply (IH _ (Node x p r)); [done|by apply balanced_avl|].
      pose proof (balanced_avl _ _ _ Hbal Hu Hr) as (_ & _ & ? & ?).
      cbn [depth]. lia.
    + apply unbalanced_gap in Hbal.
      destruct (rebalance_avl u p r Hu Hr ltac:(lia)) as [Hav Hdep].
      destruct (tied (Node u p r)).
      * eapply avl_plug_replace; [exact Hx|done|].
        rewrite Hdep. cbn [depth]. lia.
      * apply (IH _ (Node x p r)); [done|done|].
        rewrite Hdep. cbn [depth]. lia.
  - pose proof (avl_plug_sub _ _ Hx) as (Hl & Hxa & Hxr1 & Hxr2).
    destruct (balanced (Node l p u)) eqn:Hbal.
    + apply (IH _ (Node l p x)); [done|by apply balanced_avl|].
      pose proof (balanced_avl _ _ _ Hbal Hl Hu) as (_ & _ & ? & ?).
      cbn [depth]. lia.
    + apply unbalanced_gap in Hbal.
      destruct (rebalance_avl l p u Hl Hu ltac:(lia)) as [Hav Hdep].
      destruct (tied (Node l p u)).
      * eapply avl_plug_replace; [exact Hx|done|].
        rewrite Hdep. cbn [depth]. lia.
      * apply (IH _ (Node l p x)); [done|done|].
        rewrite Hdep. cbn [depth]. lia.
Qed.

Lemma del_climb_elements c :
  ∀ u, elements (del_climb c u) = elements (plug c u).
Proof.
  induction c as [|c IH p r|c IH l p]; intros u; [done|..];
    cbn [plug del_climb].
  - destruct (balanced _); [apply IH|]. destruct (tied _).
    + apply elements_plug_same, rebalance_elements.
    + rewrite IH. apply elements_plug_same, rebalance_elements.
  - destruct (balanced _); [apply IH|]. destruct (tied _).
    + apply elements_plug_same, rebalance_elements.
    + rewrite IH. apply elements_plug_same, rebalance_elements.
Qed.

Lemma del_climb_bst key c :
  ∀ u, bst key (plug c u) → bst key (del_climb c u).
Proof.
  induction c as [|c IH p r|c IH l p]; intros u; [done|..];
    cbn [plug del_climb].
  - destruct (balanced _); [apply IH|]. destruct (tied _).
    + apply bst_plug; [apply rebalance_elements|apply rebalance_bst].
    + intros Hb. apply IH. revert Hb.
      apply bst_plug; [apply rebalance_elements|apply rebalance_bst].
  - destruct (balanced _); [apply IH|]. destruct (tied _).
    + apply bst_plug; [apply rebalance_elements|apply rebalance_bst].
    + intros Hb. apply IH. revert Hb.
      apply bst_plug; [apply rebalance_elements|apply rebalance_bst].
Qed.

(** After a rotation the node that was out of balance hangs directly
    below the new root of its subtree. *)
Lemma rebalance_child l a r :
  balanced (Node l a r) = false →
  ∃ L x R, rebalance (Node l a r) = Node L x R ∧
           (root_of L = Some a ∨ root_of R = Some a).
Proof.
  intros Hbal. apply unbalanced_gap in Hbal. unfold rebalance. cbn [bal].
  destruct (Z.of_nat (depth l) - Z.of_nat (depth r) >? 0) eqn:Hb0.
  - destruct l as [|A x B]; [bal_arith; lia|]. cbn [bal].
    destruct (Z.of_nat (depth A) - Z.of_nat (depth B) >? 0) eqn:Hb1;
      [by eexists _, _, _; split; [|right]|].
    destruct (Z.of_nat (depth A) - Z.of_nat (depth B) <? 0) eqn:Hb2;
      [|by eexists _, _, _; split; [|right]].
    destruct B as [|B1 b B2]; [bal_arith; lia|].
    by eexists _, _, _; split; [|right].
  - destruct (Z.of_nat (depth l) - Z.of_nat (depth r) <? 0) eqn:Hb3;
      [|bal_arith; lia].
    destruct r as [|B x C]; [bal_arith; lia|]. cbn [bal].
    destruct (Z.of_nat (depth B) - Z.of_nat (depth C) <? 0) eqn:Hb1;
      [by eexists _, _, _; split; [|left]|].
    destruct (Z.of_nat (depth B) - Z.of_nat (depth C) >? 0) eqn:Hb2;
      [|by eexists _, _, _; split; [|left]].
    destruct B as [|B1 b B2]; [bal_arith; lia|].
    by eexists _, _, _; split; [|left].
Qed.

(** Where the loop of [avl_del] goes after a rotation that was not tied:
    two parent links up from the rotated node. *)
Lemma del_walk_resume c l a r s1 :
  balanced (Node l a r) = false →
  wf (heap s1) (root s1) None (plug c (rebalance (Node l a r))) →
  ∃ n x pn, heap s1 !! a = Some n ∧ parent n = Some x ∧
            heap s1 !! x = Some pn ∧ parent pn = ctx_parent c.
Proof.
  intros Hbal (q & Hc & Hwt)%wf_plug.
  destruct (rebalance_child l a r Hbal) as (L & x & R & He & Ha).
  rewrite He in Hwt.
  destruct Hwt as (_ & xn & Hx & Hpx & HwL & HwR).
  destruct Ha as [Ha|Ha].
  - rewrite <- (root_of_wf _ _ _ _ HwL) in Ha.
    destruct (wf_root _ _ _ _ _ HwL Ha) as (_ & n & Hn & Hp). eauto 10.
  - rewrite <- (root_of_wf _ _ _ _ HwR) in Ha.
    destruct (wf_root _ _ _ _ _ HwR Ha) as (_ & n & Hn & Hp). eauto 10.
Qed.

(** One round of the loop of [avl_del]. *)
Lemma del_walk_step c l a r s fuel_h f (Q : unit → avl_state → Prop) :
  let t := Node l a r in
  wf (heap s) (root s) None (plug c t) →
  heights_ok (heap s) (plug c t) →
  NoDup (elements (plug c t)) →
  (depth (plug c t) ≤ fuel_h)%nat →
  Z.of_nat (depth (plug c t)) <= INT_MAX →
  (balanced t = true → wp (avl_del_walk fuel_h f (ctx_parent c)) s Q) →
  (balanced t = false →
   ∀ s1, wf (heap s1) (root s1) None (plug c (rebalance t)) →
         heights_ok (heap s1) (plug c (rebalance t)) →
         frame (elements (plug c t)) s s1 →
         if tied t then Q tt s1
         else wp (avl_del_walk fuel_h f (ctx_parent c)) s1 Q) →
  wp (avl_del_walk fuel_h (S f) (Some a)) s Q.
Proof.
  intros t Hwf Hh Hnd Hfh Hmax Hyes Hno. cbn [avl_del_walk].
  apply wp_bind.
  eapply wp_eq; [exact (walk_is_balanced _ _ _ _ _ Hwf Hh Hmax)|].
  fold t. destruct (balanced t) eqn:Hbal; cbn [negb].
  - destruct (walk_parent _ _ _ _ _ Hwf) as (n & Hn & Hp).
    apply wp_bind. eapply wp_load; [exact Hn|]. rewrite Hp. by apply Hyes.
  - apply wp_bind.
    eapply wp_mono; [by apply do_balancing_tree|].
    intros flag s1 (-> & Hwf1 & Hh1 & Hfr1). cbn beta.
    specialize (Hno eq_refl s1 Hwf1 Hh1 Hfr1). fold t.
    destruct (tied t); cbn [negb]; [by apply wp_ret|].
    destruct (del_walk_resume c l a r s1 Hbal Hwf1)
      as (n & x & pn & Hn & Hp & Hx & Hpp).
    apply wp_bind. eapply wp_load; [exact Hn|]. rewrite Hp.
    apply wp_bind. eapply wp_load; [exact Hx|]. by rewrite Hpp.
Qed.

Lemma del_walk_tree c :
  ∀ u s fuel_h fuel,
    wf (heap s) (root s) None (plug c u) →
    heights_ok (heap s) (plug c u) →
    NoDup (elements (plug c u)) →
    (depth (plug c u) ≤ fuel_h)%nat →
    Z.of_nat (depth (plug c u)) <= INT_MAX →
    (ctx_depth c ≤ fuel)%nat →
    wp (avl_del_walk fuel_h fuel (ctx_parent c)) s (λ _ s',
      wf (heap s') (root s') None (del_climb c u) ∧
      heights_ok (heap s') (del_climb c u) ∧
      frame (elements (plug c u)) s s').
Proof.
  induction c as [|c IH p r|c IH l p];
    intros u s fuel_h fuel Hwf Hh Hnd Hfh Hmax Hfuel.
  - destruct fuel; by apply wp_ret.
  - cbn [ctx_depth] in Hfuel. destruct fuel as [|f]; [lia|].
    cbn [plug ctx_parent del_climb] in *.
    apply (del_walk_step c u p r); try done.
    + intros ->. apply IH; try done. lia.
    + intros -> s1 Hwf1 Hh1 Hfr1.
      pose proof (elements_plug_same c _ _ (rebalance_elements (Node u p r)))
        as He.
      pose proof (depth_plug_le c _ _ (rebalance_depth (Node u p r))) as Hd.
      destruct (tied _); [done|].
      eapply wp_mono; [apply IH; try done; rewrite ?He; try done; lia|].
      intros [] s' (? & ? & Hfr2). split; [done|]. split; [done|].
      intros y Hy. rewrite Hfr2 by (by rewrite He). by apply Hfr1.
  - cbn [ctx_depth] in Hfuel. destruct fuel as [|f]; [lia|].
    cbn [plug ctx_parent del_climb] in *.
    apply (del_walk_step c l p u); try done.
    + intros ->. apply IH; try done. lia.
    + intros -> s1 Hwf1 Hh1 Hfr1.
      pose proof (elements_plug_same c _ _ (rebalance_elements (Node l p u)))
        as He.
      pose proof (depth_plug_le c _ _ (rebalance_depth (Node l p u))) as Hd.
      destruct (tied _); [done|].
      eapply wp_mono; [apply IH; try done; rewrite ?He; try done; lia|].
      intros [] s' (? & ? & Hfr2). split; [done|]. split; [done|].
      intros y Hy. rewrite Hfr2 by (by rewrite He). by apply Hfr1.
Qed.

(** ** Unlinking a node with at most one child *)

Lemma splice_spec_full s sl node p c1 c2 h :
  heap s !! node = Some (mk_node p c1 c2 h) →
  c1 = None ∨ c2 = None →
  holds_node s sl p node →
  owner_free sl [node] →
  let child := match c1 with Some l => Some l | None => c2 end in
  inner_ok s sl [node] child →
  wp (avl_del_splice node) s (λ _ s',
    slot_set sl child s s' ∧
    reparented s s' child p ∧
    frame (option_list child ++ slot_owner sl) s s').
Proof.
  intros Hn Hc Hsl Hown child Hin. unfold avl_del_splice.
  assert (Hone : negb (bool_decide (is_Some c1) && bool_decide (is_Some c2))
                 = true).
  { destruct Hc as [-> | ->]; [done|]. by destruct c1. }
  destruct child as [c|] eqn:Hch; subst child;
    destruct sl as [|p'|p']; cbn [holds_node owner_free] in *;
    distinct_hyps; subst;
    try match goal with
        | H : heap s !! p' = Some ?x |- _ =>
            destruct x; cbn [parent left right height] in *; subst
        end;
    wp_go; try exact Hone; wp_go; rewrite ?Hch; wp_go; post_solve.
Qed.

Lemma only_child_root h q1 q2 par l r :
  wf h q1 par l → wf h q2 par r → l = Leaf ∨ r = Leaf →
  (q1 = None ∨ q2 = None) ∧
  wf h (match q1 with Some x => Some x | None => q2 end) par (only_child l r).
Proof.
  intros Hl Hr Hone. destruct l as [|ll la lr].
  - cbn in Hl. subst q1. split; [by left|done].
  - destruct Hone as [?| ->]; [done|]. cbn in Hr. subst q2.
    split; [by right|]. pose proof Hl as (-> & _). done.
Qed.

Lemma only_child_elements l r x :
  x ∈ elements (only_child l r) → x ∈ elements l ++ elements r.
Proof.
  destruct l; cbn [only_child]; intros Hx; apply elem_of_app; auto.
Qed.

Lemma heights_kept_frame s s' sl q v w :
  slot_set sl v s s' → reparented s s' q w →
  frame (option_list q ++ slot_owner sl) s s' →
  heights_kept s s'.
Proof.
  intros Hset Hre Hfr x.
  destruct (decide (q = Some x)) as [->|Hq].
  { cbn in Hre. rewrite Hre. by destruct (heap s !! x). }
  destruct (decide (x ∈ slot_owner sl)) as [Hin|Hnin].
  - destruct sl as [|p|p]; cbn in Hin;
      [by apply elem_of_nil in Hin|..];
      apply list_elem_of_singleton in Hin; subst x;
      destruct Hset as [_ ->]; by destruct (heap s !! p).
  - rewrite Hfr; [done|]. apply not_elem_of_app. split; [|done].
    destruct q as [b|]; cbn; rewrite ?list_elem_of_singleton;
      [congruence|apply not_elem_of_nil].
Qed.

Lemma heights_ok_kept s s' t :
  heights_kept s s' → heights_ok (heap s) t → heights_ok (heap s') t.
Proof.
  intros Hk. induction t as [|l IHl a r IHr]; [done|].
  intros ((n & Hn & Hh) & Hl & Hr). split; [|split; auto].
  pose proof (Hk a) as Ha. rewrite Hn in Ha.
  destruct (heap s' !! a) as [n'|]; [|done]. injection Ha as Ha.
  exists n'. split; [done|]. by rewrite Ha.
Qed.

(** [avl_del_splice] at a node of a tree that has at most one child. *)
Lemma splice_tree c l a r s :
  let t := Node l a r in
  wf (heap s) (root s) None (plug c t) →
  NoDup (elements (plug c t)) →
  l = Leaf ∨ r = Leaf →
  wp (avl_del_splice a) s (λ _ s',
    wf (heap s') (root s') None (plug c (only_child l r)) ∧
    heap s' !! a = heap s !! a ∧
    heights_kept s s' ∧
    frame (elements (plug c t)) s s').
Proof.
  intros t Hwf Hnd Hone.
  apply wf_plug in Hwf as (q & Hc & Hwt).
  pose proof (root_of_wf _ _ _ _ Hwt) as Hq. cbn in Hq. subst q.
  destruct Hwt as (_ & n & Hn & Hp & Hwl & Hwr).
  destruct (NoDup_plug _ _ Hnd) as (Hndt & Hndc & Hdisj).
  apply NoDup_elements_node in Hndt as (Hndl & Hndr & Hal & Har & Hlr).
  assert (Hac : a ∉ ctx_elements c).
  { apply Hdisj. cbn. apply elem_of_app. right. by left. }
  destruct (only_child_root _ _ _ _ _ _ Hwl Hwr Hone) as [Hnone Hwu].
  set (u := only_child l r) in *.
  set (child := match left n with Some x => Some x | None => right n end)
    in *.
  assert (Hu : ∀ x, x ∈ elements u → x ∈ elements t ∧ x ≠ a).
  { intros x Hx. apply only_child_elements in Hx. cbn [t elements].
    apply elem_of_app in Hx as [Hx|Hx].
    - split; [apply elem_of_app; by left|by intros ->].
    - split; [apply elem_of_app; right; by right|by intros ->]. }
  assert (Hndu : NoDup (elements u)) by (unfold u; by destruct l).
  destruct n as [np nl nr nh]. cbn [parent left right] in *. subst np.
  eapply wp_mono.
  { apply (splice_spec_full s (ctx_slot c) a (ctx_parent c) nl nr nh);
      [done|done|by apply ctx_holds_node| |].
    - apply ctx_owner_free. by intros x ->%list_elem_of_singleton.
    - eapply wf_inner_ok; [exact Hwu| |].
      + intros x Hx. destruct (Hu x Hx) as [_ Hxa].
        apply not_elem_of_cons. split; [done|apply not_elem_of_nil].
      + apply ctx_owner_free. intros x Hx. apply Hdisj. by apply Hu. }
  intros [] s' (Hset & Hre & Hfr). cbn beta. fold child in Hset, Hre, Hfr.
  assert (Hchild : ∀ x, x ∈ option_list child → x ∈ elements u).
  { intros x Hx. by eapply shape_root_sub; [eapply wf_shape|]. }
  split; [|split; [|split]].
  - apply wf_plug. exists child. split.
    + eapply ctx_wf_update; [exact Hc|done|exact Hset|].
      intros x Hx Hno. apply Hfr. apply not_elem_of_app. split; [|done].
      intros Hin. apply Hchild, Hu in Hin as [Hin _]. by apply (Hdisj x).
    + eapply wf_reparented; [exact Hwu|done|exact Hre|].
      intros x Hx Hne. apply Hfr. apply not_elem_of_app. split.
      * unfold child in *. destruct (match nl with Some _ => _ | None => _ end);
          cbn; rewrite ?list_elem_of_singleton;
          [congruence|apply not_elem_of_nil].
      * intros Hin%ctx_owner_in. apply (Hdisj x); [|done]. by apply Hu.
  - apply Hfr. apply not_elem_of_app. split.
    + intros Hin. by apply Hchild, Hu in Hin as [_ ?].
    + by intros Hin%ctx_owner_in.
  - by eapply heights_kept_frame.
  - intros x Hx. apply Hfr. rewrite elements_plug in Hx.
    apply not_elem_of_app in Hx as [Hxt Hxc].
    apply not_elem_of_app. split.
    + intros Hin. by apply Hchild, Hu in Hin as [? _].
    + by intros Hin%ctx_owner_in.
Qed.

(** ** The last block of [avl_del] *)

Lemma plug_nonleaf c : ∀ t, t ≠ Leaf ∨ c ≠ Top → plug c t ≠ Leaf.
Proof.
  induction c as [|c IH p r|c IH l p]; intros t Ht; cbn [plug].
  - by destruct Ht.
  - apply IH. by left.
  - apply IH. by left.
Qed.

Lemma wf_root_some h rt par t : wf h rt par t → t ≠ Leaf → ∃ a, rt = Some a.
Proof. destruct t; [done|]. intros (-> & _) _. eauto. Qed.

Lemma NoDup_plug_intro c t :
  NoDup (elements t) → NoDup (ctx_elements c) →
  (∀ x, x ∈ elements t → x ∉ ctx_elements c) →
  NoDup (elements (plug c t)).
Proof. intros. rewrite elements_plug. by apply NoDup_app. Qed.

Lemma del_rebalance_tree c u a n s fuel :
  wf (heap s) (root s) None (plug c u) →
  (c = Top → heights_ok (heap s) u) →
  NoDup (elements (plug c u)) →
  heap s !! a = Some n → parent n = ctx_parent c →
  (depth (plug c u) ≤ fuel)%nat →
  Z.of_nat (depth (plug c u)) <= INT_MAX →
  wp (avl_del_rebalance fuel a) s (λ _ s',
    wf (heap s') (root s') None (del_climb c u) ∧
    heights_ok (heap s') (del_climb c u) ∧
    frame (elements (plug c u)) s s').
Proof.
  intros Hwf Hh Hnd Hn Hp Hfuel Hmax. unfold avl_del_rebalance.
  apply wp_bind. eapply wp_load; [exact Hn|]. rewrite Hp.
  destruct (ctx_parent c) as [p|] eqn:Hcp.
  - assert (Hc : c ≠ Top) by (by intros ->).
    destruct (wf_root_some _ _ _ _ Hwf (plug_nonleaf c u (or_intror Hc)))
      as [a0 Ha0].
    apply wp_bind. unfold avl_set_height_root.
    apply wp_bind. apply wp_get_root. rewrite Ha0.
    eapply wp_mono.
    { apply (avl_set_height_shape (plug c u) s a0 fuel); try done.
      rewrite <- Ha0. by eapply wf_shape. }
    intros [] s1 ([Hr1 Hl1] & Hh1 & Hfr1). cbn beta.
    rewrite <- Hcp.
    eapply wp_mono.
    { apply (del_walk_tree c u s1 fuel fuel); try done.
      - rewrite Hr1. by eapply wf_links.
      - pose proof (depth_plug_ge c u). lia. }
    intros [] s2 (Hwf2 & Hh2 & Hfr2). cbn beta.
    split; [done|]. split; [done|].
    intros x Hx. rewrite Hfr2 by done. by apply Hfr1.
  - destruct c; [|done..]. apply wp_ret. cbn [del_climb plug] in *.
    split; [done|]. split; [by apply Hh|]. by intros x _.
Qed.

(** ** Deleting a node with at most one child *)

Lemma avl_del_simple_wp c l a r s fuel :
  let t := Node l a r in
  wf (heap s) (root s) None (plug c t) →
  heights_ok (heap s) (plug c t) →
  NoDup (elements (plug c t)) →
  l = Leaf ∨ r = Leaf →
  (depth (plug c t) ≤ fuel)%nat →
  Z.of_nat (depth (plug c t)) <= INT_MAX →
  wp (avl_del fuel a) s (λ _ s',
    wf (heap s') (root s') None (del_climb c (only_child l r)) ∧
    heights_ok (heap s') (del_climb c (only_child l r)) ∧
    frame (elements (plug c t)) s s').
Proof.
  intros t Hwf Hh Hnd Hone Hfuel Hmax.
  pose proof Hwf as (q & Hc & Hwt)%wf_plug.
  destruct Hwt as (_ & n & Hn & Hp & Hwl & Hwr).
  destruct (only_child_root _ _ _ _ _ _ Hwl Hwr Hone) as [Hnone _].
  destruct (NoDup_plug _ _ Hnd) as (Hndt & Hndc & Hdisj).
  set (u := only_child l r).
  assert (Hu : ∀ x, x ∈ elements u → x ∈ elements t).
  { intros x Hx. apply only_child_elements in Hx. cbn [t elements].
    apply elem_of_app in Hx as [Hx|Hx]; apply elem_of_app; auto.
    right. by right. }
  assert (Hdu : (depth u ≤ depth t)%nat).
  { unfold u, t. destruct l; cbn [only_child depth]; lia. }
  pose proof (depth_plug_le c t u Hdu) as Hdp.
  assert (Hndu : NoDup (elements (plug c u))).
  { apply NoDup_plug_intro; [|done|by intros x Hx; apply Hdisj, Hu].
    apply NoDup_elements_node in Hndt as (? & ? & _).
    unfold u. by destruct l. }
  unfold avl_del.
  apply wp_bind. eapply wp_load; [exact Hn|].
  apply wp_bind.
  apply (wp_mono _ _ (λ _ s0, s0 = s)).
  { destruct Hnone as [-> | ->]; [by apply wp_ret|].
    destruct (left n); by apply wp_ret. }
  intros [] ? ->.
  apply wp_bind.
  eapply wp_mono; [by apply (splice_tree c l a r s)|].
  intros [] s1 (Hwf1 & Ha1 & Hk1 & Hfr1). cbn beta. fold u in Hwf1.
  eapply wp_mono.
  { apply (del_rebalance_tree c u a n s1 fuel); try done; try lia.
    - intros ->. cbn [plug] in *. apply (heights_ok_kept s); [done|].
      destruct Hh as (_ & Hhl & Hhr). unfold u. by destruct l.
    - by rewrite Ha1. }
  intros [] s2 (Hwf2 & Hh2 & Hfr2). cbn beta.
  split; [done|]. split; [done|].
  intros x Hx. rewrite Hfr2; [by apply Hfr1|].
  rewrite elements_plug in Hx |- *.
  apply not_elem_of_app in Hx as [Hxt Hxc].
  apply not_elem_of_app. split; [|done]. intros Hin. by apply Hxt, Hu.
Qed.

(** ** Exchanging a node with the maximum of its left subtree *)

Lemma swap_adjacent_full s sl node sw p r h a hs :
  heap s !! node = Some (mk_node p (Some sw) (Some r) h) →
  heap s !! sw = Some (mk_node (Some node) a None hs) →
  holds_node s sl p node →
  NoDup [node; sw; r] →
  is_Some (heap s !! r) →
  owner_free sl [node; sw; r] →
  inner_ok s sl [node; sw; r] a →
  wp (avl_swap_nodes node sw) s (λ _ s',
    heap s' !! node = Some (mk_node (Some sw) a None hs) ∧
    heap s' !! sw = Some (mk_node p (Some node) (Some r) h) ∧
    slot_set sl (Some sw) s s' ∧
    reparented s s' (Some r) (Some sw) ∧
    reparented s s' a (Some node) ∧
    frame (node :: sw :: r :: option_list a ++ slot_owner sl) s s').
Proof.
  intros Hn Hsw Hsl Hnd [rn Hr] Hown Ha.
  unfold avl_swap_nodes, avl_swap_handle.
  destruct a as [a|]; destruct sl as [|p'|p'];
    cbn [holds_node owner_free] in *; distinct_hyps; subst;
    try match goal with
        | H : heap s !! p' = Some ?x |- _ =>
            destruct x; cbn [parent left right height] in *; subst
        end;
    wp_go; post_solve.
Qed.

Lemma swap_far_full s sl node sw p l r h q a hs qn :
  heap s !! node = Some (mk_node p (Some l) (Some r) h) →
  heap s !! sw = Some (mk_node (Some q) a None hs) →
  heap s !! q = Some qn → right qn = Some sw → left qn ≠ Some sw →
  holds_node s sl p node →
  NoDup [node; sw; l; r] →
  q ∉ [node; sw; r] →
  is_Some (heap s !! l) →
  is_Some (heap s !! r) →
  owner_free sl [node; sw; l; r; q] →
  inner_ok s sl [node; sw; l; r; q] a →
  wp (avl_swap_nodes node sw) s (λ _ s',
    heap s' !! node = Some (mk_node (Some q) a None hs) ∧
    heap s' !! sw = Some (mk_node p (Some l) (Some r) h) ∧
    slot_set sl (Some sw) s s' ∧
    reparented s s' (Some r) (Some sw) ∧
    reparented s s' a (Some node) ∧
    heap s' !! l
    = (λ n, mk_node (Some sw) (left n)
              (if decide (q = l) then Some node else right n) (height n))
      <$> heap s !! l ∧
    (q ≠ l → heap s' !! q = with_right (Some node) <$> heap s !! q) ∧
    frame (node :: sw :: l :: r :: q :: option_list a ++ slot_owner sl) s s').
Proof.
  intros Hn Hsw Hq Hqr Hql Hsl Hnd Hqd [ln Hl] [rn Hr] Hown Ha.
  unfold avl_swap_nodes, avl_swap_handle.
  destruct qn as [qp qlf qrt qh]. cbn [parent left right height] in *. subst.
  destruct a as [a|]; destruct sl as [|p'|p'];
    cbn [holds_node owner_free] in *; distinct_hyps; subst;
    try match goal with
        | H : heap s !! p' = Some ?x |- _ =>
            destruct x; cbn [parent left right height] in *; subst
        end;
    (destruct (decide (q = l)) as [->|Hne];
     [ assert (ln = mk_node qp qlf (Some sw) qh) as -> by congruence |]);
    wp_go; post_solve.
Qed.

(** *** The last node of a tree *)

Lemma last_elements_node l x r :
  last (elements (Node l x r))
  = match r with Leaf => Some x | _ => last (elements r) end.
Proof.
  cbn [elements]. destruct r as [|rl y rr].
  - cbn [elements]. by rewrite last_snoc.
  - rewrite last_app_cons.
    change (x :: elements (Node rl y rr)) with ([x] ++ elements (Node rl y rr)).
    cbn [elements]. rewrite app_assoc. by rewrite !last_app_cons.
Qed.

Lemma last_elem_of t m : last (elements t) = Some m → m ∈ elements t.
Proof.
  intros H. destruct (elements t) as [|y ys] using rev_ind; [done|].
  rewrite last_snoc in H. injection H as ->. apply elem_of_app. right.
  by left.
Qed.

Lemma rpath_step c l x rl y rr :
  rpath c (Node l x (Node rl y rr)) = rpath (InR c l x) (Node rl y rr).
Proof. done. Qed.

Lemma max_left_step l x rl y rr :
  max_left (Node l x (Node rl y rr)) = max_left (Node rl y rr).
Proof. done. Qed.

Lemma set_max_step a l x rl y rr :
  set_max a (Node l x (Node rl y rr)) = Node l x (set_max a (Node rl y rr)).
Proof. done. Qed.

Lemma remove_max_step l x rl y rr :
  remove_max (Node l x (Node rl y rr))
  = Node l x (remove_max (Node rl y rr)).
Proof. done. Qed.

Ltac max_step :=
  rewrite ?rpath_step, ?max_left_step, ?set_max_step, ?remove_max_step.

Lemma plug_rpath_set a t :
  ∀ c, t ≠ Leaf →
       plug (rpath c t) (Node (max_left t) a Leaf) = plug c (set_max a t).
Proof.
  induction t as [|l _ x r IHr]; intros c Ht; [done|].
  destruct r as [|rl y rr]; [done|].
  max_step. by rewrite IHr.
Qed.

Lemma plug_rpath_remove t :
  ∀ c, t ≠ Leaf → plug (rpath c t) (max_left t) = plug c (remove_max t).
Proof.
  induction t as [|l _ x r IHr]; intros c Ht; [done|].
  destruct r as [|rl y rr]; [done|].
  max_step. by rewrite IHr.
Qed.

Lemma set_max_last t m : last (elements t) = Some m → set_max m t = t.
Proof.
  induction t as [|l _ x r IHr]; [done|]. rewrite last_elements_node.
  destruct r as [|rl y rr]; [by intros [= ->]|].
  intros H. max_step. by rewrite IHr.
Qed.

Lemma elements_set_max a t :
  t ≠ Leaf → elements (set_max a t) = elements (remove_max t) ++ [a].
Proof.
  induction t as [|l _ x r IHr]; [done|]. intros _.
  destruct r as [|rl y rr]; [done|].
  max_step. cbn [elements]. rewrite IHr by done.
  by rewrite <- app_assoc.
Qed.

Lemma depth_set_max a t : depth (set_max a t) = depth t.
Proof.
  induction t as [|l _ x r IHr]; [done|].
  destruct r as [|rl y rr]; [done|].
  max_step. cbn [depth]. by rewrite IHr.
Qed.

Lemma avl_set_max a t : avl t → avl (set_max a t).
Proof.
  induction t as [|l _ x r IHr]; [done|].
  destruct r as [|rl y rr]; [done|].
  intros (Hl & Hr & H1 & H2). max_step. cbn [avl].
  rewrite depth_set_max. auto.
Qed.

Lemma rpath_not_top c t : c ≠ Top → rpath c t ≠ Top.
Proof.
  revert c. induction t as [|l _ x r IHr]; intros c Hc; [done|].
  destruct r as [|rl y rr]; [done|]. max_step. by apply IHr.
Qed.

Lemma depth_max_left t : t ≠ Leaf → (depth (max_left t) < depth t)%nat.
Proof.
  induction t as [|l _ x r IHr]; [done|]. intros _.
  destruct r as [|rl y rr]; [cbn; lia|].
  max_step. specialize (IHr ltac:(done)).
  change (depth (Node l x (Node rl y rr)))
    with (S (Nat.max (depth l) (depth (Node rl y rr)))). lia.
Qed.

Lemma max_left_elements t z :
  NoDup (elements t) → z ∈ elements (max_left t) →
  z ∈ elements t ∧ root_of t ≠ Some z ∧ last (elements t) ≠ Some z.
Proof.
  induction t as [|l _ x r IHr]; [by intros _ ?%elem_of_nil|].
  intros Hnd Hz. rewrite last_elements_node.
  apply NoDup_elements_node in Hnd as (Hndl & Hndr & Hxl & Hxr & Hlr).
  destruct r as [|rl y rr].
  - cbn [max_left] in Hz. cbn [elements root_of].
    split; [apply elem_of_app; by left|].
    split; intros [= ->]; done.
  - rewrite max_left_step in Hz.
    destruct (IHr Hndr Hz) as (Hin & _ & Hlast).
    split; [cbn [elements]; apply elem_of_app; right; by right|].
    split; [|done]. cbn [root_of]. intros [= ->]. done.
Qed.

Lemma wf_right_closed h t :
  ∀ p par z zn w,
    wf h p par t → z ∈ elements t → h !! z = Some zn →
    right zn = Some w → w ∈ elements t.
Proof.
  induction t as [|l IHl a r IHr]; intros p par z zn w Hwf Hz Hzn Hw;
    [by apply elem_of_nil in Hz|].
  destruct Hwf as (-> & n & Hn & Hp & Hl & Hr). cbn [elements] in *.
  apply elem_of_app in Hz as [Hz|[->|Hz]%elem_of_cons].
  - apply elem_of_app. left. by eapply IHl.
  - assert (zn = n) as -> by congruence.
    destruct (wf_root _ _ _ _ _ Hr Hw) as [Hin _].
    apply elem_of_app. right. by right.
  - apply elem_of_app. right. right. by eapply IHr.
Qed.

(** The last node of a tree in memory: it has no right child, and unless
    it is the root it is the right child of a node of the tree. *)
Lemma max_facts h t :
  ∀ p par m,
    wf h p par t → NoDup (elements t) → last (elements t) = Some m →
    ∃ mn, h !! m = Some mn ∧ right mn = None ∧
          wf h (left mn) (Some m) (max_left t) ∧
          ((root_of t = Some m ∧ parent mn = par) ∨
           (root_of t ≠ Some m ∧
            ∃ q qn, q ∈ elements t ∧ q ≠ m ∧ parent mn = Some q ∧
                    h !! q = Some qn ∧ right qn = Some m ∧
                    left qn ≠ Some m)).
Proof.
  induction t as [|l _ x r IHr]; intros p par m Hwf Hnd Hlast; [done|].
  rewrite last_elements_node in Hlast.
  destruct Hwf as (-> & n & Hn & Hp & Hl & Hr).
  apply NoDup_elements_node in Hnd as (Hndl & Hndr & Hxl & Hxr & Hlr).
  destruct r as [|rl y rr].
  - injection Hlast as ->. cbn in Hr. exists n.
    split; [done|]. split; [done|]. split; [done|]. by left.
  - destruct (IHr _ _ _ Hr Hndr Hlast) as (mn & Hm & Hmr & Hml & Hcase).
    pose proof (last_elem_of _ _ Hlast) as Hmin.
    exists mn. split; [done|]. split; [done|].
    rewrite max_left_step. split; [done|]. right.
    split; [cbn [root_of]; intros [= ->]; done|].
    destruct Hcase as [[Hroot Hpm]|(_ & q & qn & Hq & ? & ? & ? & ? & ?)].
    + exists x, n. split; [cbn [elements]; apply elem_of_app; right; by left|].
      split; [by intros ->|]. split; [done|]. split; [done|].
      split; [by rewrite (root_of_wf _ _ _ _ Hr)|].
      intros Hlm. destruct (wf_root _ _ _ _ _ Hl Hlm) as [Hin _].
      by apply (Hlr m).
    + exists q, qn.
      split; [cbn [elements]; apply elem_of_app; right; by right|]. done.
Qed.

(** The right spine of the left subtree after the exchange: every node
    keeps its place except the last one, where [a] now stands. *)
Lemma swap_spine s s' a m q x mn qn hs l t :
  heap s !! m = Some mn → parent mn = Some q →
  heap s !! q = Some qn → right qn = Some m →
  heap s' !! a = Some (mk_node (Some q) (left mn) None hs) →
  reparented s s' (left mn) (Some a) →
  (q ≠ x → heap s' !! q = with_right (Some a) <$> heap s !! q) →
  (∀ z, z ∈ elements l → z ∉ [x; q; m] → left mn ≠ Some z →
        heap s' !! z = heap s !! z) →
  ∀ y par par',
    wf (heap s) (Some y) par t → NoDup (elements t) →
    last (elements t) = Some m → y ≠ m →
    (∀ z, z ∈ elements t → z ∈ elements l) →
    (x ∉ elements t ∨ y = x) →
    heap s' !! y
    = (λ n, mk_node par' (left n)
              (if decide (q = y) then Some a else right n) (height n))
      <$> heap s !! y →
    wf (heap s') (Some y) par' (set_max a t).
Proof.
  intros Hm Hmp Hq Hqr Ha' Hre Hq' Hsame.
  induction t as [|tl _ y0 tr IHr];
    intros y par par' Hwf Hnd Hlast Hym Hsub Hx Hy'; [done|].
  destruct Hwf as ([= <-] & n & Hn & Hp & Hl & Hr).
  rewrite last_elements_node in Hlast.
  pose proof Hnd as (Hndl & Hndr & Hyl & Hyr & Hlr)%NoDup_elements_node.
  destruct tr as [|trl y' trr]; [by injection Hlast as ->|].
  pose proof (last_elem_of _ _ Hlast) as Hmin.
  destruct (max_facts _ _ _ _ _ Hr Hndr Hlast)
    as (mn' & Hm' & Hmr & Hml & Hcase).
  assert (mn' = mn) as -> by congruence.
  assert (Hxl : ∀ z, z ∈ elements tl ++ elements (Node trl y' trr) → z ≠ x).
  { intros z Hz ->. destruct Hx as [Hx| ->].
    - apply Hx. cbn [elements]. apply elem_of_app in Hz as [?|?];
        apply elem_of_app; [by left|right; by right].
    - apply elem_of_app in Hz as [?|?]; done. }
  assert (Hmlz : ∀ z, left mn = Some z → z ∈ elements (Node trl y' trr) ∧
                      y' ≠ z).
  { intros z Hz. destruct (wf_root _ _ _ _ _ Hml Hz) as [Hin _].
    destruct (max_left_elements _ _ Hndr Hin) as (? & Hroot & _).
    split; [done|]. intros ->. by apply Hroot. }
  rewrite Hn in Hy'. cbn in Hy'.
  max_step. split; [done|]. eexists. split; [exact Hy'|].
  cbn [parent left right]. split; [done|]. split.
  { eapply wf_same; [|exact Hl]. intros z Hz. apply Hsame.
    - apply Hsub. cbn [elements]. apply elem_of_app. by left.
    - rewrite !not_elem_of_cons. split; [|split; [|split]].
      + apply Hxl, elem_of_app. by left.
      + intros ->. apply (Hlr m); [|done].
        eapply wf_right_closed; [exact Hl|exact Hz|exact Hq|exact Hqr].
      + intros ->. by apply (Hlr m).
      + apply not_elem_of_nil.
    - intros Hz'. destruct (Hmlz _ Hz') as [Hin _]. by apply (Hlr z). }
  pose proof Hr as (Hry & ny' & Hny' & Hpy' & Hwl' & Hwr').
  destruct (decide (q = y)) as [->|Hqy].
  - assert (qn = n) as -> by congruence.
    assert (y' = m) as -> by congruence.
    rewrite last_elements_node in Hlast.
    destruct trr as [|? ? ?];
      [|apply last_elem_of in Hlast;
        by apply NoDup_elements_node in Hndr as (_ & _ & _ & ? & _)].
    cbn [set_max]. split; [done|]. eexists. split; [exact Ha'|].
    cbn [parent left right]. split; [done|]. split; [|done].
    assert (ny' = mn) as -> by congruence.
    apply NoDup_elements_node in Hndr as (Hndl' & _ & Hml' & _ & _).
    eapply wf_reparented; [exact Hwl'|done|done|].
    intros z Hz Hne. apply Hsame.
    + apply Hsub. cbn [elements]. apply elem_of_app. right. right.
      apply elem_of_app. by left.
    + rewrite !not_elem_of_cons. split; [|split; [|split]].
      * apply Hxl, elem_of_app. right. cbn [elements].
        apply elem_of_app. by left.
      * intros ->. apply Hyr. cbn [elements]. apply elem_of_app. by left.
      * by intros ->.
      * apply not_elem_of_nil.
    + done.
  - rewrite Hry in Hr |- *.
    assert (Hy'm : y' ≠ m).
    { intros ->. destruct Hcase as [[_ Hpm]|[Hroot _]]; [|done].
      congruence. }
    apply (IHr y' (Some y) (Some y)); try done.
    + intros z Hz. apply Hsub. cbn [elements]. apply elem_of_app. right.
      by right.
    + left. intros Hxin. by apply (Hxl x); [apply elem_of_app; right|].
    + assert (Hy'x : y' ≠ x).
      { apply Hxl, elem_of_app. right. cbn [elements].
        apply elem_of_app. right. by left. }
      destruct (decide (q = y')) as [->|Hqy'].
      * rewrite Hq' by done. rewrite Hny'. cbn. f_equal.
        destruct ny'. cbn in *. by subst.
      * rewrite Hsame.
        -- rewrite Hny'. cbn. f_equal. destruct ny'. cbn in *. by subst.
        -- apply Hsub. cbn [elements]. apply elem_of_app. right. right.
           apply elem_of_app. right. by left.
        -- rewrite !not_elem_of_cons.
           split; [done|split; [by intros ->|split; [done|]]].
           apply not_elem_of_nil.
        -- intros Hz'. by destruct (Hmlz _ Hz') as [_ ?].
Qed.

Lemma last_root_leaf l x r :
  NoDup (elements (Node l x r)) →
  last (elements (Node l x r)) = Some x → r = Leaf.
Proof.
  intros Hnd Hlast. rewrite last_elements_node in Hlast.
  destruct r as [|rl y rr]; [done|].
  apply last_elem_of in Hlast.
  by apply NoDup_elements_node in Hnd as (_ & _ & _ & ? & _).
Qed.

(** [avl_swap_nodes] on a node with two children and the last node of its
    left subtree: the two exchange their places in the tree. *)
Lemma swap_tree c l a r m s :
  let t := Node l a r in
  wf (heap s) (root s) None (plug c t) →
  NoDup (elements (plug c t)) →
  last (elements l) = Some m → r ≠ Leaf →
  wp (avl_swap_nodes a m) s (λ _ s',
    wf (heap s') (root s') None (plug c (Node (set_max a l) m r)) ∧
    frame (elements (plug c t)) s s').
Proof.
  intros t Hwf Hnd Hlast Hr.
  apply wf_plug in Hwf as (q0 & Hc & Hwt).
  pose proof (root_of_wf _ _ _ _ Hwt) as Hq0. cbn in Hq0. subst q0.
  destruct Hwt as (_ & n & Hn & Hp & Hwl & Hwr).
  destruct (NoDup_plug _ _ Hnd) as (Hndt & Hndc & Hdisj).
  pose proof Hndt as (Hndl & Hndr & Hal & Har & Hlr)%NoDup_elements_node.
  assert (Hat : a ∈ elements t) by (cbn; apply elem_of_app; right; by left).
  assert (Hlt : ∀ z, z ∈ elements l → z ∈ elements t)
    by (intros z Hz; cbn; apply elem_of_app; by left).
  assert (Hrt : ∀ z, z ∈ elements r → z ∈ elements t)
    by (intros z Hz; cbn; apply elem_of_app; right; by right).
  pose proof (ctx_holds_node _ _ _ Hc (Hdisj a Hat)) as Hsl.
  assert (Hown : ∀ z, z ∈ elements t → owner_free (ctx_slot c) [z]).
  { intros z Hz. apply ctx_owner_free.
    intros ? ->%list_elem_of_singleton. by apply Hdisj. }
  destruct (max_facts _ _ _ _ _ Hwl Hndl Hlast)
    as (mn & Hm & Hmr & Hml & Hcase).
  pose proof (last_elem_of _ _ Hlast) as Hmin.
  destruct r as [|rl rx rr]; [done|]. clear Hr.
  pose proof Hwr as (Hrx & rxn & Hrxn & _).
  assert (Hrxin : rx ∈ elements (Node rl rx rr))
    by (cbn; apply elem_of_app; right; by left).
  destruct l as [|ll x lr]; [done|].
  pose proof Hwl as (Hlx & xn & Hxn & _).
  assert (Hxin : x ∈ elements (Node ll x lr))
    by (cbn; apply elem_of_app; right; by left).
  assert (Hmlz : ∀ z, left mn = Some z →
                      z ∈ elements (Node ll x lr) ∧ z ≠ x ∧ z ≠ m).
  { intros z Hz. destruct (wf_root _ _ _ _ _ Hml Hz) as [Hin _].
    destruct (max_left_elements _ _ Hndl Hin) as (? & Hroot & Hl').
    split; [done|]. split; intros ->; [by apply Hroot|by apply Hl']. }
  assert (Hmlok : ∀ xs, (∀ z, left mn = Some z → z ∉ xs) →
                        inner_ok s (ctx_slot c) xs (left mn)).
  { intros xs Hxs. destruct (left mn) as [z|] eqn:Hz; [|done].
    destruct (wf_root _ _ _ _ _ Hml eq_refl) as (_ & zn & Hzn & _).
    destruct (Hmlz z eq_refl) as (? & _ & _).
    split; [by apply Hxs|]. split; [by exists zn|]. apply Hown. auto. }
  assert (Hctx : ∀ s' v,
    slot_set (ctx_slot c) v s s' →
    (∀ z, z ∈ ctx_elements c → z ∉ slot_owner (ctx_slot c) →
          heap s' !! z = heap s !! z) →
    ctx_wf (heap s') (root s') c v)
    by (intros; by eapply ctx_wf_update).
  assert (Hla : ∀ z, z ∈ elements (Node ll x lr) → z ≠ a ∧ z ≠ rx).
  { intros z Hz. split; intros Heq; subst z; [done|by apply (Hlr rx)]. }
  assert (Hra : ∀ z, z ∈ elements (Node rl rx rr) →
                     z ≠ a ∧ z ∉ elements (Node ll x lr)).
  { intros z Hz. split; [by intros Heq; subst z|].
    intros Hzl. by apply (Hlr z). }
  assert (Hca : ∀ z, z ∈ ctx_elements c → z ∉ elements t).
  { intros z Hz Hzt. by apply (Hdisj z). }
  destruct n as [np nl nr nh], mn as [mp mlp mr mh].
  cbn [parent left right height] in *. subst np nl nr mr.
  destruct Hcase
    as [[Hroot ->]|(Hroot & q & qn & Hq & Hqm & -> & Hqn & Hqr & Hql)].
  - (* the last node is the left child itself *)
    assert (x = m) as Hxm by (cbn in Hroot; congruence). clear Hroot.
    subst x.
    pose proof (last_root_leaf _ _ _ Hndl Hlast) as ->.
    cbn [set_max max_left] in *.
    destruct (Hla m Hmin) as [Hma Hmrx].
    destruct (Hra rx Hrxin) as [Hrxa _].
    eapply wp_mono.
    { apply (swap_adjacent_full s (ctx_slot c) a m (ctx_parent c) rx nh
               mlp mh); try done.
      - repeat (apply NoDup_cons; split);
          rewrite ?not_elem_of_cons; try apply NoDup_nil_2;
          try apply not_elem_of_nil.
        + split; [congruence|]. split; [congruence|apply not_elem_of_nil].
        + split; [congruence|apply not_elem_of_nil].
      - eapply owner_free_sub; [apply ctx_owner_free, Hdisj|].
        intros z Hz. rewrite !elem_of_cons in Hz.
        destruct Hz as [->|[->|[->|Hz]]]; auto. by apply elem_of_nil in Hz.
      - apply Hmlok. intros z Hz. destruct (Hmlz z Hz) as (Hin & ? & ?).
        destruct (Hla z Hin). rewrite !not_elem_of_cons.
        split; [done|]. split; [done|]. split; [done|apply not_elem_of_nil]. }
    intros [] s' (Ha' & Hm' & Hset & Hrer & Hrel & Hfr). cbn beta.
    assert (Hsame : ∀ z, z ≠ a → z ≠ m → z ≠ rx → mlp ≠ Some z →
                         z ∉ slot_owner (ctx_slot c) →
                         heap s' !! z = heap s !! z).
    { intros z ? ? ? Hne Hno. apply Hfr.
      rewrite !not_elem_of_cons, not_elem_of_app.
      do 3 (split; [done|]). split; [|done].
      destruct mlp; cbn; rewrite ?list_elem_of_singleton;
        [congruence|apply not_elem_of_nil]. }
    assert (Hsame_t : ∀ z, z ∉ elements t → z ∉ slot_owner (ctx_slot c) →
                           heap s' !! z = heap s !! z).
    { intros z Hz Hno. apply Hsame.
      - by intros ->.
      - intros ->. auto.
      - intros ->. auto.
      - intros Hz'. destruct (Hmlz z Hz') as (Hin & _). auto.
      - done. }
    split.
    + apply wf_plug. exists (Some m). split.
      * apply Hctx; [done|]. intros z Hz Hno. apply Hsame_t; auto.
      * split; [done|]. eexists. split; [exact Hm'|].
        cbn [parent left right]. split; [done|]. split.
        -- split; [done|]. eexists. split; [exact Ha'|].
           cbn [parent left right]. split; [done|]. split; [|done].
           apply NoDup_elements_node in Hndl as (Hndll & _ & Hmll & _ & _).
           eapply wf_reparented; [exact Hml|done|done|].
           intros z Hz Hne.
           assert (Hzl : z ∈ elements (Node ll m Leaf))
             by (cbn; apply elem_of_app; by left).
           destruct (Hla z Hzl).
           apply Hsame; [done|by intros ->|done|done|].
           intros Hno%ctx_owner_in. apply (Hdisj z); auto.
        -- eapply wf_reparented; [exact Hwr|done|done|].
           intros z Hz Hne. destruct (Hra z Hz) as [? Hzl].
           apply Hsame; [done|by intros ->|congruence| |].
           ++ intros Hz'. by destruct (Hmlz z Hz') as (Hin & _).
           ++ intros Hno%ctx_owner_in. apply (Hdisj z); auto.
    + intros z Hz. rewrite elements_plug in Hz.
      apply not_elem_of_app in Hz as [Hzt Hzc]. apply Hsame_t; [done|].
      by intros Hno%ctx_owner_in.
  - (* the last node lies deeper, below [q] *)
    assert (Hxm : x ≠ m) by (intros ->; by apply Hroot).
    destruct (Hla m Hmin) as [Hma Hmrx].
    destruct (Hla x Hxin) as [Hxa Hxrx].
    destruct (Hla q Hq) as [Hqa Hqrx].
    assert (Hmlq : ∀ z, mlp = Some z → z ≠ q).
    { intros z Hz ->. destruct (wf_root _ _ _ _ _ Hml Hz) as [Hin _].
      pose proof (wf_right_closed _ _ _ _ _ _ _ Hml Hin Hqn Hqr) as Hmm.
      by destruct (max_left_elements _ _ Hndl Hmm) as (_ & _ & ?). }
    eapply wp_mono.
    { apply (swap_far_full s (ctx_slot c) a m (ctx_parent c) x rx nh q
               mlp mh qn); try done.
      - repeat (apply NoDup_cons; split);
          rewrite ?not_elem_of_cons; try apply NoDup_nil_2;
          try apply not_elem_of_nil;
          repeat split; try congruence; apply not_elem_of_nil.
      - rewrite !not_elem_of_cons.
        repeat split; try congruence; apply not_elem_of_nil.
      - eapply owner_free_sub; [apply ctx_owner_free, Hdisj|].
        intros z Hz. rewrite !elem_of_cons in Hz.
        destruct Hz as [->|[->|[->|[->|[->|Hz]]]]]; auto.
        by apply elem_of_nil in Hz.
      - apply Hmlok. intros z Hz. destruct (Hmlz z Hz) as (Hin & ? & ?).
        destruct (Hla z Hin). pose proof (Hmlq z Hz).
        rewrite !not_elem_of_cons.
        repeat split; try congruence; apply not_elem_of_nil. }
    intros [] s' (Ha' & Hm' & Hset & Hrer & Hrel & Hx' & Hq' & Hfr).
    cbn beta.
    assert (Hsame : ∀ z, z ≠ a → z ≠ m → z ≠ x → z ≠ rx → z ≠ q →
                         mlp ≠ Some z → z ∉ slot_owner (ctx_slot c) →
                         heap s' !! z = heap s !! z).
    { intros z ? ? ? ? ? Hne Hno. apply Hfr.
      rewrite !not_elem_of_cons, not_elem_of_app.
      do 5 (split; [done|]). split; [|done].
      destruct mlp; cbn; rewrite ?list_elem_of_singleton;
        [congruence|apply not_elem_of_nil]. }
    assert (Hsame_t : ∀ z, z ∉ elements t → z ∉ slot_owner (ctx_slot c) →
                           heap s' !! z = heap s !! z).
    { intros z Hz Hno. apply Hsame; try done.
      - by intros ->.
      - intros ->. auto.
      - intros ->. auto.
      - intros ->. auto.
      - intros ->. auto.
      - intros Hz'. destruct (Hmlz z Hz') as (Hin & _). auto. }
    split.
    + apply wf_plug. exists (Some m). split.
      * apply Hctx; [done|]. intros z Hz Hno. apply Hsame_t; auto.
      * split; [done|]. eexists. split; [exact Hm'|].
        cbn [parent left right]. split; [done|]. split.
        -- apply (swap_spine s s' a m q x (mk_node (Some q) mlp None mh) qn
                    mh (Node ll x lr) (Node ll x lr)) with (par := Some a);
             try done.
           ++ intros z Hz Hzn Hne. destruct (Hla z Hz).
              rewrite !not_elem_of_cons in Hzn.
              destruct Hzn as (? & ? & ? & _).
              apply Hsame; try done.
              intros Hno%ctx_owner_in. apply (Hdisj z); auto.
           ++ by right.
        -- eapply wf_reparented; [exact Hwr|done|done|].
           intros z Hz Hne. destruct (Hra z Hz) as [? Hzl].
           apply Hsame; try done.
           ++ by intros ->.
           ++ by intros ->.
           ++ congruence.
           ++ by intros ->.
           ++ intros Hz'. by destruct (Hmlz z Hz') as (Hin & _).
           ++ intros Hno%ctx_owner_in. apply (Hdisj z); auto.
    + intros z Hz. rewrite elements_plug in Hz.
      apply not_elem_of_app in Hz as [Hzt Hzc]. apply Hsame_t; [done|].
      by intros Hno%ctx_owner_in.
Qed.

(** ** Deleting a node with two children *)

Lemma elements_remove_max t m :
  last (elements t) = Some m → elements t = elements (remove_max t) ++ [m].
Proof.
  induction t as [|l _ x r IHr]; [done|]. rewrite last_elements_node.
  destruct r as [|rl y rr].
  - intros [= ->]. done.
  - intros H. max_step. cbn [elements] in *. rewrite (IHr H) at 1.
    by rewrite <- app_assoc.
Qed.

Lemma swapped_elements a l m r :
  last (elements l) = Some m →
  elements (Node (set_max a l) m r) ≡ₚ elements (Node l a r).
Proof.
  intros Hlast. cbn [elements].
  rewrite (elements_remove_max l m Hlast).
  rewrite elements_set_max by (by destruct l).
  rewrite <- !app_assoc. cbn [app]. f_equiv. apply Permutation_swap.
Qed.

Lemma elem_of_plug_same c t t' x :
  elements t' ≡ₚ elements t →
  x ∈ elements (plug c t') ↔ x ∈ elements (plug c t).
Proof. intros He. by rewrite !elements_plug, He. Qed.

Lemma NoDup_plug_same c t t' :
  elements t' ≡ₚ elements t →
  NoDup (elements (plug c t)) → NoDup (elements (plug c t')).
Proof. intros He. by rewrite !elements_plug, He. Qed.

Lemma depth_plug_eq c t t' :
  depth t' = depth t → depth (plug c t') = depth (plug c t).
Proof.
  intros He. apply Nat.le_antisymm; apply depth_plug_le; lia.
Qed.

Lemma only_child_leaf l : only_child l Leaf = l.
Proof. by destruct l. Qed.

Lemma avl_del_two_wp c l a r m s fuel :
  let t := Node l a r in
  let C := rpath (InL c m r) l in
  wf (heap s) (root s) None (plug c t) →
  NoDup (elements (plug c t)) →
  last (elements l) = Some m → r ≠ Leaf →
  (depth (plug c t) ≤ fuel)%nat →
  Z.of_nat (depth (plug c t)) <= INT_MAX →
  wp (avl_del fuel a) s (λ _ s',
    wf (heap s') (root s') None (del_climb C (max_left l)) ∧
    heights_ok (heap s') (del_climb C (max_left l)) ∧
    frame (elements (plug c t)) s s').
Proof.
  intros t C Hwf Hnd Hlast Hr Hfuel Hmax.
  assert (Hl : l ≠ Leaf) by (by destruct l).
  pose proof Hwf as (q & Hc & Hwt)%wf_plug.
  destruct Hwt as (_ & n & Hn & Hp & Hwl & Hwr).
  pose proof (depth_plug_ge c t) as Hdt.
  assert (Hdl : (depth l < depth t)%nat) by (unfold t; cbn [depth]; lia).
  (* the tree after the exchange *)
  set (t1 := Node (set_max a l) m r).
  assert (He1 : elements t1 ≡ₚ elements t) by (by apply swapped_elements).
  assert (Hd1 : depth (plug c t1) = depth (plug c t)).
  { apply depth_plug_eq. unfold t1, t. cbn [depth].
    by rewrite depth_set_max. }
  assert (Hplug : plug c t1 = plug C (Node (max_left l) a Leaf)).
  { unfold C. by rewrite plug_rpath_set. }
  assert (Hnd1 : NoDup (elements (plug c t1)))
    by (by apply (NoDup_plug_same c t)).
  assert (Hd2 : (depth (plug C (max_left l)) ≤ depth (plug c t))%nat).
  { rewrite <- Hd1, Hplug. apply depth_plug_le. cbn [depth]. lia. }
  assert (Hnd2 : NoDup (elements (plug C (max_left l)))).
  { rewrite Hplug in Hnd1.
    destruct (NoDup_plug _ _ Hnd1) as (Hndx & Hndc & Hdisj).
    apply NoDup_plug_intro; [|done|].
    - by apply NoDup_elements_node in Hndx as (? & _).
    - intros x Hx. apply Hdisj. cbn [elements]. apply elem_of_app. by left. }
  assert (Hsub2 : ∀ x, x ∈ elements (plug C (max_left l)) →
                       x ∈ elements (plug c t)).
  { intros x Hx. apply (elem_of_plug_same c t t1 x He1). rewrite Hplug.
    rewrite elements_plug in Hx |- *. cbn [elements].
    apply elem_of_app in Hx as [Hx|Hx]; apply elem_of_app; [left|by right].
    apply elem_of_app. by left. }
  unfold avl_del.
  apply wp_bind. eapply wp_load; [exact Hn|].
  destruct l as [|ll x lr]; [done|]. destruct r as [|rl rx rr]; [done|].
  pose proof Hwl as (Hlx & _). pose proof Hwr as (Hrx & _).
  rewrite Hlx, Hrx.
  apply wp_bind. apply wp_bind.
  eapply wp_eq.
  { apply (get_max_spec (Node ll x lr) s (Some x) fuel).
    - rewrite <- Hlx. by eapply wf_shape.
    - lia. }
  rewrite Hlast. apply wp_bind. apply wp_assert_ptr.
  eapply wp_mono; [by apply (swap_tree c (Node ll x lr) a (Node rl rx rr) m s)|].
  intros [] s1 (Hwf1 & Hfr1). cbn beta. fold t1 in Hwf1.
  rewrite Hplug in Hwf1, Hnd1.
  apply wp_bind.
  eapply wp_mono;
    [by apply (splice_tree C (max_left (Node ll x lr)) a Leaf s1);
       [..|right]|].
  intros [] s2 (Hwf2 & Ha2 & Hk2 & Hfr2). cbn beta.
  rewrite only_child_leaf in Hwf2.
  destruct (walk_parent _ _ _ _ _ Hwf1) as (n1 & Hn1 & Hp1).
  eapply wp_mono.
  { apply (del_rebalance_tree C (max_left (Node ll x lr)) a n1 s2 fuel);
      try done; try lia.
    - intros HC. exfalso. revert HC. by apply rpath_not_top.
    - by rewrite Ha2. }
  intros [] s3 (Hwf3 & Hh3 & Hfr3). cbn beta.
  split; [done|]. split; [done|].
  intros z Hz. rewrite Hfr3, Hfr2, Hfr1; try done.
  - rewrite <- Hplug. by rewrite (elem_of_plug_same c t t1 z He1).
  - intros Hin. by apply Hz, Hsub2.
Qed.

(** ** Deletion from an AVL tree *)

Lemma ascending_app key xs ys :
  ascending key (xs ++ ys) ↔
  ascending key xs ∧ ascending key ys ∧
  ∀ x y, x ∈ xs → y ∈ ys → key x < key y.
Proof.
  induction xs as [|a xs IH]; cbn [app ascending].
  - split; [intros H; repeat split; try done; by intros x y ?%elem_of_nil|].
    by intros (_ & ? & _).
  - rewrite IH. split.
    + intros (Ha & Hxs & Hys & Hc). repeat split; try done.
      * intros y Hy. apply Ha, elem_of_app. by left.
      * intros x y [->|Hx]%elem_of_cons Hy; [|by apply Hc].
        apply Ha, elem_of_app. by right.
    + intros ((Ha & Hxs) & Hys & Hc). repeat split; try done.
      * intros y [Hy|Hy]%elem_of_app; [by apply Ha|].
        apply Hc; [by left|done].
      * intros x y Hx Hy. apply Hc; [by right|done].
Qed.

Lemma bst_ascending key t : bst key t ↔ ascending key (elements t).
Proof.
  induction t as [|l IHl a r IHr]; [done|].
  cbn [bst elements]. rewrite ascending_app. cbn [ascending].
  rewrite IHl, IHr. split.
  - intros (Hl & Hr & Hla & Har). repeat split; try done.
    intros x y Hx [->|Hy]%elem_of_cons; [by apply Hla|].
    specialize (Hla x Hx). specialize (Har y Hy). lia.
  - intros (Hl & (Har & Hr) & Hc). repeat split; try done.
    intros x Hx. apply Hc; [done|by left].
Qed.

Lemma ascending_remove key xs a ys :
  ascending key (xs ++ a :: ys) → ascending key (xs ++ ys).
Proof.
  rewrite !ascending_app. cbn [ascending].
  intros (Hxs & (_ & Hys) & Hc). repeat split; try done.
  intros x y Hx Hy. apply Hc; [done|by right].
Qed.

Lemma elements_plug_inorder c :
  ∃ bs es, ∀ t, elements (plug c t) = bs ++ elements t ++ es.
Proof.
  induction c as [|c (bs & es & IH) a r|c (bs & es & IH) l a].
  - exists [], []. intros t. cbn. by rewrite app_nil_r.
  - exists bs, (a :: elements r ++ es). intros t. cbn [plug].
    rewrite IH. cbn [elements]. by rewrite <- !app_assoc.
  - exists (bs ++ elements l ++ [a]), es. intros t. cbn [plug].
    rewrite IH. cbn [elements]. rewrite <- !app_assoc. done.
Qed.

Lemma elem_of_plug a t :
  ∀ c, a ∈ elements t → ∃ c' l r, plug c t = plug c' (Node l a r).
Proof.
  induction t as [|l IHl x r IHr]; intros c Ha;
    [by apply elem_of_nil in Ha|].
  cbn [elements] in Ha.
  apply elem_of_app in Ha as [Ha|[->|Ha]%elem_of_cons].
  - destruct (IHl (InL c x r) Ha) as (c' & l' & r' & He). eauto.
  - by exists c, l, r.
  - destruct (IHr (InR c l x) Ha) as (c' & l' & r' & He). eauto.
Qed.

Lemma last_is_Some t : t ≠ Leaf → ∃ m, last (elements t) = Some m.
Proof.
  destruct t as [|l x r]; [done|]. intros _. cbn [elements].
  rewrite last_app_cons.
  destruct (elements r) as [|y ys] using rev_ind; [by eexists|].
  change (x :: ys ++ [y]) with ((x :: ys) ++ [y]). rewrite last_snoc. eauto.
Qed.

Lemma del_climb_depth c :
  ∀ u, (depth (del_climb c u) ≤ depth (plug c u))%nat.
Proof.
  induction c as [|c IH p r|c IH l p]; intros u; [done|..];
    cbn [plug del_climb].
  - destruct (balanced _); [apply IH|].
    pose proof (depth_plug_le c _ _ (rebalance_depth (Node u p r))).
    destruct (tied _); [done|]. etrans; [apply IH|done].
  - destruct (balanced _); [apply IH|].
    pose proof (depth_plug_le c _ _ (rebalance_depth (Node l p u))).
    destruct (tied _); [done|]. etrans; [apply IH|done].
Qed.

Lemma avl_del_wp T s a fuel :
  wf (heap s) (root s) None T → heights_ok (heap s) T →
  NoDup (elements T) → avl T → a ∈ elements T →
  (depth T ≤ fuel)%nat → Z.of_nat (depth T) <= INT_MAX →
  wp (avl_del fuel a) s (λ _ s',
    ∃ T' xs ys,
      wf (heap s') (root s') None T' ∧ heights_ok (heap s') T' ∧
      avl T' ∧ elements T = xs ++ a :: ys ∧ elements T' = xs ++ ys ∧
      (depth T' ≤ depth T)%nat ∧
      frame (elements T) s s').
Proof.
  intros Hwf Hh Hnd Havl Ha Hfuel Hmax.
  destruct (elem_of_plug a T Top Ha) as (c & l & r & HT).
  cbn [plug] in HT. subst T.
  destruct (elements_plug_inorder c) as (bs & es & Hin).
  pose proof (avl_plug_sub _ _ Havl) as (Hal & Har & Hlr1 & Hlr2).
  assert (Hcase : (l = Leaf ∨ r = Leaf) ∨ (l ≠ Leaf ∧ r ≠ Leaf)).
  { destruct l; [by left; left|]. destruct r; [by left; right|].
    by right. }
  destruct Hcase as [Hone|[Hl Hr]].
  - eapply wp_mono; [by apply avl_del_simple_wp|].
    intros [] s' (Hwf' & Hh' & Hfr'). cbn beta.
    exists (del_climb c (only_child l r)), (bs ++ elements l),
           (elements r ++ es).
    split; [done|]. split; [done|].
    split; [|split; [|split; [|split; [|done]]]].
    + apply (del_climb_avl c _ (Node l a r)); [done| |].
      * unfold only_child. by destruct l.
      * right. destruct Hone as [-> | ->]; [done|].
        destruct l; cbn [only_child depth]; lia.
    + rewrite Hin. cbn [elements]. by rewrite <- !app_assoc.
    + rewrite del_climb_elements, Hin, <- !app_assoc. f_equal.
      destruct Hone as [-> | ->]; [done|].
      by rewrite only_child_leaf.
    + etrans; [apply del_climb_depth|]. apply depth_plug_le.
      destruct l; cbn [only_child depth]; lia.
  - destruct (last_is_Some l Hl) as [m Hlast].
    eapply wp_mono; [by apply (avl_del_two_wp c l a r m)|].
    intros [] s' (Hwf' & Hh' & Hfr'). cbn beta.
    set (C := rpath (InL c m r) l) in *.
    assert (Hplug : plug c (Node (set_max a l) m r)
                    = plug C (Node (max_left l) a Leaf)).
    { unfold C. by rewrite plug_rpath_set. }
    assert (Hav1 : avl (plug C (Node (max_left l) a Leaf))).
    { rewrite <- Hplug. eapply avl_plug_replace; [exact Havl| |].
      - cbn [avl]. rewrite depth_set_max. split; [by apply avl_set_max|].
        done.
      - cbn [depth]. by rewrite depth_set_max. }
    exists (del_climb C (max_left l)),
           (bs ++ elements (remove_max l) ++ [m]), (elements r ++ es).
    split; [done|]. split; [done|].
    split; [|split; [|split; [|split; [|done]]]].
    + apply (del_climb_avl C _ (Node (max_left l) a Leaf)); [done| |].
      * by apply avl_plug_sub in Hav1 as (? & _).
      * right. cbn [depth]. lia.
    + rewrite Hin. cbn [elements].
      rewrite (elements_remove_max l m Hlast) at 1.
      by rewrite <- !app_assoc.
    + rewrite del_climb_elements. unfold C.
      rewrite plug_rpath_remove by done. cbn [plug]. rewrite Hin.
      cbn [elements]. by rewrite <- !app_assoc.
    + etrans; [apply del_climb_depth|].
      etrans; [apply (depth_plug_le C (Node (max_left l) a Leaf));
               cbn [depth]; lia|].
      rewrite <- Hplug. apply depth_plug_le. cbn [depth].
      rewrite depth_set_max. lia.
Qed.

(** X15.  [avl_del] is right on AVL trees: for a node of a well-formed
    AVL tree whose height fields are right (fuel covering the depth), the
    call completes and leaves a well-formed AVL tree with right height
    fields whose in-order sequence is the old one without the node; a
    search tree stays a search tree; no node outside the tree is
    touched. *)
Theorem avl_del_correct key T s a fuel :
  wf (heap s) (root s) None T → heights_ok (heap s) T →
  NoDup (elements T) → avl T → a ∈ elements T →
  (depth T ≤ fuel)%nat → Z.of_nat (depth T) <= INT_MAX →
  ∃ s' T' xs ys,
    avl_del fuel a s = Done (tt, s') ∧
    wf (heap s') (root s') None T' ∧ heights_ok (heap s') T' ∧
    avl T' ∧ elements T = xs ++ a :: ys ∧ elements T' = xs ++ ys ∧
    (bst key T → bst key T') ∧
    frame (elements T) s s'.
Proof.
  intros Hwf Hh Hnd Havl Ha Hfuel Hmax.
  pose proof (avl_del_wp T s a fuel Hwf Hh Hnd Havl Ha Hfuel Hmax) as H.
  apply wp_Done in H
    as ([] & s' & Hrun & T' & xs & ys & ? & ? & ? & He & He' & _ & ?).
  exists s', T', xs, ys. do 6 (split; [done|]). split; [|done].
  rewrite !bst_ascending, He, He'. apply ascending_remove.
Qed.

(** X16.  Deleting and then searching: after [avl_del] of a node of a
    well-formed AVL search tree, [avl_find] no longer finds a node with
    that key, and still returns every other node of the tree when asked
    for it. *)
Theorem avl_find_after_del key T s a fuel :
  wf (heap s) (root s) None T → heights_ok (heap s) T →
  NoDup (elements T) → avl T → bst key T → a ∈ elements T →
  (depth T ≤ fuel)%nat → Z.of_nat (depth T) <= INT_MAX →
  ∃ s', avl_del fuel a s = Done (tt, s') ∧
        avl_find fuel (cmp_key key) a s' = Done (None, s') ∧
        ∀ y, y ∈ elements T → y ≠ a →
             avl_find fuel (cmp_key key) y s' = Done (Some y, s').
Proof.
  intros Hwf Hh Hnd Havl Hbst Ha Hfuel Hmax.
  pose proof (avl_del_wp T s a fuel Hwf Hh Hnd Havl Ha Hfuel Hmax) as H.
  apply wp_Done in H
    as ([] & s' & Hrun & T' & xs & ys & Hwf' & _ & _ & He & He' & Hd & _).
  assert (Hbst' : bst key T').
  { revert Hbst. rewrite !bst_ascending, He, He'. apply ascending_remove. }
  assert (Hsub : ∀ y, y ∈ elements T' → y ∈ elements T ∧ y ≠ a).
  { intros y Hy. rewrite He' in Hy. rewrite He in Hnd |- *.
    apply NoDup_app in Hnd as (_ & Hdisj & [Hay _]%NoDup_cons).
    apply elem_of_app in Hy as [Hy|Hy].
    - split; [apply elem_of_app; by left|]. intros ->.
      apply (Hdisj a Hy). by left.
    - split; [apply elem_of_app; right; by right|]. by intros ->. }
  exists s'. split; [done|]. split.
  - unfold avl_find, bind, get_root.
    destruct (avl_find_spec key a T' s' (root s') fuel)
      as ([m|] & Hfind & Hm); [by eapply wf_shape|done|lia| |done].
    destruct Hm as [Hin Hk]. destruct (Hsub m Hin) as [HmT Hma].
    by destruct (Hma (bst_key_inj key T Hbst m a HmT Ha Hk)).
  - intros y Hy Hya.
    apply (find_member key T'); [by eapply wf_shape|done|lia|].
    rewrite He'. rewrite He in Hy.
    apply elem_of_app in Hy as [Hy|[->|Hy]%elem_of_cons];
      [apply elem_of_app; by left|done|apply elem_of_app; by right].
Qed.

Lemma NoDup_head_split {A} (x : A) l xs ys :
  NoDup (x :: l) → x :: l = xs ++ x :: ys → xs = [] ∧ ys = l.
Proof.
  intros [Hx _]%NoDup_cons He. destruct xs as [|z xs].
  - by injection He as ->.
  - injection He as -> ->. destruct Hx. apply elem_of_app. right. by left.
Qed.

(** X17.  Adding a new first node and deleting it again: from a
    well-formed AVL search tree, [avl_add] of a detached node that
    compares below every node followed by [avl_del] of that node both
    complete and leave a well-formed AVL search tree with right height
    fields and the original in-order sequence. *)
Theorem avl_add_del_round_trip key t s node nn fuel :
  wf (heap s) (root s) None t →
  NoDup (elements t) → avl t → bst key t →
  node ∉ elements t →
  heap s !! node = Some nn → left nn = None → right nn = None →
  (∀ y, y ∈ elements t → key node < key y) →
  (depth t < fuel)%nat → Z.of_nat (depth t) < INT_MAX →
  ∃ s1 s2 t2,
    avl_add fuel (cmp_key key) node s = Done (tt, s1) ∧
    avl_del fuel node s1 = Done (tt, s2) ∧
    wf (heap s2) (root s2) None t2 ∧ heights_ok (heap s2) t2 ∧
    avl t2 ∧ bst key t2 ∧ elements t2 = elements t.
Proof.
  intros Hwf Hnd Havl Hbst Hfresh Hnode Hnl Hnr Hlt Hfuel Hmax.
  pose proof (avl_add_min_wp key t s node nn fuel Hwf Hnd Havl Hbst Hfresh
                Hnode Hnl Hnr Hlt Hfuel Hmax) as H.
  apply wp_Done in H
    as ([] & s1 & Hrun1 & t1 & Hwf1 & Hh1 & Havl1 & Hbst1 & He1 & Hd1 & _).
  assert (Hnd1 : NoDup (elements t1)) by (rewrite He1; by apply NoDup_cons).
  pose proof (avl_del_wp t1 s1 node fuel Hwf1 Hh1 Hnd1 Havl1) as H.
  apply wp_Done in H
    as ([] & s2 & Hrun2 & t2 & xs & ys & Hwf2 & Hh2 & Havl2 & He & He2 & _);
    [|rewrite He1; by left|lia|unfold INT_MAX in *; lia].
  exists s1, s2, t2. do 5 (split; [done|]).
  rewrite He1 in He, Hnd1.
  destruct (NoDup_head_split _ _ _ _ Hnd1 He) as [-> ->].
  split; [|done]. revert Hbst. rewrite !bst_ascending, He2. done.
Qed.

(** X18.  [avl_swap_nodes] on a tree: for a node with two children and the
    last node of its left subtree, in any position of a well-formed tree,
    the call completes and the two nodes have exchanged their places:
    the tree is well-formed again with the same shape, the two nodes are
    exchanged in the in-order sequence, and nothing outside the tree is
    touched. *)
Theorem avl_swap_nodes_exchanges c l a r m s :
  wf (heap s) (root s) None (plug c (Node l a r)) →
  NoDup (elements (plug c (Node l a r))) →
  last (elements l) = Some m → r ≠ Leaf →
  ∃ s', avl_swap_nodes a m s = Done (tt, s') ∧
        wf (heap s') (root s') None (plug c (Node (set_max a l) m r)) ∧
        (∃ xs, elements (Node l a r) = xs ++ m :: a :: elements r ∧
               elements (Node (set_max a l) m r)
               = xs ++ a :: m :: elements r) ∧
        frame (elements (plug c (Node l a r))) s s'.
Proof.
  intros Hwf Hnd Hlast Hr.
  pose proof (swap_tree c l a r m s Hwf Hnd Hlast Hr) as H.
  apply wp_Done in H as ([] & s' & Hrun & Hwf' & Hfr).
  exists s'. split; [done|]. split; [done|]. split; [|done].
  exists (elements (remove_max l)). cbn [elements].
  rewrite elements_set_max by (by destruct l).
  rewrite (elements_remove_max l m Hlast) at 1.
  by rewrite <- !app_assoc.
Qed.

(** X19.  [avl_is_balanced] on a tree whose height fields are right:
    at the root of a subtree it answers [TRUE] exactly when the depths of
    the two subtrees differ by at most one, and changes nothing. *)
Theorem avl_is_balanced_decides s l a r :
  shape (heap s) (Some a) (Node l a r) →
  heights_ok (heap s) (Node l a r) →
  Z.of_nat (depth (Node l a r)) <= INT_MAX →
  ∃ b, avl_is_balanced a s = Done (b, s) ∧
       (b = true ↔ (depth l ≤ depth r + 1 ∧ depth r ≤ depth l + 1)%nat).
Proof.
  intros Hsh Hh Hmax. exists (balanced (Node l a r)).
  split; [by apply is_balanced_root|].
  unfold balanced, bal.
  destruct (_ <? _) eqn:E1; destruct (_ >? _) eqn:E2; cbn [orb];
    bal_arith; split; try done; try lia.
Qed.

(** ** Sequences of operations *)

Lemma elem_of_without x y l : y ∈ without x l ↔ y ∈ l ∧ y ≠ x.
Proof.
  induction l as [|z l IH]; cbn [without].
  - split; [by intros ?%elem_of_nil|by intros [?%elem_of_nil _]].
  - destruct (decide (z = x)) as [->|Hne]; rewrite ?elem_of_cons, IH.
    + split; [intros [? ?]; auto|]. by intros [[->|?] ?].
    + split; [intros [->|[? ?]]; auto|]. intros [[->|?] ?]; auto.
Qed.

Lemma NoDup_without x l : NoDup l → NoDup (without x l).
Proof.
  induction 1 as [|z l Hz Hl IH]; cbn [without]; [constructor|].
  destruct (decide (z = x)); [done|]. constructor; [|done].
  rewrite elem_of_without. by intros [? _].
Qed.

Lemma without_fresh x l : x ∉ l → without x l = l.
Proof.
  induction l as [|z l IH]; [done|]. intros [Hz Hl]%not_elem_of_cons.
  cbn [without]. rewrite decide_False by done. by rewrite IH.
Qed.

Lemma without_middle x xs ys :
  NoDup (xs ++ x :: ys) → without x (xs ++ x :: ys) = xs ++ ys.
Proof.
  induction xs as [|z xs IH]; cbn [app without].
  - intros [Hx _]%NoDup_cons. rewrite decide_True by done.
    by apply without_fresh.
  - intros [Hz Hnd]%NoDup_cons. rewrite decide_False.
    + by rewrite IH.
    + intros ->. apply Hz, elem_of_app. right. by left.
Qed.

Lemma length_without x l :
  (length (without x l) ≤ length l)%nat ∧
  (x ∈ l → length (without x l) < length l)%nat.
Proof.
  induction l as [|z l [IH1 IH2]]; cbn [without length].
  - split; [done|by intros ?%elem_of_nil].
  - destruct (decide (z = x)) as [->|Hne]; cbn [length].
    + split; [lia|]. intros _. lia.
    + split; [lia|]. intros [?|Hx]%elem_of_cons; [done|].
      specialize (IH2 Hx). lia.
Qed.

Lemma run_ops_wp key fuel os :
  ∀ fresh s T,
    wf (heap s) (root s) None T → heights_ok (heap s) T →
    avl T → bst key T →
    NoDup (fresh ++ elements T) →
    (∀ x, x ∈ fresh →
          ∃ nn, heap s !! x = Some nn ∧ left nn = None ∧ right nn = None) →
    admissible key fresh (elements T) os →
    (length fresh + length (elements T) ≤ fuel)%nat →
    Z.of_nat fuel <= INT_MAX →
    wp (run_ops fuel (cmp_key key) os) s (λ _ s',
      ∃ T', wf (heap s') (root s') None T' ∧ heights_ok (heap s') T' ∧
            avl T' ∧ bst key T' ∧ elements T' = play (elements T) os).
Proof.
  induction os as [|[x|x] os IH];
    intros fresh s T Hwf Hh Havl Hbst Hnd Hblank Hadm Hfuel Hmax.
  - apply wp_ret. by exists T.
  - destruct Hadm as (Hx & Hlt & Hadm).
    destruct (Hblank x Hx) as (nn & Hnode & Hnl & Hnr).
    pose proof Hnd as (Hndf & Hdisj & Hndt)%NoDup_app.
    pose proof (depth_le_size T) as Hds.
    destruct (length_without x fresh) as [_ Hlen]. specialize (Hlen Hx).
    cbn [run_ops run_op play]. apply wp_bind.
    eapply wp_mono.
    { apply (avl_add_min_wp key T s x nn fuel); try done; try lia.
      by apply Hdisj. }
    intros [] s1 (T1 & Hwf1 & Hh1 & Havl1 & Hbst1 & He1 & _ & Hfr1).
    cbn beta. rewrite <- He1.
    apply (IH (without x fresh)); try done.
    + rewrite He1. apply NoDup_app. split; [by apply NoDup_without|].
      split; [|apply NoDup_cons; split; [by apply Hdisj|done]].
      intros y [Hy Hyx]%elem_of_without [->|Hyt]%elem_of_cons; [done|].
      by apply (Hdisj y).
    + intros y [Hy Hyx]%elem_of_without.
      destruct (Hblank y Hy) as (yn & Hyn & ?). exists yn.
      split; [|done]. rewrite Hfr1; [done|].
      apply not_elem_of_cons. split; [done|]. by apply Hdisj.
    + by rewrite He1.
    + rewrite He1. cbn [length]. lia.
  - destruct Hadm as (Hx & Hadm).
    pose proof Hnd as (Hndf & Hdisj & Hndt)%NoDup_app.
    pose proof (depth_le_size T) as Hds.
    cbn [run_ops run_op play]. apply wp_bind.
    eapply wp_mono.
    { apply (avl_del_wp T s x fuel); try done; lia. }
    intros [] s1 (T1 & xs & ys & Hwf1 & Hh1 & Havl1 & He & He1 & _ & Hfr1).
    cbn beta.
    assert (Hw : without x (elements T) = elements T1).
    { rewrite He, He1. apply without_middle. by rewrite <- He. }
    rewrite Hw. rewrite Hw in Hadm.
    assert (Hsub : ∀ y, y ∈ elements T1 → y ∈ elements T).
    { intros y Hy. rewrite <- Hw in Hy. by apply elem_of_without in Hy as [? _]. }
    apply (IH fresh); try done.
    + revert Hbst. rewrite !bst_ascending, He, He1. apply ascending_remove.
    + apply NoDup_app. split; [done|]. split.
      * intros y Hy Hyt. apply (Hdisj y Hy). by apply Hsub.
      * rewrite <- Hw. by apply NoDup_without.
    + intros y Hy. destruct (Hblank y Hy) as (yn & Hyn & ?). exists yn.
      split; [|done]. rewrite Hfr1; [done|]. by apply Hdisj.
    + destruct (length_without x (elements T)) as [Hlen _].
      rewrite Hw in Hlen. lia.
Qed.

(** X20.  The invariants over sequences of operations: from an empty tree
    and cleared nodes, for every list of [avl_add] and [avl_del] calls in
    which each added node is a cleared node that compares below all nodes
    then in the tree and each deleted node is in the tree, every call
    completes and the outcome is a well-formed AVL search tree with right
    height fields that holds exactly the nodes added and not deleted. *)
Theorem avl_ops_keep_invariants key nodes os fuel :
  NoDup nodes → admissible key nodes [] os →
  (length nodes ≤ fuel)%nat → Z.of_nat fuel <= INT_MAX →
  ∃ s' T',
    run_ops fuel (cmp_key key) os (fresh_state nodes) = Done (tt, s') ∧
    wf (heap s') (root s') None T' ∧ heights_ok (heap s') T' ∧
    avl T' ∧ bst key T' ∧ elements T' = play [] os.
Proof.
  intros Hnd Hadm Hfuel Hmax.
  pose proof (run_ops_wp key fuel os nodes (fresh_state nodes) Leaf) as H.
  cbn [elements] in H. rewrite app_nil_r in H. cbn [length] in H.
  apply wp_Done in H as ([] & s' & Hrun & T' & ? & ? & ? & ? & ?);
    try done.
  - by exists s', T'.
  - intros x Hx. exists blank. by rewrite fresh_state_lookup.
  - lia.
Qed.

(** ** Linking a new node anywhere *)












(** ** The new node after the whole of [avl_add] *)







(** ** The extras on concrete memories *)

Ltac concrete_nodup :=
  cbn [elements app];
  repeat (apply NoDup_cons; split;
          [rewrite ?not_elem_of_cons, ?elem_of_nil; intuition lia|]);
  apply NoDup_nil_2.

Ltac concrete_owner :=
  cbn [owner_free elements app];
  rewrite ?not_elem_of_cons, ?elem_of_nil; intuition lia.

Lemma avl_set_height_keeps_links_witness :
  ∃ s', avl_set_height 4 6 lr_state = Done (tt, s') ∧ links_kept lr_state s'.
Proof.
  destruct (avl_set_height 4 6 lr_state) as [[[] s']| |] eqn:E;
    [|vm_compute in E; discriminate..].
  exists s'. split; [done|].
  exact (avl_set_height_keeps_links 4 6 lr_state tt s' E).
Defined.

Lemma avl_set_height_correct_witness :
  ∃ s', avl_set_height 4 6 lr_state = Done (tt, s') ∧
        heights_ok (heap s') lr_tree.
Proof.
  destruct (avl_set_height_correct lr_tree lr_state 6 4)
    as (s' & Hrun & _ & _ & Hh & _).
  - unfold lr_tree. concrete_shape.
  - unfold lr_tree. concrete_nodup.
  - vm_compute. lia.
  - vm_compute. discriminate.
  - eauto.
Defined.

Lemma avl_balance_after_set_height_witness :
  ∃ s', avl_set_height 3 20 balanced7 = Done (tt, s') ∧
        balance_reads s' balanced7_tree.
Proof.
  apply (avl_balance_after_set_height balanced7_tree balanced7 20 3).
  - unfold balanced7_tree. concrete_shape.
  - unfold balanced7_tree. concrete_nodup.
  - vm_compute. lia.
  - vm_compute. discriminate.
Defined.

Lemma avl_get_min_node_correct_witness :
  avl_get_min_node 3 (Some 30%nat) balanced7 = Done (Some 25%nat, balanced7).
Proof.
  apply (avl_get_min_node_correct
           (Node (Node Leaf 25 Leaf) 30 (Node Leaf 35 Leaf))
           balanced7 (Some 30%nat) 3).
  - concrete_shape.
  - vm_compute. lia.
Defined.

Lemma avl_rotate_ll_keeps_order_witness :
  ∃ s', avl_rotate_ll (SlotLeft 8) 6 lr_state = Done (tt, s') ∧
        shape (heap s') (Some 2%nat)
          (Node (Node Leaf 1 Leaf) 2
             (Node (Node (Node Leaf 3 Leaf) 4 (Node Leaf 5 Leaf)) 6
                   (Node Leaf 7 Leaf))).
Proof.
  destruct (avl_rotate_ll_keeps_order Z.of_nat lr_state (SlotLeft 8) 6 2
              (Node Leaf 1 Leaf)
              (Node (Node Leaf 3 Leaf) 4 (Node Leaf 5 Leaf))
              (Node Leaf 7 Leaf))
    as (s' & Hrun & _ & Hsh & _).
  - concrete_shape.
  - concrete_nodup.
  - vm_compute. reflexivity.
  - concrete_owner.
  - eauto.
Defined.

Lemma avl_rotate_rr_keeps_order_witness :
  ∃ s', avl_rotate_rr (SlotRight 8) 6 rl_state = Done (tt, s') ∧
        shape (heap s') (Some 2%nat)
          (Node (Node (Node Leaf 7 Leaf) 6
                   (Node (Node Leaf 5 Leaf) 4 (Node Leaf 3 Leaf)))
                2 (Node Leaf 1 Leaf)).
Proof.
  destruct (avl_rotate_rr_keeps_order Z.of_nat rl_state (SlotRight 8) 6 2
              (Node Leaf 7 Leaf)
              (Node (Node Leaf 5 Leaf) 4 (Node Leaf 3 Leaf))
              (Node Leaf 1 Leaf))
    as (s' & Hrun & _ & Hsh & _).
  - concrete_shape.
  - concrete_nodup.
  - vm_compute. reflexivity.
  - concrete_owner.
  - eauto.
Defined.

Lemma avl_rotate_lr_keeps_order_witness :
  ∃ s', avl_rotate_lr (SlotLeft 8) 6 lr_state = Done (tt, s') ∧
        shape (heap s') (Some 4%nat)
          (Node (Node (Node Leaf 1 Leaf) 2 (Node Leaf 3 Leaf)) 4
                (Node (Node Leaf 5 Leaf) 6 (Node Leaf 7 Leaf))).
Proof.
  destruct (avl_rotate_lr_keeps_order Z.of_nat lr_state (SlotLeft 8) 6 2 4
              (Node Leaf 1 Leaf) (Node Leaf 3 Leaf) (Node Leaf 5 Leaf)
              (Node Leaf 7 Leaf))
    as (s' & Hrun & _ & Hsh & _).
  - concrete_shape.
  - concrete_nodup.
  - vm_compute. reflexivity.
  - concrete_owner.
  - eauto.
Defined.

Lemma avl_rotate_rl_keeps_order_witness :
  ∃ s', avl_rotate_rl (SlotRight 8) 6 rl_state = Done (tt, s') ∧
        shape (heap s') (Some 4%nat)
          (Node (Node (Node Leaf 7 Leaf) 6 (Node Leaf 5 Leaf)) 4
                (Node (Node Leaf 3 Leaf) 2 (Node Leaf 1 Leaf))).
Proof.
  destruct (avl_rotate_rl_keeps_order Z.of_nat rl_state (SlotRight 8) 6 2 4
              (Node Leaf 7 Leaf) (Node Leaf 5 Leaf) (Node Leaf 3 Leaf)
              (Node Leaf 1 Leaf))
    as (s' & Hrun & _ & Hsh & _).
  - concrete_shape.
  - concrete_nodup.
  - vm_compute. reflexivity.
  - concrete_owner.
  - eauto.
Defined.

Ltac concrete_wf :=
  cbn [plug];
  repeat match goal with
         | |- wf _ _ _ _ => progress cbn [wf left right parent]
         | |- _ ∧ _ => split
         | |- ∃ n : avl_node, _ => eexists
         | |- _ !! _ = Some _ => vm_compute; reflexivity
         | |- _ = _ => reflexivity
         end.

Ltac concrete_heights :=
  cbn [plug heights_ok];
  repeat match goal with
         | |- _ ∧ _ => split
         | |- True => exact I
         | |- ∃ n : avl_node, _ => eexists
         | |- _ !! _ = Some _ => vm_compute; reflexivity
         | |- _ = _ => vm_compute; reflexivity
         end.

Ltac concrete_avl :=
  cbn [avl depth]; repeat split; lia.

Lemma avl_do_balancing_restores_witness :
  ∃ flag s' t',
    avl_do_balancing 5 6 lr_state = Done (flag, s') ∧
    wf (heap s') (root s') None (plug (InL Top 8 Leaf) t') ∧ avl t'.
Proof.
  destruct (avl_do_balancing_restores Z.of_nat (InL Top 8 Leaf)
              (Node (Node Leaf 1 Leaf) 2
                    (Node (Node Leaf 3 Leaf) 4 (Node Leaf 5 Leaf)))
              6 (Node Leaf 7 Leaf) lr_state 5)
    as (flag & s' & t' & Hrun & Hwf & _ & Havl & _).
  - concrete_wf.
  - concrete_heights.
  - cbn [plug]. concrete_nodup.
  - vm_compute. lia.
  - vm_compute. discriminate.
  - concrete_avl.
  - concrete_avl.
  - left. reflexivity.
  - eauto 6.
Defined.

Lemma avl_add_new_minimum_witness :
  ∃ s' t',
    avl_add 4 (cmp_key Z.of_nat) 1 balanced7 = Done (tt, s') ∧
    avl t' ∧ elements t' = 1%nat :: elements balanced7_tree.
Proof.
  destruct (avl_add_new_minimum Z.of_nat balanced7_tree balanced7 1 blank 4)
    as (s' & t' & Hrun & _ & _ & Havl & _ & He & _).
  - unfold balanced7_tree. concrete_wf.
  - unfold balanced7_tree. concrete_nodup.
  - unfold balanced7_tree. concrete_avl.
  - unfold balanced7_tree. concrete_bst.
  - unfold balanced7_tree. cbn [elements app].
    rewrite ?not_elem_of_cons, ?elem_of_nil. intuition lia.
  - vm_compute. reflexivity.
  - reflexivity.
  - reflexivity.
  - unfold balanced7_tree. cbn [elements app]. intros y Hy.
    repeat (apply elem_of_cons in Hy as [->|Hy]); try lia.
    by apply elem_of_nil in Hy.
  - vm_compute. lia.
  - vm_compute. reflexivity.
  - eauto.
Defined.

Lemma avl_add_descending_witness :
  ∃ s' t',
    run_ops 3 (cmp_key Z.of_nat) [Add 3; Add 2; Add 1] (fresh_state [3; 2; 1]%nat)
    = Done (tt, s') ∧
    avl t' ∧ elements t' = [1; 2; 3]%nat.
Proof.
  destruct (avl_add_descending Z.of_nat [3; 2; 1]%nat 3)
    as (s' & t' & Hrun & _ & _ & Havl & _ & He).
  - concrete_nodup.
  - cbn [descending]. repeat split; intros y Hy;
      repeat (apply elem_of_cons in Hy as [->|Hy]); try lia;
      by apply elem_of_nil in Hy.
  - cbn. lia.
  - vm_compute. discriminate.
  - eauto.
Defined.

Lemma avl_swap_nodes_child_first_witness :
  avl_swap_nodes 10 20 balanced7 = Fault.
Proof.
  apply (avl_swap_nodes_child_first Top
           (Node (Node Leaf 5 Leaf) 10 (Node Leaf 15 Leaf)) 20
           (Node (Node Leaf 25 Leaf) 30 (Node Leaf 35 Leaf))).
  - concrete_wf.
  - cbn [plug]. concrete_nodup.
  - left. reflexivity.
Defined.


Lemma avl_find_after_add_witness :
  ∃ s', avl_add 4 (cmp_key Z.of_nat) 1 balanced7 = Done (tt, s') ∧
        avl_find 4 (cmp_key Z.of_nat) 1 s' = Done (Some 1%nat, s').
Proof.
  destruct (avl_find_after_add Z.of_nat balanced7_tree balanced7 1 blank 4)
    as (s' & Hrun & Hfind).
  - unfold balanced7_tree. concrete_wf.
  - unfold balanced7_tree. concrete_nodup.
  - unfold balanced7_tree. concrete_avl.
  - unfold balanced7_tree. concrete_bst.
  - unfold balanced7_tree. cbn [elements app].
    rewrite ?not_elem_of_cons, ?elem_of_nil. intuition lia.
  - vm_compute. reflexivity.
  - reflexivity.
  - reflexivity.
  - unfold balanced7_tree. cbn [elements app]. intros y Hy.
    repeat (apply elem_of_cons in Hy as [->|Hy]); try lia.
    by apply elem_of_nil in Hy.
  - vm_compute. lia.
  - vm_compute. reflexivity.
  - exists s'. split; [done|]. apply Hfind. by left.
Defined.

Ltac concrete_elem :=
  cbn [elements app]; rewrite ?elem_of_cons; auto 10.

Lemma avl_del_correct_witness :
  ∃ s' T',
    avl_del 3 20 balanced7 = Done (tt, s') ∧
    wf (heap s') (root s') None T' ∧ avl T' ∧
    elements T' = [5; 10; 15; 25; 30; 35]%nat.
Proof.
  destruct (avl_del_correct Z.of_nat balanced7_tree balanced7 20 3)
    as (s' & T' & xs & ys & Hrun & Hwf & _ & Havl & He & He' & _).
  - unfold balanced7_tree. concrete_wf.
  - unfold balanced7_tree. concrete_heights.
  - unfold balanced7_tree. concrete_nodup.
  - unfold balanced7_tree. concrete_avl.
  - unfold balanced7_tree. concrete_elem.
  - vm_compute. lia.
  - vm_compute. discriminate.
  - exists s', T'. split; [done|]. split; [done|]. split; [done|].
    rewrite He'. unfold balanced7_tree in He. cbn [elements app] in He.
    assert (Hnd : NoDup (xs ++ 20%nat :: ys))
      by (rewrite <- He; concrete_nodup).
    rewrite <- (without_middle 20 xs ys Hnd), <- He. reflexivity.
Defined.

Lemma avl_find_after_del_witness :
  ∃ s', avl_del 3 10 balanced7 = Done (tt, s') ∧
        avl_find 3 (cmp_key Z.of_nat) 10 s' = Done (None, s') ∧
        avl_find 3 (cmp_key Z.of_nat) 15 s' = Done (Some 15%nat, s').
Proof.
  destruct (avl_find_after_del Z.of_nat balanced7_tree balanced7 10 3)
    as (s' & Hrun & Hnone & Hsome).
  - unfold balanced7_tree. concrete_wf.
  - unfold balanced7_tree. concrete_heights.
  - unfold balanced7_tree. concrete_nodup.
  - unfold balanced7_tree. concrete_avl.
  - unfold balanced7_tree. concrete_bst.
  - unfold balanced7_tree. concrete_elem.
  - vm_compute. lia.
  - vm_compute. discriminate.
  - exists s'. split; [done|]. split; [done|]. apply Hsome; [|lia].
    unfold balanced7_tree. concrete_elem.
Defined.

Lemma avl_add_del_round_trip_witness :
  ∃ s1 s2 t2,
    avl_add 4 (cmp_key Z.of_nat) 1 balanced7 = Done (tt, s1) ∧
    avl_del 4 1 s1 = Done (tt, s2) ∧
    avl t2 ∧ elements t2 = elements balanced7_tree.
Proof.
  destruct (avl_add_del_round_trip Z.of_nat balanced7_tree balanced7 1
              blank 4)
    as (s1 & s2 & t2 & Hadd & Hdel & _ & _ & Havl & _ & He).
  - unfold balanced7_tree. concrete_wf.
  - unfold balanced7_tree. concrete_nodup.
  - unfold balanced7_tree. concrete_avl.
  - unfold balanced7_tree. concrete_bst.
  - unfold balanced7_tree. cbn [elements app].
    rewrite ?not_elem_of_cons, ?elem_of_nil. intuition lia.
  - vm_compute. reflexivity.
  - reflexivity.
  - reflexivity.
  - unfold balanced7_tree. cbn [elements app]. intros y Hy.
    repeat (apply elem_of_cons in Hy as [->|Hy]); try lia.
    by apply elem_of_nil in Hy.
  - vm_compute. lia.
  - vm_compute. reflexivity.
  - eauto 10.
Defined.

Lemma avl_swap_nodes_exchanges_witness :
  ∃ s', avl_swap_nodes 20 15 balanced7 = Done (tt, s') ∧
        wf (heap s') (root s') None
          (Node (Node (Node Leaf 5 Leaf) 10 (Node Leaf 20 Leaf)) 15
                (Node (Node Leaf 25 Leaf) 30 (Node Leaf 35 Leaf))).
Proof.
  destruct (avl_swap_nodes_exchanges Top
              (Node (Node Leaf 5 Leaf) 10 (Node Leaf 15 Leaf)) 20
              (Node (Node Leaf 25 Leaf) 30 (Node Leaf 35 Leaf)) 15 balanced7)
    as (s' & Hrun & Hwf & _).
  - concrete_wf.
  - cbn [plug]. concrete_nodup.
  - reflexivity.
  - discriminate.
  - eauto.
Defined.

Lemma avl_is_balanced_decides_witness :
  avl_is_balanced 6 lr_state = Done (false, lr_state).
Proof.
  destruct (avl_is_balanced_decides lr_state
              (Node (Node Leaf 1 Leaf) 2
                    (Node (Node Leaf 3 Leaf) 4 (Node Leaf 5 Leaf)))
              6 (Node Leaf 7 Leaf))
    as (b & Hrun & Hb).
  - concrete_shape.
  - concrete_heights.
  - vm_compute. discriminate.
  - rewrite Hrun. destruct b; [|done].
    destruct Hb as [Hb _]. specialize (Hb eq_refl). cbn [depth] in Hb. lia.
Defined.

Lemma avl_ops_keep_invariants_witness :
  ∃ s' T',
    run_ops 3 (cmp_key Z.of_nat) [Add 3; Add 2; Del 3; Add 1]
      (fresh_state [3; 2; 1]%nat) = Done (tt, s') ∧
    avl T' ∧ elements T' = [1; 2]%nat.
Proof.
  destruct (avl_ops_keep_invariants Z.of_nat [3; 2; 1]%nat
              [Add 3; Add 2; Del 3; Add 1] 3)
    as (s' & T' & Hrun & _ & _ & Havl & _ & He).
  - concrete_nodup.
  - simpl. rewrite ?elem_of_cons.
    repeat split; auto;
      intros y Hy; repeat (apply elem_of_cons in Hy as [->|Hy]); try lia;
      by apply elem_of_nil in Hy.
  - cbn. lia.
  - vm_compute. discriminate.
  - eauto.
Defined.

(** ** Linking a new node: the fields of the node *)


